(** * Infisical Kubernetes operator: the streaming reconciliation engine

    A shallow embedding of the parts of the operator that its specification
    makes testable statements about:

    - [Util]: [ConvertIntervalToDuration] and [AppendAPIEndpoint]
      (package [util]);
    - [Sse]: the event parser, the connection registry and the reconnect
      loop (package [sse], file [internal/util/sse/sse.go]);
    - [Infisicalsecret]: the managed-object writer with its label and
      annotation sync (package [infisicalsecret]).

    Go strings are sequences of bytes; they are embedded as [string], whose
    characters are the 256 values of [ascii].  Go maps are [gmap]s.  A Go
    [int] or [time.Duration] is a [Z] with the 64-bit wrap-around written
    out. *)

From Stdlib Require Import ZArith Lia Bool Ascii String List DecimalString.
From stdpp Require Import gmap strings list sorting.

Local Open Scope Z_scope.

(** ** The Go standard library functions the operator calls *)

Module GoStrings.

Definition len (s : string) : Z := Z.of_nat (String.length s).

(** [s[i:]] for [0 <= i <= len s]. *)
Fixpoint drop (n : nat) (s : string) : string :=
  match n, s with
  | O, _ => s
  | S n', String _ t => drop n' t
  | S _, EmptyString => EmptyString
  end.

(** [s[:i]] for [0 <= i <= len s]. *)
Fixpoint take (n : nat) (s : string) : string :=
  match n, s with
  | O, _ => EmptyString
  | S n', String c t => String c (take n' t)
  | S _, EmptyString => EmptyString
  end.

(** [s[i]]; [None] is the run-time panic "index out of range". *)
Definition index (s : string) (i : Z) : option ascii :=
  if (0 <=? i) && (i <? len s) then String.get (Z.to_nat i) s else None.

(** [strings.HasPrefix]:
    [len(s) >= len(prefix) && s[:len(prefix)] == prefix]. *)
Definition HasPrefix (s prefix : string) : bool :=
  (len prefix <=? len s) && String.eqb (take (String.length prefix) s) prefix.

(** [strings.HasSuffix]:
    [len(s) >= len(suffix) && s[len(s)-len(suffix):] == suffix]. *)
Definition HasSuffix (s suffix : string) : bool :=
  (len suffix <=? len s)
  && String.eqb (drop (String.length s - String.length suffix) s) suffix.

(** [strings.IndexByte]: the first position of [c], [-1] if there is
    none. *)
Fixpoint IndexByte (s : string) (c : ascii) : Z :=
  match s with
  | EmptyString => -1
  | String a t =>
      if Ascii.eqb a c then 0
      else let i := IndexByte t c in if i <? 0 then -1 else i + 1
  end.

(** [strings.Contains]. *)
Fixpoint Contains (s substr : string) : bool :=
  HasPrefix s substr
  || match s with
     | EmptyString => false
     | String _ t => Contains t substr
     end.

(** [strings.Split(s, ",")]-style splitting at one separator byte: the
    pieces between the separators, at least one piece. *)
Fixpoint SplitByte (s : string) (sep : ascii) : list string :=
  match s with
  | EmptyString => [EmptyString]
  | String a t =>
      if Ascii.eqb a sep then EmptyString :: SplitByte t sep
      else match SplitByte t sep with
           | p :: ps => String a p :: ps
           | [] => [String a EmptyString]
           end
  end.

(** [strings.Join]. *)
Fixpoint Join (elems : list string) (sep : string) : string :=
  match elems with
  | [] => EmptyString
  | [e] => e
  | e :: rest => e +:+ sep +:+ Join rest sep
  end.

Definition byte (n : N) : ascii := ascii_of_N n.

(** The white space of [unicode.IsSpace] in its UTF-8 encoding:
    the six ASCII characters, U+0085, U+00A0, U+1680, U+2000..U+200A,
    U+2028, U+2029, U+202F, U+205F and U+3000. *)
Definition isAsciiSpace (c : ascii) : bool :=
  let n := N_of_ascii c in
  ((9 <=? n) && (n <=? 13))%N || (n =? 32)%N.

Definition isSpace2 (a b : ascii) : bool :=
  (N_of_ascii a =? 194)%N
  && ((N_of_ascii b =? 133)%N || (N_of_ascii b =? 160)%N).

Definition isSpace3 (a b c : ascii) : bool :=
  let x := N_of_ascii a in
  let y := N_of_ascii b in
  let z := N_of_ascii c in
  ((x =? 225) && (y =? 154) && (z =? 128))%N
  || ((x =? 226) && (y =? 128)
      && (((128 <=? z) && (z <=? 138)) || (z =? 168) || (z =? 169)
          || (z =? 175)))%N
  || ((x =? 226) && (y =? 129) && (z =? 159))%N
  || ((x =? 227) && (y =? 128) && (z =? 128))%N.

(** [strings.TrimLeftFunc(s, unicode.IsSpace)]. *)
Fixpoint TrimLeftSpace (s : string) : string :=
  match s with
  | EmptyString => EmptyString
  | String a t =>
      if isAsciiSpace a then TrimLeftSpace t
      else match t with
           | String b t' =>
               if isSpace2 a b then TrimLeftSpace t'
               else match t' with
                    | String c t'' =>
                        if isSpace3 a b c then TrimLeftSpace t'' else s
                    | EmptyString => s
                    end
           | EmptyString => s
           end
  end.

(** The same from the right end, on the reversed string: the last rune
    is decoded from its last byte backwards. *)
Fixpoint TrimLeftSpaceRev (s : string) : string :=
  match s with
  | EmptyString => EmptyString
  | String a t =>
      if isAsciiSpace a then TrimLeftSpaceRev t
      else match t with
           | String b t' =>
               if isSpace2 b a then TrimLeftSpaceRev t'
               else match t' with
                    | String c t'' =>
                        if isSpace3 c b a then TrimLeftSpaceRev t'' else s
                    | EmptyString => s
                    end
           | EmptyString => s
           end
  end.

(** [strings.TrimSpace]. *)
Definition TrimSpace (s : string) : string :=
  String.rev (TrimLeftSpaceRev (String.rev (TrimLeftSpace s))).

(** [strings.ToLower].  The library first looks for a byte that is not
    ASCII ([c >= utf8.RuneSelf]).  When there is none it lowers the bytes
    ['A'] to ['Z'] and keeps the others; otherwise it returns
    [strings.Map(unicode.ToLower, s)], which decodes the string as UTF-8 and
    maps every rune through the case tables of package [unicode] (so that,
    for instance, U+0130 becomes [i]). *)
Definition lowerByte (c : ascii) : ascii :=
  let n := N_of_ascii c in
  if ((65 <=? n) && (n <=? 90))%N then ascii_of_N (n + 32) else c.

Fixpoint lowerASCII (s : string) : string :=
  match s with
  | EmptyString => EmptyString
  | String a t => String (lowerByte a) (lowerASCII t)
  end.

Fixpoint isASCII (s : string) : bool :=
  match s with
  | EmptyString => true
  | String c t => (N_of_ascii c <? 128)%N && isASCII t
  end.

(** The case tables are those of the library and are not reproduced:
    [MapUnicodeToLower] is [strings.Map(unicode.ToLower, s)], whatever the
    tables are.  [ToLower] consults it on the strings that have a byte
    outside ASCII only. *)
Class CaseTables : Type := { MapUnicodeToLower : string -> string }.

Definition ToLower `{CaseTables} (s : string) : string :=
  if isASCII s then lowerASCII s else MapUnicodeToLower s.

(** Case tables without any letter outside ASCII.  The examples of this
    development are strings of ASCII bytes, on which [ToLower] is the same
    for all tables; they are evaluated with these. *)
Definition asciiCaseTables : CaseTables :=
  {| MapUnicodeToLower := lowerASCII |}.

End GoStrings.

(** [time.Duration] is an [int64] of nanoseconds. *)
Module GoTime.

Definition Second : Z := 1000000000.
Definition Minute : Z := 60 * Second.
Definition Hour : Z := 60 * Minute.

End GoTime.

(** ** Package [util] *)

Module Util.
Import GoStrings GoTime.

(** The outcome of a call that may panic on a slice index. *)
Inductive Outcome (A : Type) : Type :=
| Returns (a : A)
| PanicIndexOutOfRange (i : Z) (length : Z).
Arguments Returns {A} a.
Arguments PanicIndexOutOfRange {A} i length.

Definition AppendAPIEndpoint (address : string) : Outcome string :=
  if HasSuffix address "/api" then Returns address
  else
    match index address (len address - 1) with
    | None => PanicIndexOutOfRange (len address - 1) (len address)
    | Some c =>
        if Ascii.eqb c "/" then Returns (address +:+ "api")
        else Returns (address +:+ "/api")
    end.

(** [strconv.Atoi] fails with one of two errors. *)
Inductive NumError : Type := ErrSyntax | ErrRange.

Definition maxUint64 : Z := 18446744073709551615.
Definition minInt64 : Z := -9223372036854775808.
Definition maxInt64 : Z := 9223372036854775807.

(** A Go [int64]: the representative of [z] modulo [2^64] in
    [minInt64 .. maxInt64]. *)
Definition wrap64 (z : Z) : Z :=
  (z - minInt64) mod 18446744073709551616 + minInt64.

Definition digitOf (c : ascii) : option Z :=
  let n := Z.of_N (N_of_ascii c) in
  if (48 <=? n) && (n <=? 57) then Some (n - 48) else None.

(** The digit loop of [strconv.ParseUint(s, 10, 64)], started with the
    accumulator [n]: a byte that is not a decimal digit is a syntax error,
    an accumulator that leaves the [uint64] range is a range error, and
    whichever comes first in the string is reported. *)
Fixpoint parseUintLoop (s : string) (n : Z) : NumError + Z :=
  match s with
  | EmptyString => inr n
  | String c t =>
      match digitOf c with
      | None => inl ErrSyntax
      | Some d =>
          if maxUint64 / 10 + 1 <=? n then inl ErrRange
          else if maxUint64 <? n * 10 + d then inl ErrRange
          else parseUintLoop t (n * 10 + d)
      end
  end.

Definition ParseUint (s : string) : NumError + Z :=
  match s with
  | EmptyString => inl ErrSyntax
  | _ => parseUintLoop s 0
  end.

(** [strconv.Atoi] on a 64-bit platform.  Its fast path (fewer than 19
    bytes) and [ParseInt(s, 10, 0)] agree wherever both apply; this is
    [ParseInt]. *)
Definition Atoi (s : string) : NumError + Z :=
  match s with
  | EmptyString => inl ErrSyntax
  | String c t =>
      let neg := Ascii.eqb c "-" in
      let digits := if neg || Ascii.eqb c "+" then t else s in
      match ParseUint digits with
      | inl e => inl e
      | inr un =>
          if negb neg && (maxInt64 + 1 <=? un) then inl ErrRange
          else if neg && (maxInt64 + 1 <? un) then inl ErrRange
          else inr (if neg then - un else un)
      end
  end.

Inductive IntervalError : Type :=
| InvalidFormat                (* "invalid format" *)
| AtoiError (e : NumError)     (* the error of strconv.Atoi *)
| AtLeastFiveSeconds           (* "resync interval must be at least 5 seconds" *)
| InvalidTimeUnit.             (* "invalid time unit" *)

(** [resyncInterval] is a [*string]; [None] is the nil pointer. *)
Definition ConvertIntervalToDuration (resyncInterval : option string)
  : IntervalError + Z :=
  match resyncInterval with
  | None => inr 0
  | Some interval =>
      if String.eqb interval "" then inr 0
      else
        let length := String.length interval in
        if (length <? 2)%nat then inl InvalidFormat
        else
          let unit := drop (length - 1) interval in
          let numberPart := take (length - 1) interval in
          match Atoi numberPart with
          | inl err => inl (AtoiError err)
          | inr number =>
              if String.eqb unit "s" then
                if number <? 5 then inl AtLeastFiveSeconds
                else inr (wrap64 (number * Second))
              else if String.eqb unit "m" then
                inr (wrap64 (number * Minute))
              else if String.eqb unit "h" then
                inr (wrap64 (number * Hour))
              else if String.eqb unit "d" then
                inr (wrap64 (wrap64 (number * 24) * Hour))
              else if String.eqb unit "w" then
                inr (wrap64 (wrap64 (wrap64 (number * 7) * 24) * Hour))
              else inl InvalidTimeUnit
          end
  end.

(** *** The wording of the specification, for comparison

    "[<N><unit>] where unit is one of s, m, h, d, w": a decimal integer
    is an optional sign followed by at least one decimal digit. *)
Definition isDigit (c : ascii) : bool :=
  let n := N_of_ascii c in ((48 <=? n) && (n <=? 57))%N.

Fixpoint allDigits (s : string) : bool :=
  match s with
  | EmptyString => true
  | String c t => isDigit c && allDigits t
  end.

Fixpoint digitsValue (s : string) (acc : Z) : Z :=
  match s with
  | EmptyString => acc
  | String c t => digitsValue t (acc * 10 + (Z.of_N (N_of_ascii c) - 48))
  end.

(** [DecimalInteger s n]: [s] is the decimal notation of the integer
    [n]. *)
Inductive DecimalInteger : string -> Z -> Prop :=
| DecimalUnsigned ds :
    ds <> EmptyString -> allDigits ds = true ->
    DecimalInteger ds (digitsValue ds 0)
| DecimalPlus ds :
    ds <> EmptyString -> allDigits ds = true ->
    DecimalInteger (String "+" ds) (digitsValue ds 0)
| DecimalMinus ds :
    ds <> EmptyString -> allDigits ds = true ->
    DecimalInteger (String "-" ds) (- digitsValue ds 0).

(** The length of a unit in nanoseconds. *)
Definition unitLength (unit : ascii) : option Z :=
  if Ascii.eqb unit "s" then Some Second
  else if Ascii.eqb unit "m" then Some Minute
  else if Ascii.eqb unit "h" then Some Hour
  else if Ascii.eqb unit "d" then Some (24 * Hour)
  else if Ascii.eqb unit "w" then Some (7 * 24 * Hour)
  else None.

End Util.

(** ** Package [sse] *)

Module Sse.
Import GoStrings GoTime.

Section tables.

(** The case tables of the library, for [strings.ToLower]. *)
Context {tables : CaseTables}.

Definition LF : ascii := "010"%char.
Definition CR : ascii := "013"%char.

(** *** [bufio.Scanner] with the default split function [ScanLines] *)

(** [bufio.MaxScanTokenSize]: a line and its terminator must fit in a buffer
    of this many bytes. *)
Definition MaxScanTokenSize : Z := 65536.

(** [dropCR], on the line accumulated in reverse: one trailing carriage
    return is removed. *)
Definition dropCR (reversed : string) : string :=
match reversed with
| String c rest => if Ascii.eqb c CR then String.rev rest else String.rev reversed
| EmptyString => EmptyString
end.

(** The lines [scanner.Scan] yields before it returns false, and whether it
    stopped with [bufio.ErrTooLong].  [reversed] is the current line so far
    and [n] its length.  A last line without terminator is yielded when it is
    not empty; it has to leave one byte of the buffer free, since the scanner
    asks for more input before it sees the end of the stream. *)
Fixpoint scanLines (data : string) (reversed : string) (n : Z)
  : list string * bool :=
match data with
| EmptyString =>
    if n =? 0 then ([], false)
    else if n <? MaxScanTokenSize then ([dropCR reversed], false)
    else ([], true)
| String c rest =>
    if Ascii.eqb c LF then
      if n <? MaxScanTokenSize then
        let '(lines, tooLong) := scanLines rest EmptyString 0 in
        (dropCR reversed :: lines, tooLong)
      else ([], true)
    else scanLines rest (String c reversed) (n + 1)
end.

(** *** Events *)

(** [type Event struct]; the field [Event] is [Event_] here. *)
Record Event : Type := mkEvent {
  ID : string;
  Event_ : string;
  Data : string;
  Retry : Z
}.

(** [Event{}] *)
Definition zeroEvent : Event :=
{| ID := ""; Event_ := ""; Data := ""; Retry := 0 |}.

Definition isEmptyString (s : string) : bool := String.eqb s "".

(** [isPermanentError], on the message of a non-nil error. *)
Definition isPermanentError (err : string) : bool :=
let errMsg := ToLower err in
Contains errMsg "not available on your current plan"
|| (Contains errMsg "plan" && Contains errMsg "not available").

(** [parseLine]: [event] and [dataBuilder] are passed by pointer and
    returned here. *)
Definition parseLine (line : string) (event : Event) (dataBuilder : string)
  : Event * string :=
let colonIndex := IndexByte line ":" in
if colonIndex =? -1 then (event, dataBuilder)
else
  let field := take (Z.to_nat colonIndex) line in
  let value := drop (Z.to_nat (colonIndex + 1)) line in
  let value :=
    match value with
    | String c rest => if Ascii.eqb c " " then rest else value
    | EmptyString => value
    end in
  if String.eqb field "data" then
    (event,
     (if 0 <? len dataBuilder then dataBuilder +:+ String LF "" else dataBuilder)
     +:+ value)
  else if String.eqb field "event" then
    ({| ID := ID event; Event_ := value; Data := Data event;
        Retry := Retry event |}, dataBuilder)
  else if String.eqb field "id" then
    ({| ID := value; Event_ := Event_ event; Data := Data event;
        Retry := Retry event |}, dataBuilder)
  else (event, dataBuilder).

(** [isPingEvent] *)
Definition isPingEvent (event : Event) : bool :=
if String.eqb (Event_ event) "ping" then true
else if isEmptyString (Event_ event) && String.eqb (TrimSpace (Data event)) "1"
     then true
     else false.

(** What [processStream] does to the rest of the program, in order. *)
Inductive Callback : Type :=
| UpdateLastPing                    (* meta.UpdateLastPing() *)
| SafeCallOnEvent (event : Event)   (* r.safeCallOnEvent(currentEvent) *)
| SafeCallOnError (err : string)    (* r.safeCallOnError(err) *)
| TriggerReconnect.                 (* r.triggerReconnect() *)

(** The body of the [for scanner.Scan()] loop after the check of the
    context: the callbacks of this line and the new [currentEvent] and
    [dataBuilder]. *)
Definition processLine (line : string) (currentEvent : Event)
    (dataBuilder : string) : list Callback * Event * string :=
if len line =? 0 then
  if negb (isEmptyString (Data currentEvent))
     || negb (isEmptyString (Event_ currentEvent)) then
    let '(currentEvent, dataBuilder) :=
      if 0 <? len dataBuilder then
        ({| ID := ID currentEvent; Event_ := Event_ currentEvent;
            Data := dataBuilder; Retry := Retry currentEvent |}, EmptyString)
      else (currentEvent, dataBuilder) in
    ([if isPingEvent currentEvent then UpdateLastPing
      else SafeCallOnEvent currentEvent],
     zeroEvent, dataBuilder)
  else ([], currentEvent, dataBuilder)
else
  let '(event, builder) := parseLine line currentEvent dataBuilder in
  ([], event, builder).

(** The loop.  [ctxDone i] tells whether the context of the connection is
    found cancelled at the check of iteration [i]; the result says whether
    the loop was left by that [return]. *)
Fixpoint processLines (ctxDone : nat -> bool) (i : nat) (lines : list string)
    (currentEvent : Event) (dataBuilder : string) : list Callback * bool :=
match lines with
| [] => ([], false)
| line :: rest =>
    if ctxDone i then ([], true)
    else
      let '(calls, currentEvent, dataBuilder) :=
        processLine line currentEvent dataBuilder in
      let '(more, returned) :=
        processLines ctxDone (S i) rest currentEvent dataBuilder in
      (calls ++ more, returned)
end.

(** The response body as the reader sees it: the bytes it delivers and the
    error that ends it ([None] is [io.EOF], which [scanner.Err] does not
    report). *)
Record Body : Type := mkBody {
  bytes : string;
  readError : option string
}.

Definition ErrTooLong : string := "bufio.Scanner: token too long".

(** [processStream]: the callbacks made while the body is read, then the
    handling of [scanner.Err()]. *)
(** The handling of a non-nil [scanner.Err()] at the end of
    [processStream]; [done] is the state of the context of the connection. *)
Definition scannerError (done : bool) (err : string) : list Callback :=
if done then []
else
  let errMsg := ToLower err in
  if Contains errMsg "closed" || Contains errMsg "eof" then []
  else
    SafeCallOnError err
    :: (if negb (isPermanentError err) then [TriggerReconnect] else []).

(** [processStream]: the callbacks made while the body is read, then the
    handling of [scanner.Err()]. *)
Definition processStream (ctxDone : nat -> bool) (body : Body)
  : list Callback :=
let '(lines, tooLong) := scanLines (bytes body) EmptyString 0 in
let '(calls, returned) := processLines ctxDone 0 lines zeroEvent EmptyString in
if returned then calls
else
  match (if tooLong then Some ErrTooLong else readError body) with
  | None => calls
  | Some err => calls ++ scannerError (ctxDone (List.length lines)) err
  end.

(** The events handed to [onEvent] and the number of updates of
    [lastPingAt]. *)
Fixpoint dispatched (calls : list Callback) : list Event :=
match calls with
| [] => []
| SafeCallOnEvent e :: rest => e :: dispatched rest
| _ :: rest => dispatched rest
end.

Fixpoint pingUpdates (calls : list Callback) : nat :=
match calls with
| [] => O
| UpdateLastPing :: rest => S (pingUpdates rest)
| _ :: rest => pingUpdates rest
end.

(** A context that is never cancelled while the body is read. *)
Definition neverDone : nat -> bool := fun _ => false.

(** *** The wire format, for comparison

    An event as a server writes it: the [id] and [event] fields when they
    are not empty, one [data] line for each line of the data, and an empty
    line.  Every line ends in LF and every value follows a colon and one
    space. *)
Definition fieldLine (field value : string) : string :=
field +:+ ": " +:+ value +:+ String LF "".

Fixpoint dataLines (lines : list string) : string :=
match lines with
| [] => EmptyString
| line :: rest => fieldLine "data" line +:+ dataLines rest
end.

Definition encodeEvent (e : Event) : string :=
(if isEmptyString (ID e) then EmptyString else fieldLine "id" (ID e))
+:+ (if isEmptyString (Event_ e) then EmptyString
     else fieldLine "event" (Event_ e))
+:+ (if isEmptyString (Data e) then EmptyString
     else dataLines (SplitByte (Data e) LF))
+:+ String LF "".

Fixpoint encodeEvents (events : list Event) : string :=
match events with
| [] => EmptyString
| e :: rest => encodeEvent e +:+ encodeEvents rest
end.

(** The lines of an encoded event, without their terminators. *)
Definition dataLine (line : string) : string := "data: " +:+ line.

Definition eventLines (e : Event) : list string :=
(if isEmptyString (ID e) then [] else ["id: " +:+ ID e])
++ (if isEmptyString (Event_ e) then [] else ["event: " +:+ Event_ e])
++ (if isEmptyString (Data e) then []
    else List.map dataLine (SplitByte (Data e) LF))
++ [EmptyString].

(** What the reader does with an event that reaches the classification. *)
Definition classified (e : Event) : Callback :=
if isPingEvent e then UpdateLastPing else SafeCallOnEvent e.

(** A value that the framing preserves: it has no LF, it does not end in
    CR, and its line fits in the buffer of the scanner. *)
Definition lineSafe (v : string) : Prop :=
IndexByte v LF = -1
/\ HasSuffix v (String CR "") = false
/\ len v + 7 < MaxScanTokenSize.

(** An event whose fields the framing preserves. *)
Definition safeFields (e : Event) : Prop :=
lineSafe (ID e)
/\ lineSafe (Event_ e)
/\ Forall lineSafe (SplitByte (Data e) LF).

(** An event that has an [event] field, whose fields are preserved by the
    framing, and whose data do not begin with an empty line. *)
Definition framed (e : Event) : Prop :=
Event_ e <> EmptyString
/\ Retry e = 0
/\ safeFields e
/\ HasPrefix (Data e) (String LF "") = false.

(** An event that has no [event] field: data, and possibly an id. *)
Definition eventless (e : Event) : Prop :=
Event_ e = EmptyString /\ safeFields e.

(** *** The connection registry *)

Record SubscriptionParams : Type := mkParams {
  ProjectID : string;
  EnvSlug : string;
  SecretsPath : string
}.

(** [SubscriptionParams.Equals] *)
Definition Equals (p other : SubscriptionParams) : bool :=
String.eqb (ProjectID p) (ProjectID other)
&& String.eqb (EnvSlug p) (EnvSlug other)
&& String.eqb (SecretsPath p) (SecretsPath other).

(** [ConnectionMeta].  [cancelled] is the state of [ctx] once [cancel] was
    called, [bodyClosed] the state of [body], [readerRunning] whether the
    [processStream] goroutine started for this meta has not returned yet. *)
Record ConnectionMeta : Type := mkMeta {
  params : SubscriptionParams;
  cancelled : bool;
  bodyClosed : bool;
  lastPingAt : Z;
  readerRunning : bool
}.

(** [BackoffFactor] is a [float64]; it is the fraction
    [factorNum / factorDen] here. *)
Record ReconnectConfig : Type := mkConfig {
  MaxRetries : Z;
  InitialBackoff : Z;
  MaxBackoff : Z;
  factorNum : Z;
  factorDen : Z
}.

Definition DefaultReconnectConfig : ReconnectConfig :=
{| MaxRetries := 5;
   InitialBackoff := Second;
   MaxBackoff := 30 * Second;
   factorNum := 2;
   factorDen := 1 |}.

(** What the registry does that other goroutines and the caller observe,
    in order.  Connections are named by their index in [heap], request
    functions by a number. *)
Inductive Effect : Type :=
| Request (fn : nat)                 (* requestFn() *)
| BodyClose (c : nat)                (* r.conn.body.Close() *)
| Cancel (c : nat)                   (* r.conn.Cancel() *)
| GoProcessStream (c : nat)          (* go r.processStream(connCtx, meta) *)
| TimeAfter (d : Z)                  (* <-time.After(backoff) *)
| CallOnError (err : string)         (* r.safeCallOnError(err) *)
| CallOnReconnect                    (* r.safeCallOnReconnect() *)
| GoReconnectLoop (p : SubscriptionParams) (fn : nat).
                                     (* go r.reconnectLoop(params, requestFn) *)

(** [ConnectionRegistry]: [conn] is nil or points to a meta of [heap], the
    metas allocated so far; [done] is the state of the context of the
    registry. *)
Record ConnectionRegistry : Type := mkRegistry {
  conn : option nat;
  heap : list ConnectionMeta;
  done : bool;
  reconnectConfig : ReconnectConfig;
  requestFn : option nat;
  trace : list Effect
}.

Definition NewConnectionRegistry : ConnectionRegistry :=
{| conn := None; heap := []; done := false;
   reconnectConfig := DefaultReconnectConfig;
   requestFn := None; trace := [] |}.

Definition emit (es : list Effect) (r : ConnectionRegistry)
  : ConnectionRegistry :=
{| conn := conn r; heap := heap r; done := done r;
   reconnectConfig := reconnectConfig r; requestFn := requestFn r;
   trace := trace r ++ es |}.

Definition setRequestFn (fn : nat) (r : ConnectionRegistry)
  : ConnectionRegistry :=
{| conn := conn r; heap := heap r; done := done r;
   reconnectConfig := reconnectConfig r; requestFn := Some fn;
   trace := trace r |}.

Definition currentMeta (r : ConnectionRegistry) : option ConnectionMeta :=
match conn r with
| Some c => heap r !! c
| None => None
end.

(** [<-meta.ctx.Done()] is ready: the context of a connection is a child of
    the context of the registry. *)
Definition ctxIsDone (r : ConnectionRegistry) (m : ConnectionMeta) : bool :=
cancelled m || done r.

Definition closeMeta (m : ConnectionMeta) : ConnectionMeta :=
{| params := params m; cancelled := true; bodyClosed := true;
   lastPingAt := lastPingAt m; readerRunning := readerRunning m |}.

(** [closeConnectionLocked] *)
Definition closeConnectionLocked (r : ConnectionRegistry)
  : ConnectionRegistry :=
match conn r with
| Some c =>
    {| conn := None; heap := alter closeMeta c (heap r); done := done r;
       reconnectConfig := reconnectConfig r; requestFn := requestFn r;
       trace := trace r ++ [BodyClose c; Cancel c] |}
| None => r
end.

(** The outcome of a call of the request function. *)
Inductive RequestResult : Type :=
| Response
| RequestError (err : string).

(** [fmt.Errorf("failed to establish SSE connection: %w", err)] *)
Definition establishError (err : string) : string :=
"failed to establish SSE connection: " +:+ err.

(** [createConnectionLocked]; [res] is what [requestFn()] returns if it is
    called, [now] the time of [meta.UpdateLastPing()].  The second component
    is the error returned, [None] for nil. *)
Definition createConnectionLocked (r : ConnectionRegistry)
    (p : SubscriptionParams) (fn : nat) (res : RequestResult) (now : Z)
  : ConnectionRegistry * option string :=
if done r then (r, Some "registry is closed")
else
  match res with
  | RequestError err =>
      (emit [Request fn] r, Some (establishError err))
  | Response =>
      let c := List.length (heap r) in
      let meta := {| params := p; cancelled := false; bodyClosed := false;
                     lastPingAt := now; readerRunning := true |} in
      ({| conn := Some c; heap := heap r ++ [meta]; done := done r;
          reconnectConfig := reconnectConfig r; requestFn := requestFn r;
          trace := trace r ++ [Request fn; GoProcessStream c] |}, None)
  end.

(** [SubscribeWithParams] *)
Definition SubscribeWithParams (r : ConnectionRegistry)
    (p : SubscriptionParams) (fn : nat) (res : RequestResult) (now : Z)
  : ConnectionRegistry * option string :=
match conn r with
| Some c =>
    let alive :=
      match heap r !! c with
      | Some m => Equals (params m) p && negb (ctxIsDone r m)
      | None => false
      end in
    if alive then (r, None)
    else
      createConnectionLocked (setRequestFn fn (closeConnectionLocked r))
        p fn res now
| None =>
    createConnectionLocked (setRequestFn fn r) p fn res now
end.

(** [r.cancel()]: the context of the registry is done from then on. *)
Definition cancelContext (r : ConnectionRegistry) : ConnectionRegistry :=
{| conn := conn r; heap := heap r; done := true;
   reconnectConfig := reconnectConfig r; requestFn := requestFn r;
   trace := trace r |}.

(** [Close], up to the wait for the goroutines, when no other goroutine
    runs between its critical section and its call of [r.cancel()], which
    is made after the mutex is released. *)
Definition Close (r : ConnectionRegistry) : ConnectionRegistry :=
cancelContext (closeConnectionLocked r).

(** A [reconnectLoop] goroutine between two iterations: [remaining]
    iterations of [for attempt := range MaxRetries] are left. *)
Record LoopState : Type := mkLoop {
  loopParams : SubscriptionParams;
  loopFn : nat;
  remaining : nat;
  attempt : Z;
  backoff : Z
}.

Definition startLoop (r : ConnectionRegistry) (p : SubscriptionParams)
    (fn : nat) : LoopState :=
{| loopParams := p; loopFn := fn;
   remaining := Z.to_nat (MaxRetries (reconnectConfig r));
   attempt := 0;
   backoff := InitialBackoff (reconnectConfig r) |}.

(** [triggerReconnect]: the registry and the goroutine it starts, if
    any. *)
Definition triggerReconnect (r : ConnectionRegistry)
  : ConnectionRegistry * option LoopState :=
if done r then (r, None)
else
  let p := match currentMeta r with
           | Some m => params m
           | None => {| ProjectID := ""; EnvSlug := ""; SecretsPath := "" |}
           end in
  match requestFn r with
  | None => (r, None)
  | Some fn => (emit [GoReconnectLoop p fn] r, Some (startLoop r p fn))
  end.

(** [checkConnectionHealth] at time [now], when no other goroutine takes
    the lock between its two critical sections. *)
Definition checkConnectionHealth (r : ConnectionRegistry) (timeout now : Z)
  : ConnectionRegistry * option LoopState :=
if done r then (r, None)
else
  match currentMeta r with
  | None => (r, None)
  | Some m =>
      if timeout <? now - lastPingAt m then
        let r' := closeConnectionLocked r in
        match requestFn r with
        | Some fn =>
            (emit [GoReconnectLoop (params m) fn] r',
             Some (startLoop r (params m) fn))
        | None => (r', None)
        end
      else (r, None)
  end.

(** [time.Duration(float64(backoff) * BackoffFactor)]: the conversion to an
    integer truncates.  The product is exact here; in [float64] it is exact
    as long as it stays below [2^53] and the factor is a small dyadic
    number, as with the default configuration. *)
Definition scaleBackoff (cfg : ReconnectConfig) (b : Z) : Z :=
Z.quot (b * factorNum cfg) (factorDen cfg).

(** The decimal notation that [%d] prints. *)
Definition itoa (z : Z) : string := NilZero.string_of_int (Z.to_int z).

(** One iteration of the loop of [reconnectLoop], from the wait to the new
    backoff; [None] is a [return]. *)
Definition reconnectIteration (r : ConnectionRegistry) (st : LoopState)
    (res : RequestResult) (now : Z)
  : ConnectionRegistry * option LoopState :=
if done r then (r, None)
else
  let r := emit [TimeAfter (backoff st)] r in
  match createConnectionLocked r (loopParams st) (loopFn st) res now with
  | (r, None) => (r, None)
  | (r, Some err) =>
      if isPermanentError err then
        (emit [CallOnError ("permanent error, stopping reconnection: "
                            +:+ err)] r, None)
      else
        (emit [CallOnError ("reconnect attempt " +:+ itoa (attempt st + 1)
                            +:+ " failed: " +:+ err)] r,
         Some {| loopParams := loopParams st; loopFn := loopFn st;
                 remaining := Nat.pred (remaining st);
                 attempt := attempt st + 1;
                 backoff := Z.min (scaleBackoff (reconnectConfig r)
                                     (backoff st))
                              (MaxBackoff (reconnectConfig r)) |})
  end.

(** The next step of a [reconnectLoop] goroutine: an iteration, or the call
    of [onReconnect] when the range is exhausted. *)
Definition reconnectStep (r : ConnectionRegistry) (st : LoopState)
    (res : RequestResult) (now : Z)
  : ConnectionRegistry * option LoopState :=
match remaining st with
| O => (emit [CallOnReconnect] r, None)
| S _ => reconnectIteration r st res now
end.

(** [reconnectLoop] run to its end with no other goroutine in between;
    [results k] and [clock k] are the outcome of the request and the time at
    iteration [k]. *)
Fixpoint reconnectIterations (n : nat) (results : nat -> RequestResult)
    (clock : nat -> Z) (r : ConnectionRegistry) (st : LoopState)
  : ConnectionRegistry :=
match n with
| O => emit [CallOnReconnect] r
| S n' =>
    match reconnectIteration r st (results (Z.to_nat (attempt st)))
            (clock (Z.to_nat (attempt st))) with
    | (r', None) => r'
    | (r', Some st') => reconnectIterations n' results clock r' st'
    end
end.

Definition reconnectLoop (r : ConnectionRegistry) (p : SubscriptionParams)
    (fn : nat) (results : nat -> RequestResult) (clock : nat -> Z)
  : ConnectionRegistry :=
reconnectIterations (Z.to_nat (MaxRetries (reconnectConfig r)))
  results clock r (startLoop r p fn).

(** The outcomes of an attempt, as [reconnectLoop] tells them apart. *)
Definition isTransientFailure (res : RequestResult) : bool :=
match res with
| RequestError err => negb (isPermanentError (establishError err))
| Response => false
end.

Definition isPermanentFailure (res : RequestResult) : bool :=
match res with
| RequestError err => isPermanentError (establishError err)
| Response => false
end.

Definition errorOf (res : RequestResult) : string :=
match res with
| RequestError err => establishError err
| Response => EmptyString
end.

(** The backoff before iteration [k], counted from 0. *)
Fixpoint backoffAt (cfg : ReconnectConfig) (k : nat) : Z :=
match k with
| O => InitialBackoff cfg
| S k' => Z.min (scaleBackoff cfg (backoffAt cfg k')) (MaxBackoff cfg)
end.

(** What a failed attempt that is retried leaves in the trace, and what the
    first [k] of them leave. *)
Definition failedAttempt (cfg : ReconnectConfig) (fn : nat)
    (results : nat -> RequestResult) (k : nat) : list Effect :=
[TimeAfter (backoffAt cfg k); Request fn;
 CallOnError ("reconnect attempt " +:+ itoa (Z.of_nat k + 1) +:+ " failed: "
              +:+ errorOf (results k))].

Fixpoint failedAttempts (cfg : ReconnectConfig) (fn : nat)
    (results : nat -> RequestResult) (k : nat) : list Effect :=
match k with
| O => []
| S k' => failedAttempts cfg fn results k' ++ failedAttempt cfg fn results k'
end.

(** The number of calls of the request function, and of [onReconnect], in a
    trace. *)
Fixpoint countRequests (es : list Effect) : nat :=
match es with
| [] => O
| Request _ :: rest => S (countRequests rest)
| _ :: rest => countRequests rest
end.

Fixpoint countOnReconnect (es : list Effect) : nat :=
match es with
| [] => O
| CallOnReconnect :: rest => S (countOnReconnect rest)
| _ :: rest => countOnReconnect rest
end.

(** The loop after [k] failed attempts out of [n]. *)
Definition loopStateAt (cfg : ReconnectConfig) (p : SubscriptionParams)
    (fn : nat) (n k : nat) : LoopState :=
{| loopParams := p; loopFn := fn; remaining := n - k;
   attempt := Z.of_nat k; backoff := backoffAt cfg k |}.

(** *** The goroutines of a registry, interleaved

    The registry and the [reconnectLoop] goroutines that have not returned.
    Every action is one critical section of the mutex, or one step of a
    goroutine between two of them.  [Close] is two actions: its critical
    section, and its call of [r.cancel()], which holds no lock, so that
    actions of other goroutines come between the two. *)
Record System : Type := mkSystem {
  registry : ConnectionRegistry;
  loops : list LoopState
}.

Inductive Action : Type :=
| DoSubscribe (p : SubscriptionParams) (fn : nat) (res : RequestResult)
    (now : Z)                                   (* SubscribeWithParams *)
| DoReaderError (c : nat) (err : string)        (* scanner.Err() of reader c *)
| DoReaderExit (c : nat)                        (* reader c returns at the end of its body *)
| DoReaderPing (c : nat) (now : Z)              (* reader c receives a ping *)
| DoHealthCheck (now : Z)                       (* tick of monitorHealth *)
| DoReconnect (i : nat) (res : RequestResult) (now : Z)
                                                (* next step of loop i *)
| DoClose                                       (* the critical section of Close *)
| DoCancel.                                     (* r.cancel() of Close *)

Definition PingTimeout : Z := 2 * Minute.

Definition spawn (l : option LoopState) (ls : list LoopState)
  : list LoopState :=
match l with
| Some st => ls ++ [st]
| None => ls
end.

Definition stopReader (m : ConnectionMeta) : ConnectionMeta :=
{| params := params m; cancelled := cancelled m; bodyClosed := bodyClosed m;
   lastPingAt := lastPingAt m; readerRunning := false |}.

Definition updateLastPing (now : Z) (m : ConnectionMeta) : ConnectionMeta :=
{| params := params m; cancelled := cancelled m; bodyClosed := bodyClosed m;
   lastPingAt := now; readerRunning := readerRunning m |}.

Definition setHeap (h : list ConnectionMeta) (r : ConnectionRegistry)
  : ConnectionRegistry :=
{| conn := conn r; heap := h; done := done r;
   reconnectConfig := reconnectConfig r; requestFn := requestFn r;
   trace := trace r |}.

(** The callbacks of the end of [processStream], carried out on the
    registry. *)
Fixpoint perform (calls : list Callback) (s : System) : System :=
match calls with
| [] => s
| SafeCallOnError err :: rest =>
    perform rest {| registry := emit [CallOnError err] (registry s);
                    loops := loops s |}
| TriggerReconnect :: rest =>
    let '(r, l) := triggerReconnect (registry s) in
    perform rest {| registry := r; loops := spawn l (loops s) |}
| _ :: rest => perform rest s
end.

Definition step (s : System) (a : Action) : System :=
let r := registry s in
match a with
| DoSubscribe p fn res now =>
    {| registry := fst (SubscribeWithParams r p fn res now);
       loops := loops s |}
| DoReaderError c err =>
    match heap r !! c with
    | Some m =>
        if readerRunning m then
          perform (scannerError (ctxIsDone r m) err)
            {| registry := setHeap (alter stopReader c (heap r)) r;
               loops := loops s |}
        else s
    | None => s
    end
| DoReaderExit c =>
    {| registry := setHeap (alter stopReader c (heap r)) r;
       loops := loops s |}
| DoReaderPing c now =>
    match heap r !! c with
    | Some m =>
        if readerRunning m && negb (bodyClosed m) then
          {| registry := setHeap (alter (updateLastPing now) c (heap r)) r;
             loops := loops s |}
        else s
    | None => s
    end
| DoHealthCheck now =>
    let '(r', l) := checkConnectionHealth r PingTimeout now in
    {| registry := r'; loops := spawn l (loops s) |}
| DoReconnect i res now =>
    match loops s !! i with
    | Some st =>
        match reconnectStep r st res now with
        | (r', Some st') =>
            {| registry := r'; loops := <[i := st']> (loops s) |}
        | (r', None) =>
            {| registry := r'; loops := delete i (loops s) |}
        end
    | None => s
    end
| DoClose => {| registry := closeConnectionLocked r; loops := loops s |}
| DoCancel => {| registry := cancelContext r; loops := loops s |}
end.

Definition run (s : System) (actions : list Action) : System :=
fold_left step actions s.

Definition initial : System :=
{| registry := NewConnectionRegistry; loops := [] |}.

(** A meta is open when its body is not closed and its context not
    cancelled; it is streaming when, moreover, its reader runs. *)
Definition isOpen (r : ConnectionRegistry) (m : ConnectionMeta) : bool :=
negb (bodyClosed m) && negb (ctxIsDone r m).

Definition isStreaming (r : ConnectionRegistry) (m : ConnectionMeta) : bool :=
isOpen r m && readerRunning m.

(** An action by which a [reconnectLoop] goroutine obtains a response. *)
Definition isReconnectSuccess (a : Action) : bool :=
match a with
| DoReconnect _ Response _ => true
| _ => false
end.

(** Every meta the registry does not point to has its body closed. *)
Definition closedExceptCurrent (r : ConnectionRegistry) : Prop :=
forall c m, heap r !! c = Some m -> conn r <> Some c -> bodyClosed m = true.

Definition openCount (r : ConnectionRegistry) : nat :=
List.length (List.filter (isOpen r) (heap r)).

Definition streamingCount (r : ConnectionRegistry) : nat :=
List.length (List.filter (isStreaming r) (heap r)).

(** *** Introspection *)

(** [Get]: the pointer [r.conn]; it is not nil when it is [Some]. *)
Definition Get (r : ConnectionRegistry) : option nat := conn r.

(** [IsConnected] *)
Definition IsConnected (r : ConnectionRegistry) : bool :=
match conn r with
| None => false
| Some c =>
    match heap r !! c with
    | Some m => negb (ctxIsDone r m)
    | None => false
    end
end.

(** [SubscriptionParams{}] *)
Definition zeroParams : SubscriptionParams :=
{| ProjectID := ""; EnvSlug := ""; SecretsPath := "" |}.

(** [GetParams] *)
Definition GetParams (r : ConnectionRegistry) : SubscriptionParams * bool :=
match currentMeta r with
| Some m => (params m, true)
| None => (zeroParams, false)
end.

(** A line that is not empty and that [parseLine] leaves without effect:
    it has no colon, or its field is none of [data], [event] and [id] (a
    comment, [retry], an unknown field). *)
Definition isIgnoredLine (line : string) : bool :=
negb (len line =? 0)
&& (let colonIndex := IndexByte line ":" in
    (colonIndex =? -1)
    || (let field := take (Z.to_nat colonIndex) line in
        negb (String.eqb field "data" || String.eqb field "event"
              || String.eqb field "id"))).

(** The effects that a trace gained over an earlier one. *)
Definition isWaitWithin (cfg : ReconnectConfig) (e : Effect) : bool :=
match e with
| TimeAfter d => (d =? InitialBackoff cfg) || (d <=? MaxBackoff cfg)
| _ => true
end.

Definition isCallOnReconnect (e : Effect) : bool :=
match e with
| CallOnReconnect => true
| _ => false
end.

(** What the calls that begin when the context of the registry is done
    leave unchanged between [s] and [s']: the context stays done, no meta is
    allocated, no request function is called and no goroutine is added. *)
Definition quiet (s s' : System) : Prop :=
done (registry s') = true
/\ List.length (heap (registry s')) = List.length (heap (registry s))
/\ countRequests (trace (registry s')) = countRequests (trace (registry s))
/\ (List.length (loops s') <= List.length (loops s))%nat.

End tables.

End Sse.

(** ** Package [infisicalsecret] *)

Module Infisicalsecret.
Import GoStrings.

Definition SYSTEM_PREFIXES : list string :=
["kubectl.kubernetes.io/"; "kubernetes.io/"; "k8s.io/"; "helm.sh/"].

(** Modelled from the spec: the package [constants] is not part of the
    sources at hand; these are the names the specification gives to the
    three annotations of the engine. *)
Definition MANAGED_LABELS_ANNOTATION : string := "infisical.managed-labels".
Definition MANAGED_ANNOTATIONS_ANNOTATION : string :=
"infisical.managed-annotations".
Definition SECRET_VERSION_ANNOTATION : string := "infisical.secret-version".

(** The loop over [SYSTEM_PREFIXES] that sets [isSystem]. *)
Definition isSystem (k : string) : bool := existsb (HasPrefix k) SYSTEM_PREFIXES.

(** [m[k]] on a [map[string]string] and on a [map[string]bool]: the zero
    value when the key is absent. *)
Definition stringAt (m : gmap string string) (k : string) : string :=
default EmptyString (m !! k).

Definition boolAt (m : gmap string bool) (k : string) : bool :=
default false (m !! k).

(** [for k, v := range src { if keep(k, v) { dst[k] = val(k, v) } }] *)
Definition rangeInsert {A B : Type} (keep : string -> A -> bool)
    (val : string -> A -> B) (src : gmap string A) (dst : gmap string B)
  : gmap string B :=
map_fold (fun k v dst => if keep k v then <[k := val k v]> dst else dst)
  dst src.

(** [parseManagedKeys] *)
Definition parseManagedKeys (value : string) : gmap string bool :=
if String.eqb value "" then ∅
else
  fold_left
    (fun managedKeys key =>
       let key := TrimSpace key in
       if negb (String.eqb key "") then <[key := true]> managedKeys
       else managedKeys)
    (SplitByte value ",") ∅.

(** [sort.Strings] followed by [strings.Join(keyList, ",")]. *)
Definition joinSorted (keyList : list string) : string :=
Join (merge_sort String.le keyList) ",".

(** The keys of a map in the order in which [range] yields them. *)
Definition rangeKeys {A : Type} (m : gmap string A) : list string :=
(map_to_list m).*1.

(** [formatManagedKeys] *)
Definition formatManagedKeys (keys : gmap string bool) : string :=
if Nat.eqb (size keys) 0 then EmptyString else joinSorted (rangeKeys keys).

(** The metadata of the [InfisicalSecret] resource that the writer reads. *)
Record InfisicalSecret : Type := mkInfisicalSecret {
  Labels : gmap string string;
  Annotations : gmap string string
}.

Definition always {A : Type} (k : string) (v : A) : bool := true.
Definition itself (k : string) (v : string) : string := v.
Definition managed {A : Type} (k : string) (v : A) : bool := true.
Definition notSystem {A : Type} (k : string) (v : A) : bool :=
negb (isSystem k).

(** [syncLabelsAndAnnotations]: the new annotations and the new labels. *)
Definition syncLabelsAndAnnotations (infisicalSecret : InfisicalSecret)
    (existingAnnotations existingLabels : gmap string string)
  : gmap string string * gmap string string :=
let previouslyManagedLabels :=
  parseManagedKeys (stringAt existingAnnotations MANAGED_LABELS_ANNOTATION) in
let previouslyManagedAnnotations :=
  parseManagedKeys
    (stringAt existingAnnotations MANAGED_ANNOTATIONS_ANNOTATION) in
let currentCrdLabelKeys :=
  rangeInsert always managed (Labels infisicalSecret) ∅ in
let currentCrdAnnotationKeys :=
  rangeInsert notSystem managed (Annotations infisicalSecret) ∅ in
let newLabels :=
  rangeInsert (fun k _ => negb (boolAt previouslyManagedLabels k)) itself
    existingLabels ∅ in
let newLabels := rangeInsert always itself (Labels infisicalSecret) newLabels in
let newAnnotations :=
  rangeInsert
    (fun k _ =>
       if isSystem k || String.eqb k SECRET_VERSION_ANNOTATION
          || String.eqb k MANAGED_LABELS_ANNOTATION
          || String.eqb k MANAGED_ANNOTATIONS_ANNOTATION
       then true
       else negb (boolAt previouslyManagedAnnotations k))
    itself existingAnnotations ∅ in
let newAnnotations :=
  rangeInsert notSystem itself (Annotations infisicalSecret) newAnnotations in
let newAnnotations :=
  <[MANAGED_LABELS_ANNOTATION := formatManagedKeys currentCrdLabelKeys]>
    newAnnotations in
let newAnnotations :=
  <[MANAGED_ANNOTATIONS_ANNOTATION :=
      formatManagedKeys currentCrdAnnotationKeys]> newAnnotations in
(newAnnotations, newLabels).

(** Modelled from the spec: [model.SingleEnvironmentVariable] is declared
    outside the sources at hand; a fetched secret is a record of key, value
    and secret path. *)
Record SingleEnvironmentVariable : Type := mkSecret {
  Key : string;
  Value : string;
  SecretPath : string
}.

(** [v1alpha1.SecretTemplate] *)
Record SecretTemplate : Type := mkTemplate {
  IncludeAllSecrets : bool;
  TemplateData : gmap string string
}.

(** [v1alpha1.ManagedKubeSecretConfig] and [ManagedKubeConfigMapConfig]:
    name, namespace, creation policy and template; [RefType] is the
    [SecretType] of a secret. *)
Record ManagedReference : Type := mkReference {
  RefName : string;
  RefNamespace : string;
  RefType : string;
  CreationPolicy : string;
  Template : option SecretTemplate
}.

Inductive ManagedKubeResourceType : Type :=
| MANAGED_KUBE_RESOURCE_TYPE_SECRET
| MANAGED_KUBE_RESOURCE_TYPE_CONFIG_MAP.

(** The object handed to [r.Client.Create] or [r.Client.Update]. *)
Record ManagedObject : Type := mkObject {
  ObjKind : ManagedKubeResourceType;
  ObjName : string;
  ObjNamespace : string;
  ObjAnnotations : gmap string string;
  ObjLabels : gmap string string;
  ObjType : string;
  ObjData : gmap string string;
  ObjControllerReference : bool
}.

(** [model.SecretTemplateOptions] *)
Record SecretTemplateOptions : Type := mkOptions {
  OptValue : string;
  OptSecretPath : string
}.

Inductive TemplateFailure : Type :=
| ParseFails (err : string)
| ExecuteFails (err : string).

Section writer.

(** Parsing and executing a user template with [text/template]: the
    output, or the error of [Parse] or of [Execute]. *)
Variable executeTemplate :
  string -> gmap string SecretTemplateOptions -> TemplateFailure + string.

(** The loop over [managedTemplateData.Data]; the first template that fails
    ends it. *)
Fixpoint renderTemplates (templates : list (string * string))
    (secretKeyValue : gmap string SecretTemplateOptions)
    (plainProcessedSecrets : gmap string string)
  : string + gmap string string :=
match templates with
| [] => inr plainProcessedSecrets
| (templateKey, userTemplate) :: rest =>
    match executeTemplate userTemplate secretKeyValue with
    | inl (ParseFails err) =>
        inl ("unable to compile template: " +:+ templateKey +:+ " [err="
             +:+ err +:+ "]")
    | inl (ExecuteFails err) =>
        inl ("unable to execute template: " +:+ templateKey +:+ " [err="
             +:+ err +:+ "]")
    | inr out =>
        renderTemplates rest secretKeyValue
          (<[templateKey := out]> plainProcessedSecrets)
    end
end.

(** The computation of [plainProcessedSecrets], common to creation and
    update. *)
Definition processSecrets (managedTemplateData : option SecretTemplate)
    (secretsFromAPI : list SingleEnvironmentVariable)
  : string + gmap string string :=
let plainProcessedSecrets :=
  match managedTemplateData with
  | Some t =>
      if IncludeAllSecrets t then
        fold_left (fun m secret => <[Key secret := Value secret]> m)
          secretsFromAPI ∅
      else ∅
  | None =>
      fold_left (fun m secret => <[Key secret := Value secret]> m)
        secretsFromAPI ∅
  end in
match managedTemplateData with
| Some t =>
    let secretKeyValue :=
      fold_left
        (fun m secret =>
           <[Key secret := {| OptValue := Value secret;
                              OptSecretPath := SecretPath secret |}]> m)
        secretsFromAPI ∅ in
    renderTemplates (map_to_list (TemplateData t)) secretKeyValue
      plainProcessedSecrets
| None => inr plainProcessedSecrets
end.

(** [createInfisicalManagedKubeResource], up to the calls of
    [ctrl.SetControllerReference] and [r.Client.Create]: an error, or the
    object that is built and handed to them.  The reference has the dynamic
    type that [resourceType] names, and [resourceType] is one of the two
    constants, as at the two calls in [ReconcileInfisicalSecret].
    [ObjControllerReference] says whether [ctrl.SetControllerReference] is
    called with the object; an error of that call, which ends the function
    before [r.Client.Create], and the outcome of [r.Client.Create] are not
    part of this definition. *)
Definition createInfisicalManagedKubeResource
    (infisicalSecret : InfisicalSecret)
    (managedSecretReference : ManagedReference)
    (secretsFromAPI : list SingleEnvironmentVariable) (ETag : string)
    (resourceType : ManagedKubeResourceType) : string + ManagedObject :=
match processSecrets (Template managedSecretReference) secretsFromAPI with
| inl err => inl err
| inr plainProcessedSecrets =>
    let labels := rangeInsert always itself (Labels infisicalSecret) ∅ in
    let annotations :=
      rangeInsert notSystem itself (Annotations infisicalSecret) ∅ in
    let managedLabelKeys :=
      rangeInsert always managed (Labels infisicalSecret) ∅ in
    let managedAnnotationKeys :=
      rangeInsert notSystem managed (Annotations infisicalSecret) ∅ in
    let annotations :=
      <[MANAGED_LABELS_ANNOTATION := formatManagedKeys managedLabelKeys]>
        annotations in
    let annotations :=
      <[MANAGED_ANNOTATIONS_ANNOTATION :=
          formatManagedKeys managedAnnotationKeys]> annotations in
    match resourceType with
    | MANAGED_KUBE_RESOURCE_TYPE_SECRET =>
        let annotations := <[SECRET_VERSION_ANNOTATION := ETag]> annotations in
        inr {| ObjKind := MANAGED_KUBE_RESOURCE_TYPE_SECRET;
               ObjName := RefName managedSecretReference;
               ObjNamespace := RefNamespace managedSecretReference;
               ObjAnnotations := annotations;
               ObjLabels := labels;
               ObjType := RefType managedSecretReference;
               ObjData := plainProcessedSecrets;
               ObjControllerReference :=
                 String.eqb (CreationPolicy managedSecretReference) "Owner" |}
    | MANAGED_KUBE_RESOURCE_TYPE_CONFIG_MAP =>
        inr {| ObjKind := MANAGED_KUBE_RESOURCE_TYPE_CONFIG_MAP;
               ObjName := RefName managedSecretReference;
               ObjNamespace := RefNamespace managedSecretReference;
               ObjAnnotations := annotations;
               ObjLabels := labels;
               ObjType := EmptyString;
               ObjData := plainProcessedSecrets;
               ObjControllerReference :=
                 String.eqb (CreationPolicy managedSecretReference) "Owner" |}
    end
end.

(** [updateInfisicalManagedKubeSecret] and [updateInfisicalManagedConfigMap],
    up to the call of [r.Client.Update]: both compute the data, sync labels
    and annotations and set the version annotation on the object found. *)
Definition updateInfisicalManaged (infisicalSecret : InfisicalSecret)
    (managedSecretReference : ManagedReference) (managedKube : ManagedObject)
    (secretsFromAPI : list SingleEnvironmentVariable) (ETag : string)
  : string + ManagedObject :=
match processSecrets (Template managedSecretReference) secretsFromAPI with
| inl err => inl err
| inr plainProcessedSecrets =>
    let '(newAnnotations, newLabels) :=
      syncLabelsAndAnnotations infisicalSecret (ObjAnnotations managedKube)
        (ObjLabels managedKube) in
    inr {| ObjKind := ObjKind managedKube;
           ObjName := ObjName managedKube;
           ObjNamespace := ObjNamespace managedKube;
           ObjAnnotations := <[SECRET_VERSION_ANNOTATION := ETag]> newAnnotations;
           ObjLabels := newLabels;
           ObjType := ObjType managedKube;
           ObjData := plainProcessedSecrets;
           ObjControllerReference := ObjControllerReference managedKube |}
end.

Definition updateInfisicalManagedKubeSecret := updateInfisicalManaged.
Definition updateInfisicalManagedConfigMap := updateInfisicalManaged.

End writer.

(** The keys of a resource that the code can read back from a tracking
    annotation: no comma and no white space at either end. *)
Definition cleanKey (k : string) : bool :=
(IndexByte k "," =? -1) && String.eqb (TrimSpace k) k
&& negb (String.eqb k "").

Definition cleanKeys {A : Type} (m : gmap string A) : bool :=
forallb cleanKey (rangeKeys m).

(** The last of the fetched secrets with the key [k]: the one whose value
    a map keyed by [secret.Key] holds after the loop over the secrets. *)
Definition lastWithKey (k : string)
    (secretsFromAPI : list SingleEnvironmentVariable)
  : option SingleEnvironmentVariable :=
List.find (fun secret => String.eqb (Key secret) k) (rev secretsFromAPI).

(** The loop [for k, v := range src] of [rangeInsert] when [range] yields
    the entries in the order of [entries]. *)
Definition rangeInsertIn {A B : Type} (keep : string -> A -> bool)
    (val : string -> A -> B) (entries : list (string * A))
    (dst : gmap string B) : gmap string B :=
fold_left
  (fun dst kv => if keep kv.1 kv.2 then <[kv.1 := val kv.1 kv.2]> dst else dst)
  entries dst.

(** [formatManagedKeys] when [range] yields the keys in the order of
    [keyList]. *)
Definition formatManagedKeysIn (keys : gmap string bool)
    (keyList : list string) : string :=
if Nat.eqb (size keys) 0 then EmptyString else joinSorted keyList.

(** *** The collection of orphans *)

(** [metav1.OwnerReference], and an item of a [SecretList] or of a
    [ConfigMapList], as far as the code reads them. *)
Record OwnerReference : Type := mkOwnerReference {
  OwnerUID : string;
  OwnerKind : string
}.

Record ListedObject : Type := mkListedObject {
  ItemNamespace : string;
  ItemName : string;
  ItemOwnerReferences : list OwnerReference
}.

(** A call of [r.Delete]. *)
Inductive Deletion : Type :=
| DeleteSecret (secret : ListedObject)
| DeleteConfigMap (cm : ListedObject).

Section collector.

(** [constants.INFISICAL_SECRET_KIND]; the package [constants] is not part
    of the sources at hand. *)
Variable INFISICAL_SECRET_KIND : string.

(** [isOwnedByInfisicalSecret] *)
Definition isOwnedByInfisicalSecret (obj : ListedObject)
    (infisicalSecretUID : string) : bool :=
existsb
  (fun ownerRef =>
     String.eqb (OwnerUID ownerRef) infisicalSecretUID
     && String.eqb (OwnerKind ownerRef) INFISICAL_SECRET_KIND)
  (ItemOwnerReferences obj).

(** [secretOwnerReferences] and [configMapOwnerReferences] at the end of
    their loop in [ReconcileInfisicalSecret]. *)
Definition ownerReferences (references : list ManagedReference)
  : gmap string bool :=
fold_left
  (fun m reference =>
     if String.eqb (CreationPolicy reference) "Owner"
     then <[RefNamespace reference +:+ "/" +:+ RefName reference := true]> m
     else m)
  references ∅.

(** The items of a list that one loop of
    [deleteUnreferencedOwnedResources] deletes. *)
Definition orphaned (infisicalSecretUID : string) (items : list ListedObject)
    (references : gmap string bool) : list ListedObject :=
List.filter
  (fun item =>
     isOwnedByInfisicalSecret item infisicalSecretUID
     && negb (boolAt references
                (ItemNamespace item +:+ "/" +:+ ItemName item)))
  items.

(** [deleteUnreferencedOwnedResources]: the calls of [r.Delete], in order.
    [secretList] and [configMapList] are the items that the two calls of
    [r.List] return, [None] when the call fails; an error of [r.Delete] is
    logged and the loop goes on. *)
Definition deleteUnreferencedOwnedResources (infisicalSecretUID : string)
    (secretList configMapList : option (list ListedObject))
    (secretOwnerReferences configMapOwnerReferences : gmap string bool)
  : list Deletion :=
match secretList with
| None => []
| Some secrets =>
    List.map DeleteSecret
      (orphaned infisicalSecretUID secrets secretOwnerReferences)
    ++ match configMapList with
       | None => []
       | Some configMaps =>
           List.map DeleteConfigMap
             (orphaned infisicalSecretUID configMaps configMapOwnerReferences)
       end
end.

End collector.

End Infisicalsecret.

(** * Package [config] (src/internal/config/config.go) *)

Module Config.

(** [v1alpha1.CaReference] and [v1alpha1.TLSConfig], as far as the code
    reads them. *)
Record CaReference : Type := mkCaReference {
  SecretName : string;
  SecretNamespace : string;
  SecretKey : string
}.

Record TLSConfig : Type := mkTLSConfig {
  CaRef : CaReference
}.

(** [InfisicalGlobalConfig]; [TLS] is a pointer, [None] is nil. *)
Record InfisicalGlobalConfig : Type := mkGlobalConfig {
  HostAPI : string;
  TLS : option TLSConfig
}.

(** The two variables of the package. *)
Record Globals : Type := mkGlobals {
  API_HOST_URL : string;
  API_CA_CERTIFICATE : string
}.

Definition initialGlobals : Globals :=
{| API_HOST_URL := "https://app.infisical.com/api";
   API_CA_CERTIFICATE := "" |}.

(** [rawMap[key]]: the zero value when the key is missing. *)
Definition mapIndex (rawMap : gmap string string) (key : string) : string :=
default EmptyString (rawMap !! key).

Definition isEmpty (s : string) : bool := String.eqb s "".

(** [ParseInfisicalGlobalConfig]; the second component is the error,
    [None] for nil. *)
Definition ParseInfisicalGlobalConfig (rawMap : gmap string string)
  : InfisicalGlobalConfig * option string :=
let config :=
  {| HostAPI := match rawMap !! "hostAPI" with
                | Some hostAPI => hostAPI
                | None => EmptyString
                end;
     TLS := None |} in
let secretName := mapIndex rawMap "tls.caRef.secretName" in
let secretNamespace := mapIndex rawMap "tls.caRef.secretNamespace" in
let secretKey := mapIndex rawMap "tls.caRef.key" in
if negb (isEmpty secretName) || negb (isEmpty secretNamespace)
   || negb (isEmpty secretKey) then
  if isEmpty secretName || isEmpty secretNamespace || isEmpty secretKey then
    (config,
     Some "when tls.caRef is configured in the infisical-config, all fields must be set (secretName, secretNamespace, key)")
  else
    ({| HostAPI := HostAPI config;
        TLS := Some {| CaRef := {| SecretName := secretName;
                                   SecretNamespace := secretNamespace;
                                   SecretKey := secretKey |} |} |}, None)
else (config, None).

(** The keys of the config map that [ParseInfisicalGlobalConfig] reads. *)
Definition configKeys : list string :=
["hostAPI"; "tls.caRef.secretName"; "tls.caRef.secretNamespace";
 "tls.caRef.key"].

End Config.

(** * Package [infisicalpushsecret] (src/unnamed/part_003) *)

Module Infisicalpushsecret.

Import Util Config.

(** The fields of [infisicalPushSecret.Spec] that the handler reads. *)
Record InfisicalPushSecretSpec : Type := mkPushSecretSpec {
  Spec_HostAPI : string;
  Spec_TLS : TLSConfig
}.

(** A run-time panic of the handler. *)
Inductive Panic : Type :=
| NilPointerDereference
| IndexOutOfRange (i : Z) (length : Z).

Inductive Run (A : Type) : Type :=
| Ok (a : A)
| Panics (p : Panic).
Arguments Ok {A} a.
Arguments Panics {A} p.

(** [SetupAPIConfig]: the variables of package [config] after the call and
    the error returned; [infisicalGlobalConfig] is a pointer. *)
Definition SetupAPIConfig (g : Globals) (spec : InfisicalPushSecretSpec)
    (infisicalGlobalConfig : option InfisicalGlobalConfig)
  : Run (Globals * option string) :=
if isEmpty (Spec_HostAPI spec) then
  match infisicalGlobalConfig with
  | None => Panics NilPointerDereference
  | Some c =>
      Ok ({| API_HOST_URL := HostAPI c;
             API_CA_CERTIFICATE := API_CA_CERTIFICATE g |}, None)
  end
else
  match AppendAPIEndpoint (Spec_HostAPI spec) with
  | Returns url =>
      Ok ({| API_HOST_URL := url;
             API_CA_CERTIFICATE := API_CA_CERTIFICATE g |}, None)
  | PanicIndexOutOfRange i length => Panics (IndexOutOfRange i length)
  end.

(** An error of the cluster client: what [k8Errors.IsNotFound] answers on
    it and its text. *)
Record KubeError : Type := mkKubeError {
  IsNotFound : bool;
  Error : string
}.

(** What [util.GetKubeSecretByNamespacedName] returns: the [Data] of the
    secret, or an error. *)
Inductive Lookup : Type :=
| Found (Data : gmap string string)
| Failed (err : KubeError).

(** [util.IsNamespaceScopedError] on an error that is not nil. *)
Definition IsNamespaceScopedError (err : KubeError) (isNamespaceScoped : bool)
  : bool :=
isNamespaceScoped
&& GoStrings.Contains (Error err) "unknown namespace for the cache".

(** [getInfisicalCaCertificateFromKubeSecret]; [cluster namespace name] is
    the answer of the cluster. *)
Definition getInfisicalCaCertificateFromKubeSecret (IsNamespaceScoped : bool)
    (cluster : string -> string -> Lookup) (tlsConfig : TLSConfig)
  : string * option string :=
match cluster (SecretNamespace (CaRef tlsConfig))
        (SecretName (CaRef tlsConfig)) with
| Failed err =>
    if IsNotFound err then
      (EmptyString,
       Some ("kubernetes secret containing custom CA certificate cannot be found. [err="
             +:+ Error err +:+ "]"))
    else if IsNamespaceScopedError err IsNamespaceScoped then
      (EmptyString,
       Some ("unable to fetch Kubernetes CA certificate secret. Your Operator installation is namespace scoped, and cannot read secrets outside of the namespace it is installed in. Please ensure the CA certificate secret is in the same namespace as the operator. [err="
             +:+ Error err +:+ "]"))
    else
      (EmptyString,
       Some ("something went wrong when fetching your CA certificate [err="
             +:+ Error err +:+ "]"))
| Found Data => (mapIndex Data (SecretKey (CaRef tlsConfig)), None)
end.

(** [HandleCACertificate] *)
Definition HandleCACertificate (IsNamespaceScoped : bool)
    (cluster : string -> string -> Lookup) (g : Globals)
    (spec : InfisicalPushSecretSpec)
    (infisicalGlobalConfig : option InfisicalGlobalConfig)
  : Run (Globals * option string) :=
let store caCert :=
  {| API_HOST_URL := API_HOST_URL g; API_CA_CERTIFICATE := caCert |} in
match infisicalGlobalConfig with
| None => Panics NilPointerDereference
| Some c =>
    match TLS c with
    | Some tls =>
        match getInfisicalCaCertificateFromKubeSecret IsNamespaceScoped
                cluster tls with
        | (_, Some err) => Ok (g, Some err)
        | (caCert, None) => Ok (store caCert, None)
        end
    | None =>
        if negb (isEmpty (SecretName (CaRef (Spec_TLS spec)))) then
          match getInfisicalCaCertificateFromKubeSecret IsNamespaceScoped
                  cluster (Spec_TLS spec) with
          | (_, Some err) => Ok (g, Some err)
          | (caCert, None) => Ok (store caCert, None)
          end
        else Ok (store EmptyString, None)
    end
end.

End Infisicalpushsecret.

(** * Properties *)

Import GoStrings GoTime.

(** ** Strings *)

Section string_facts.

Lemma str_app_cons (c : ascii) (s t : string) :
  String c s +:+ t = String c (s +:+ t).
Proof. reflexivity. Qed.

Lemma str_app_nil_l (t : string) : "" +:+ t = t.
Proof. reflexivity. Qed.

Lemma str_app_nil_r (s : string) : s +:+ "" = s.
Proof.
  induction s as [|c s IH]; [reflexivity|]. now rewrite str_app_cons, IH.
Qed.

Lemma str_app_assoc (s t u : string) : (s +:+ t) +:+ u = s +:+ t +:+ u.
Proof.
  induction s as [|c s IH]; [reflexivity|].
  now rewrite !str_app_cons, IH.
Qed.

Lemma str_length_app (s t : string) :
  String.length (s +:+ t) = (String.length s + String.length t)%nat.
Proof.
  induction s as [|c s IH]; [reflexivity|].
  rewrite str_app_cons. simpl. now rewrite IH.
Qed.

Lemma str_take_drop (n : nat) (s : string) : take n s +:+ drop n s = s.
Proof.
  revert s; induction n as [|n IH]; intros [|c s]; simpl; try reflexivity.
  now rewrite str_app_cons, IH.
Qed.

Lemma str_drop_app_length (s t : string) :
  drop (String.length s) (s +:+ t) = t.
Proof. induction s as [|c s IH]; [reflexivity|]. exact IH. Qed.

Lemma str_take_app_length (s t : string) :
  take (String.length s) (s +:+ t) = s.
Proof.
  induction s as [|c s IH]; [reflexivity|].
  rewrite str_app_cons. simpl. now rewrite IH.
Qed.

Lemma str_length_take (n : nat) (s : string) :
  (n <= String.length s)%nat -> String.length (take n s) = n.
Proof.
  revert s; induction n as [|n IH]; intros [|c s]; simpl; intros H;
    try reflexivity; try lia.
  rewrite IH; lia.
Qed.

Lemma str_length_drop (n : nat) (s : string) :
  String.length (drop n s) = (String.length s - n)%nat.
Proof.
  revert s; induction n as [|n IH]; intros [|c s]; simpl; try lia.
  apply IH.
Qed.

Lemma HasSuffix_spec (s suffix : string) :
  HasSuffix s suffix = true <-> exists p, s = p +:+ suffix.
Proof.
  unfold HasSuffix, len. rewrite andb_true_iff, Z.leb_le, String.eqb_eq.
  split.
  - intros [_ Hd].
    remember (String.length s - String.length suffix)%nat as k eqn:Hk.
    exists (take k s). clear Hk. subst suffix. symmetry. apply str_take_drop.
  - intros [p ->]. rewrite str_length_app. split; [lia|].
    replace (String.length p + String.length suffix - String.length suffix)%nat
      with (String.length p) by lia.
    apply str_drop_app_length.
Qed.

Lemma HasPrefix_spec (s prefix : string) :
  HasPrefix s prefix = true <-> exists t, s = prefix +:+ t.
Proof.
  unfold HasPrefix, len. rewrite andb_true_iff, Z.leb_le, String.eqb_eq.
  split.
  - intros [_ Hd].
    remember (String.length prefix) as k eqn:Hk.
    exists (drop k s). clear Hk. subst prefix. symmetry. apply str_take_drop.
  - intros [t ->]. rewrite str_length_app. split; [lia|].
    apply str_take_app_length.
Qed.

Lemma str_get_app_length (s : string) (c : ascii) (t : string) :
  String.get (String.length s) (s +:+ String c t) = Some c.
Proof. induction s as [|a s IH]; [reflexivity|]. exact IH. Qed.

(** The last byte of a non-empty string. *)
Lemma index_last (s : string) (c : ascii) :
  index (s +:+ String c "") (len (s +:+ String c "") - 1) = Some c.
Proof.
  unfold index, len. rewrite str_length_app. simpl String.length.
  replace (Z.of_nat (String.length s + 1) - 1)
    with (Z.of_nat (String.length s)) by lia.
  rewrite Nat2Z.id, str_get_app_length.
  destruct (Z.leb_spec 0 (Z.of_nat (String.length s))); [|lia].
  destruct (Z.ltb_spec (Z.of_nat (String.length s))
              (Z.of_nat (String.length s + 1))); [|lia].
  reflexivity.
Qed.

Lemma str_snoc (s : string) :
  s <> "" -> exists p c, s = p +:+ String c "".
Proof.
  induction s as [|a s IH]; [congruence|]. intros _.
  destruct s as [|b s].
  - exists "", a. reflexivity.
  - destruct IH as (p & c & Hp); [congruence|].
    exists (String a p), c. now rewrite str_app_cons, <- Hp.
Qed.

Lemma str_snoc_inj (p q : string) (c d : ascii) :
  p +:+ String c "" = q +:+ String d "" -> p = q /\ c = d.
Proof.
  revert q; induction p as [|a p IH]; intros [|b q] H.
  - now inversion H.
  - rewrite str_app_nil_l, str_app_cons in H. inversion H as [[Ha Hq]].
    destruct q; discriminate.
  - rewrite str_app_nil_l, str_app_cons in H. inversion H as [[Ha Hq]].
    destruct p; discriminate.
  - rewrite !str_app_cons in H. inversion H as [[Ha Hq]].
    destruct (IH _ Hq) as [-> ->]. auto.
Qed.

Lemma IndexByte_ge (s : string) (c : ascii) : -1 <= IndexByte s c.
Proof.
  induction s as [|a s IH]; simpl; [lia|].
  destruct (Ascii.eqb a c); [lia|].
  destruct (Z.ltb_spec (IndexByte s c) 0); lia.
Qed.

Lemma IndexByte_none_cons (a c : ascii) (s : string) :
  IndexByte (String a s) c = -1 <-> a <> c /\ IndexByte s c = -1.
Proof.
  simpl. pose proof (IndexByte_ge s c).
  destruct (Ascii.eqb_spec a c) as [->|Hne].
  - split; [lia | intros [[] _]; reflexivity].
  - destruct (Z.ltb_spec (IndexByte s c) 0); split; intros; try split;
      try assumption; lia.
Qed.

Lemma SplitByte_nonempty (s : string) (sep : ascii) : SplitByte s sep <> [].
Proof.
  induction s as [|a s IH]; simpl; [discriminate|].
  destruct (Ascii.eqb a sep); [discriminate|].
  destruct (SplitByte s sep); [contradiction | discriminate].
Qed.

(** A piece without separator, followed by a separator. *)
Lemma SplitByte_piece (e rest : string) (sep : ascii) :
  IndexByte e sep = -1 ->
  SplitByte (e +:+ String sep rest) sep = e :: SplitByte rest sep.
Proof.
  induction e as [|a e IH]; intros He.
  - rewrite str_app_nil_l. simpl. now rewrite Ascii.eqb_refl.
  - apply IndexByte_none_cons in He as [Hne He].
    rewrite str_app_cons. simpl.
    destruct (Ascii.eqb_spec a sep) as [|_]; [contradiction|].
    now rewrite (IH He).
Qed.

Lemma SplitByte_last (e : string) (sep : ascii) :
  IndexByte e sep = -1 -> SplitByte e sep = [e].
Proof.
  induction e as [|a e IH]; intros He; [reflexivity|].
  apply IndexByte_none_cons in He as [Hne He]. simpl.
  destruct (Ascii.eqb_spec a sep) as [|_]; [contradiction|].
  now rewrite (IH He).
Qed.

(** Splitting at the commas undoes joining with commas. *)
Lemma SplitByte_Join (ks : list string) :
  ks <> [] ->
  Forall (fun k => IndexByte k "," = -1) ks ->
  SplitByte (Join ks ",") "," = ks.
Proof.
  induction ks as [|e ks IH]; intros Hne Hall; [congruence|].
  inversion Hall as [|? ? He Hks]; subst.
  destruct ks as [|e' ks].
  - simpl. now apply SplitByte_last.
  - change (Join (e :: e' :: ks) ",") with (e +:+ "," +:+ Join (e' :: ks) ",").
    change ("," +:+ Join (e' :: ks) ",") with (String "," (Join (e' :: ks) ",")).
    rewrite SplitByte_piece by exact He.
    f_equal. apply IH; [discriminate | exact Hks].
Qed.

End string_facts.

(** ** Package [util] *)

Import Util.

(** C10 -- [AppendAPIEndpoint] on the empty string evaluates
    [address[len(address)-1]] at index [-1] of a string of length [0] and
    panics.  On every non-empty string it returns: the address itself when
    it ends in ["/api"], the address followed by ["api"] when its last byte
    is a slash, and the address followed by ["/api"] otherwise. *)
Theorem AppendAPIEndpoint_total_on_nonempty :
  AppendAPIEndpoint "" = PanicIndexOutOfRange (-1) 0
  /\ (forall address : string,
        address <> "" ->
        exists p c,
          address = p +:+ String c ""
          /\ AppendAPIEndpoint address
             = Returns (if HasSuffix address "/api" then address
                        else if Ascii.eqb c "/" then address +:+ "api"
                             else address +:+ "/api"))
  /\ (forall p : string, AppendAPIEndpoint (p +:+ "/api") = Returns (p +:+ "/api")).
Proof.
  split; [reflexivity|]. split.
  - intros address Hne. destruct (str_snoc address Hne) as (p & c & ->).
    exists p, c. split; [reflexivity|].
    unfold AppendAPIEndpoint. rewrite index_last.
    destruct (HasSuffix (p +:+ String c "") "/api"); [reflexivity|].
    destruct (Ascii.eqb c "/"); reflexivity.
  - intros p. unfold AppendAPIEndpoint.
    replace (HasSuffix (p +:+ "/api") "/api") with true; [reflexivity|].
    symmetry. apply HasSuffix_spec. now exists p.
Qed.

Lemma AppendAPIEndpoint_total_on_nonempty_witness :
  AppendAPIEndpoint "" = PanicIndexOutOfRange (-1) 0
  /\ AppendAPIEndpoint "https://app.infisical.com/"
     = Returns "https://app.infisical.com/api"
  /\ AppendAPIEndpoint "https://app.infisical.com"
     = Returns "https://app.infisical.com/api"
  /\ AppendAPIEndpoint "https://app.infisical.com/api"
     = Returns "https://app.infisical.com/api".
Proof.
  destruct AppendAPIEndpoint_total_on_nonempty as (H0 & H1 & H2).
  split; [exact H0|]. split; [|split].
  - destruct (H1 "https://app.infisical.com/") as (p & c & Hp & ->);
      [discriminate|].
    destruct (str_snoc_inj p "https://app.infisical.com" c "/" (eq_sym Hp))
      as [_ ->].
    reflexivity.
  - destruct (H1 "https://app.infisical.com") as (p & c & Hp & ->);
      [discriminate|].
    destruct (str_snoc_inj p "https://app.infisical.co" c "m" (eq_sym Hp))
      as [_ ->].
    reflexivity.
  - exact (H2 "https://app.infisical.com").
Defined.

(** *** [strconv.Atoi] reads decimal integers *)

Section atoi_facts.

Lemma digitOf_isDigit (c : ascii) :
  digitOf c = if isDigit c then Some (Z.of_N (N_of_ascii c) - 48) else None.
Proof.
  unfold digitOf, isDigit.
  destruct (Z.leb_spec 48 (Z.of_N (N_of_ascii c)));
    destruct (Z.leb_spec (Z.of_N (N_of_ascii c)) 57);
    destruct (N.leb_spec 48 (N_of_ascii c));
    destruct (N.leb_spec (N_of_ascii c) 57); simpl; try reflexivity; lia.
Qed.

Lemma isDigit_range (c : ascii) :
  isDigit c = true -> 0 <= Z.of_N (N_of_ascii c) - 48 <= 9.
Proof.
  unfold isDigit. rewrite andb_true_iff, !N.leb_le. lia.
Qed.

Lemma digitsValue_ge (s : string) (n : Z) :
  0 <= n -> allDigits s = true -> n <= digitsValue s n.
Proof.
  revert n; induction s as [|c s IH]; intros n Hn Hd; simpl in *; [lia|].
  apply andb_true_iff in Hd as [Hc Hs]. apply isDigit_range in Hc.
  specialize (IH (n * 10 + (Z.of_N (N_of_ascii c) - 48)) ltac:(lia) Hs).
  lia.
Qed.

Lemma parseUintLoop_spec (s : string) (n r : Z) :
  0 <= n <= maxUint64 ->
  parseUintLoop s n = inr r
  <-> allDigits s = true /\ r = digitsValue s n /\ r <= maxUint64.
Proof.
  revert n; induction s as [|c s IH]; intros n Hn; simpl.
  - split; [intros [= <-]; auto with zarith | intros (_ & -> & _); reflexivity].
  - rewrite digitOf_isDigit. destruct (isDigit c) eqn:Hc; simpl.
    2: { split; [discriminate | intros [[=] _]]. }
    pose proof (isDigit_range c Hc) as Hd.
    set (d := Z.of_N (N_of_ascii c) - 48) in *.
    change (maxUint64 / 10 + 1) with 1844674407370955162.
    unfold maxUint64 in *.
    destruct (Z.leb_spec 1844674407370955162 n) as [Hcut|Hcut].
    { split; [discriminate|]. intros (Hs & -> & Hr).
      pose proof (digitsValue_ge s (n * 10 + d) ltac:(lia) Hs). lia. }
    destruct (Z.ltb_spec 18446744073709551615 (n * 10 + d)) as [Hov|Hov].
    { split; [discriminate|]. intros (Hs & -> & Hr).
      pose proof (digitsValue_ge s (n * 10 + d) ltac:(lia) Hs). lia. }
    apply IH. lia.
Qed.

Lemma allDigits_first (c : ascii) (s : string) :
  allDigits (String c s) = true -> c <> "-"%char /\ c <> "+"%char.
Proof.
  simpl. rewrite andb_true_iff. intros [Hc _].
  split; intros ->; discriminate.
Qed.

Lemma ParseUint_spec (s : string) (r : Z) :
  ParseUint s = inr r
  <-> s <> "" /\ allDigits s = true /\ r = digitsValue s 0 /\ r <= maxUint64.
Proof.
  unfold ParseUint. destruct s as [|c s].
  - split; [discriminate | intros [[] _]; reflexivity].
  - rewrite parseUintLoop_spec by (unfold maxUint64; lia).
    split; [intros H; split; [discriminate | exact H] | intros [_ H]; exact H].
Qed.

(** [Atoi] returns [n] exactly on the decimal notations of the integers
    of the [int] range. *)
Lemma Atoi_spec (s : string) (n : Z) :
  Atoi s = inr n <-> DecimalInteger s n /\ minInt64 <= n <= maxInt64.
Proof.
  unfold Atoi. destruct s as [|c s].
  { split; [discriminate|]. intros [H _]. inversion H; congruence. }
  destruct (Ascii.eqb_spec c "-") as [->|Hminus]; cbv zeta; cbn [orb negb andb].
  - destruct (ParseUint s) as [e|un] eqn:Hp.
    + split; [discriminate|]. intros [H Hrange].
      inversion H as [ds Hne Hd Heq|ds Hne Hd|ds Hne Hd Heq]; subst.
      * apply allDigits_first in Hd. tauto.
      * assert (ParseUint s = inr (digitsValue s 0)) as Hq; [|congruence].
        apply ParseUint_spec. repeat split; auto.
        pose proof (digitsValue_ge s 0 ltac:(lia) Hd).
        unfold minInt64, maxInt64, maxUint64 in *. lia.
    + apply ParseUint_spec in Hp as (Hne & Hd & -> & Hr).
      pose proof (digitsValue_ge s 0 ltac:(lia) Hd) as Hge.
      unfold minInt64, maxInt64, maxUint64 in *.
      destruct (Z.ltb_spec (9223372036854775807 + 1) (digitsValue s 0)) as [Hcmp|Hcmp].
      * split; [discriminate|]. intros [H Hrange].
        inversion H as [ds Hne' Hd' Heq'|ds Hne' Hd' Heq'|ds Hne' Hd' Heq']; subst; [|lia].
        apply allDigits_first in Hd'. tauto.
      * split.
        -- intros [= <-]. split; [now constructor | lia].
        -- intros [H Hrange].
           inversion H as [ds Hne' Hd' Heq'|ds Hne' Hd' Heq'|ds Hne' Hd' Heq']; subst; [|reflexivity].
           apply allDigits_first in Hd'. tauto.
  - destruct (Ascii.eqb_spec c "+") as [->|Hplus]; cbn [orb negb andb].
    + destruct (ParseUint s) as [e|un] eqn:Hp.
      * split; [discriminate|]. intros [H Hrange].
        inversion H as [ds Hne Hd Heq|ds Hne Hd|ds Hne Hd Heq]; subst.
        -- apply allDigits_first in Hd. tauto.
        -- assert (ParseUint s = inr (digitsValue s 0)) as Hq; [|congruence].
           apply ParseUint_spec. repeat split; auto.
           unfold minInt64, maxInt64, maxUint64 in *. lia.
      * apply ParseUint_spec in Hp as (Hne & Hd & -> & Hr).
        pose proof (digitsValue_ge s 0 ltac:(lia) Hd) as Hge.
        unfold minInt64, maxInt64, maxUint64 in *.
        destruct (Z.leb_spec (9223372036854775807 + 1) (digitsValue s 0)) as [Hcmp|Hcmp].
        -- split; [discriminate|]. intros [H Hrange].
           inversion H as [ds Hne' Hd' Heq'|ds Hne' Hd' Heq'|ds Hne' Hd' Heq']; subst; [|lia].
           apply allDigits_first in Hd'. tauto.
        -- split.
           ++ intros [= <-]. split; [now constructor | lia].
           ++ intros [H Hrange].
              inversion H as [ds Hne' Hd' Heq'|ds Hne' Hd' Heq'|ds Hne' Hd' Heq']; subst; [|reflexivity].
              apply allDigits_first in Hd'. tauto.
    + destruct (ParseUint (String c s)) as [e|un] eqn:Hp.
      * split; [discriminate|]. intros [H Hrange].
        inversion H as [ds Hne Hd Heq|ds Hne Hd|ds Hne Hd Heq]; subst;
          try congruence.
        assert (ParseUint (String c s) = inr (digitsValue (String c s) 0))
          as Hq; [|congruence].
        apply ParseUint_spec. repeat split; auto.
        unfold minInt64, maxInt64, maxUint64 in *. lia.
      * apply ParseUint_spec in Hp as (Hne & Hd & -> & Hr).
        pose proof (digitsValue_ge _ 0 ltac:(lia) Hd) as Hge.
        unfold minInt64, maxInt64, maxUint64 in *.
        destruct (Z.leb_spec (9223372036854775807 + 1)
                    (digitsValue (String c s) 0)) as [Hcmp|Hcmp].
        -- split; [discriminate|]. intros [H Hrange].
           inversion H as [ds Hne' Hd' Heq'|ds Hne' Hd' Heq'|ds Hne' Hd' Heq']; subst; try congruence. lia.
        -- split.
           ++ intros Heq.
              assert (n = digitsValue (String c s) 0) as -> by congruence.
              split; [exact (DecimalUnsigned (String c s) Hne Hd) | lia].
           ++ intros [H Hrange].
              inversion H as [ds Hne' Hd' Heq'|ds Hne' Hd' Heq'|ds Hne' Hd' Heq']; subst; try congruence.
Qed.

End atoi_facts.

(** *** 64-bit arithmetic of [time.Duration] *)

Section wrap64_facts.

Lemma wrap64_id (z : Z) : minInt64 <= z <= maxInt64 -> wrap64 z = z.
Proof.
  unfold wrap64, minInt64, maxInt64. intros H.
  rewrite Z.mod_small; lia.
Qed.

Lemma wrap64_range (z : Z) : minInt64 <= wrap64 z <= maxInt64.
Proof.
  unfold wrap64, minInt64, maxInt64.
  pose proof (Z.mod_pos_bound (z - -9223372036854775808)
                18446744073709551616 ltac:(lia)).
  lia.
Qed.

Lemma wrap64_congr (a b k : Z) :
  a = b + k * 18446744073709551616 -> wrap64 a = wrap64 b.
Proof.
  intros ->. unfold wrap64. f_equal.
  replace (b + k * 18446744073709551616 - minInt64)
    with (b - minInt64 + k * 18446744073709551616) by lia.
  apply Z_mod_plus_full.
Qed.

Lemma wrap64_repr (a : Z) :
  exists k, wrap64 a = a + k * 18446744073709551616.
Proof.
  exists (- ((a - minInt64) / 18446744073709551616)). unfold wrap64.
  pose proof (Z.div_mod (a - minInt64) 18446744073709551616 ltac:(lia)).
  lia.
Qed.

(** Multiplying step by step, as [time.Duration(number) * 24 * time.Hour]
    does, wraps to the same value as the exact product. *)
Lemma wrap64_mul_l (a b : Z) : wrap64 (wrap64 a * b) = wrap64 (a * b).
Proof.
  destruct (wrap64_repr a) as [k ->].
  apply (wrap64_congr _ _ (k * b)). lia.
Qed.

End wrap64_facts.

Section interval_facts.

Lemma str_snoc_take (p : string) (c : ascii) :
  take (String.length (p +:+ String c "") - 1) (p +:+ String c "") = p.
Proof.
  rewrite str_length_app. simpl String.length.
  replace (String.length p + 1 - 1)%nat with (String.length p) by lia.
  apply str_take_app_length.
Qed.

Lemma str_snoc_drop (p : string) (c : ascii) :
  drop (String.length (p +:+ String c "") - 1) (p +:+ String c "")
  = String c "".
Proof.
  rewrite str_length_app. simpl String.length.
  replace (String.length p + 1 - 1)%nat with (String.length p) by lia.
  apply str_drop_app_length.
Qed.

Lemma DecimalInteger_nonempty (s : string) (n : Z) :
  DecimalInteger s n -> s <> "".
Proof. intros H; inversion H; subst; congruence. Qed.

Lemma eqb_unit (c d : ascii) :
  String.eqb (String c "") (String d "") = Ascii.eqb c d.
Proof. simpl. now destruct (Ascii.eqb c d). Qed.

(** What the switch on the unit returns, for a parsed number. *)
Lemma ConvertIntervalToDuration_snoc (numberPart : string) (unit : ascii) :
  numberPart <> "" ->
  ConvertIntervalToDuration (Some (numberPart +:+ String unit ""))
  = match Atoi numberPart with
    | inl err => inl (AtoiError err)
    | inr number =>
        match unitLength unit with
        | None => inl InvalidTimeUnit
        | Some L =>
            if Ascii.eqb unit "s" && (number <? 5)
            then inl AtLeastFiveSeconds
            else inr (wrap64 (number * L))
        end
    end.
Proof.
  intros Hne. unfold ConvertIntervalToDuration.
  destruct (String.eqb_spec (numberPart +:+ String unit "") "") as [He|_].
  { destruct numberPart; discriminate. }
  destruct (Nat.ltb_spec (String.length (numberPart +:+ String unit "")) 2)
    as [Hlt|_].
  { rewrite str_length_app in Hlt. destruct numberPart; simpl in Hlt;
      [congruence | lia]. }
  cbv zeta. rewrite str_snoc_take, str_snoc_drop.
  destruct (Atoi numberPart) as [err|number]; [reflexivity|].
  change "s"%string with (String "s" "").
  change "m"%string with (String "m" "").
  change "h"%string with (String "h" "").
  change "d"%string with (String "d" "").
  change "w"%string with (String "w" "").
  rewrite !eqb_unit. unfold unitLength.
  destruct (Ascii.eqb unit "s"); cbn [andb]; [reflexivity|].
  destruct (Ascii.eqb unit "m"); [reflexivity|].
  destruct (Ascii.eqb unit "h"); [reflexivity|].
  destruct (Ascii.eqb unit "d"); [now rewrite wrap64_mul_l, Z.mul_assoc|].
  destruct (Ascii.eqb unit "w"); [|reflexivity].
  rewrite wrap64_mul_l, <- Z.mul_assoc, wrap64_mul_l. do 2 f_equal. lia.
Qed.

End interval_facts.

(** C9 (as amended) -- [ConvertIntervalToDuration] returns a duration, and
    no error, exactly when the interval is empty (the duration is zero) or
    is [<N><unit>] where [N] is the decimal notation, with an optional sign,
    of an integer of the 64-bit [int] range, the unit is one of s, m, h, d,
    w, and [N >= 5] when the unit is s.  The duration is [N] times the
    length of the unit computed in 64-bit arithmetic, which is the exact
    product whenever that fits in an [int64].  The nil pointer gives zero. *)
Theorem ConvertIntervalToDuration_int64 :
  ConvertIntervalToDuration None = inr 0
  /\ (forall (interval : string) (d : Z),
        ConvertIntervalToDuration (Some interval) = inr d
        <-> (interval = "" /\ d = 0)
            \/ (exists numberPart unit n L,
                   interval = numberPart +:+ String unit ""
                   /\ DecimalInteger numberPart n
                   /\ minInt64 <= n <= maxInt64
                   /\ unitLength unit = Some L
                   /\ (unit = "s"%char -> 5 <= n)
                   /\ d = wrap64 (n * L)))
  /\ (forall n L : Z, minInt64 <= n * L <= maxInt64 -> wrap64 (n * L) = n * L).
Proof.
  split; [reflexivity|]. split; [|intros n L; apply wrap64_id].
  intros interval d. split.
  - intros H. destruct interval as [|a interval]; [left|right].
    { split; [reflexivity|]. now inversion H. }
    destruct (str_snoc (String a interval) ltac:(discriminate))
      as (numberPart & unit & Hs).
    rewrite Hs in H. destruct numberPart as [|b numberPart].
    { discriminate H. }
    rewrite ConvertIntervalToDuration_snoc in H by discriminate.
    destruct (Atoi (String b numberPart)) as [err|n] eqn:Hn; [discriminate|].
    apply Atoi_spec in Hn as [Hdec Hrange].
    destruct (unitLength unit) as [L|] eqn:HL; [|discriminate].
    exists (String b numberPart), unit, n, L.
    destruct (Ascii.eqb_spec unit "s") as [->|Hu]; simpl in H.
    + destruct (Z.ltb_spec n 5); [discriminate|].
      inversion H; subst. repeat split; auto; lia.
    + inversion H; subst. repeat split; auto; try lia. congruence.
  - intros [[-> ->]|(numberPart & unit & n & L & -> & Hdec & Hrange & HL & H5 & ->)];
      [reflexivity|].
    rewrite ConvertIntervalToDuration_snoc
      by (eapply DecimalInteger_nonempty; eauto).
    assert (Atoi numberPart = inr n) as -> by (apply Atoi_spec; auto).
    rewrite HL.
    destruct (Ascii.eqb_spec unit "s") as [Hu|Hu]; [|reflexivity].
    destruct (Z.ltb_spec n 5) as [Hlt|]; [|reflexivity].
    specialize (H5 Hu). lia.
Qed.

Lemma ConvertIntervalToDuration_int64_witness :
  ConvertIntervalToDuration (Some "30s") = inr (30 * Second).
Proof.
  destruct ConvertIntervalToDuration_int64 as (_ & H & Hfit).
  apply H. right. exists "30", "s"%char, 30, Second.
  split; [reflexivity|]. split; [exact (DecimalUnsigned "30" ltac:(discriminate) eq_refl)|].
  split; [unfold minInt64, maxInt64; lia|].
  split; [reflexivity|]. split; [lia|].
  symmetry. apply Hfit. unfold minInt64, maxInt64, Second. lia.
Defined.

(** C9, as the specification words it, fails on the code at the two ends of
    the 64-bit range: ["99999999999999999999m"] is [<N><unit>] with [N] a
    decimal integer and the unit m, and the code returns an error;
    ["10000000000s"] is accepted, and the duration returned is not [N] times
    one second. *)
Lemma ConvertIntervalToDuration_unbounded_fails :
  (DecimalInteger "99999999999999999999" 99999999999999999999
   /\ unitLength "m" = Some Minute
   /\ ConvertIntervalToDuration (Some "99999999999999999999m")
      = inl (AtoiError ErrRange))
  /\ (DecimalInteger "10000000000" 10000000000
      /\ unitLength "s" = Some Second
      /\ ConvertIntervalToDuration (Some "10000000000s")
         = inr (-8446744073709551616)
      /\ -8446744073709551616 <> 10000000000 * Second).
Proof.
  split; [split; [|split] | split; [|split; [|split]]].
  - exact (DecimalUnsigned "99999999999999999999" ltac:(discriminate) eq_refl).
  - reflexivity.
  - vm_compute. reflexivity.
  - exact (DecimalUnsigned "10000000000" ltac:(discriminate) eq_refl).
  - reflexivity.
  - vm_compute. reflexivity.
  - vm_compute. discriminate.
Qed.

(** ** Package [sse]: the event parser *)

Import Sse.

(** The examples are evaluated with the case tables [asciiCaseTables]; a
    statement made in a section with its own tables holds for all tables. *)
#[local] Existing Instance asciiCaseTables | 100.

Section parser_facts.

Context {tables : CaseTables}.

(** [isPingEvent] is the classification of the specification. *)
Lemma isPingEvent_spec (event : Event) :
  isPingEvent event = true
  <-> Event_ event = "ping"
      \/ (Event_ event = "" /\ TrimSpace (Data event) = "1").
Proof.
  unfold isPingEvent, isEmptyString.
  destruct (String.eqb_spec (Event_ event) "ping") as [Hp|Hp]; [tauto|].
  destruct (String.eqb_spec (Event_ event) "") as [He|He];
    destruct (String.eqb_spec (TrimSpace (Data event)) "1") as [Hd|Hd];
    simpl; split; try tauto; try discriminate; intros [?|[? ?]]; congruence.
Qed.

(** At an empty line, an accumulated event whose [Event] field is set is
    classified: a ping updates [lastPingAt] and is not handed to [onEvent],
    any other event is handed to [onEvent]. *)
Lemma processLine_dispatch (currentEvent : Event) (dataBuilder : string) :
  Data currentEvent = "" ->
  Event_ currentEvent <> "" ->
  let event :=
    {| ID := ID currentEvent; Event_ := Event_ currentEvent;
       Data := dataBuilder; Retry := Retry currentEvent |} in
  processLine "" currentEvent dataBuilder
  = ([if isPingEvent event then UpdateLastPing else SafeCallOnEvent event],
     zeroEvent, "").
Proof.
  intros Hd He event. unfold processLine. simpl (len "" =? 0).
  cbv iota. unfold isEmptyString at 1 2.
  destruct (String.eqb_spec (Event_ currentEvent) "") as [|_]; [contradiction|].
  rewrite orb_true_r. cbv iota.
  destruct dataBuilder as [|c b].
  - simpl. subst event. destruct currentEvent as [i e d t]; simpl in *.
    subst d. reflexivity.
  - assert ((0 <? len (String c b)) = true) as ->.
    { apply Z.ltb_lt. unfold len. simpl. lia. }
    reflexivity.
Qed.

(** The test at the empty line reads [currentEvent.Data], which is only
    assigned after the test: an event without [event] field is never
    dispatched, its data stay in the builder. *)
Lemma processLine_data_only (currentEvent : Event) (dataBuilder : string) :
  Data currentEvent = "" ->
  Event_ currentEvent = "" ->
  processLine "" currentEvent dataBuilder = ([], currentEvent, dataBuilder).
Proof.
  intros Hd He. unfold processLine. simpl (len "" =? 0). cbv iota.
  rewrite Hd, He. reflexivity.
Qed.

End parser_facts.

(** *** The round trip of the events that have an [event] field *)

Section roundtrip_facts.

Context {tables : CaseTables}.

Lemma rev_app_app (s t acc : string) :
  String.rev_app (s +:+ t) acc = String.rev_app t (String.rev_app s acc).
Proof.
  revert acc; induction s as [|a s IH]; intros acc; [reflexivity|].
  rewrite str_app_cons. simpl. apply IH.
Qed.

Lemma rev_app_rev_app (s acc acc' : string) :
  String.rev_app (String.rev_app s acc) acc' = String.rev_app acc (s +:+ acc').
Proof.
  revert acc acc'; induction s as [|a s IH]; intros acc acc'; [reflexivity|].
  simpl. rewrite IH. reflexivity.
Qed.

Lemma rev_involutive (s : string) : String.rev (String.rev s) = s.
Proof.
  unfold String.rev. rewrite rev_app_rev_app. simpl. apply str_app_nil_r.
Qed.

Lemma HasSuffix_snoc_false (p : string) (c d : ascii) :
  HasSuffix (p +:+ String c "") (String d "") = false -> c <> d.
Proof.
  intros H ->. apply not_true_iff_false in H. apply H.
  apply HasSuffix_spec. now exists p.
Qed.

(** [dropCR] returns a line that does not end in CR as it is. *)
Lemma dropCR_rev (l : string) :
  HasSuffix l (String CR "") = false -> dropCR (String.rev l) = l.
Proof.
  intros H. destruct l as [|a l]; [reflexivity|].
  destruct (str_snoc (String a l) ltac:(discriminate)) as (p & c & Hp).
  rewrite Hp in *. apply HasSuffix_snoc_false in H.
  unfold String.rev at 1. rewrite rev_app_app. simpl.
  destruct (Ascii.eqb_spec c CR) as [|_]; [contradiction|].
  change (String c (String.rev_app p "")) with (String.rev_app (String c "") (String.rev_app p "")).
  rewrite <- rev_app_app. apply rev_involutive.
Qed.

(** The scanner yields a line that has no LF and fits in the buffer, and
    goes on after its terminator. *)
Lemma scanLines_line (l rest acc : string) (n : Z) :
  IndexByte l LF = -1 ->
  0 <= n ->
  n + len l < MaxScanTokenSize ->
  scanLines (l +:+ String LF rest) acc n
  = (dropCR (String.rev_app l acc) :: (scanLines rest "" 0).1,
     (scanLines rest "" 0).2).
Proof.
  revert acc n; induction l as [|a l IH]; intros acc n Hl Hn Hlen.
  - rewrite str_app_nil_l. cbn [scanLines]. rewrite Ascii.eqb_refl.
    unfold len in Hlen. simpl in Hlen.
    destruct (Z.ltb_spec n MaxScanTokenSize); [|lia].
    now destruct (scanLines rest "" 0).
  - apply IndexByte_none_cons in Hl as [Ha Hl].
    rewrite str_app_cons. cbn [scanLines].
    destruct (Ascii.eqb_spec a LF) as [|_]; [contradiction|].
    apply IH; [exact Hl | lia |].
    unfold len in *. simpl String.length in Hlen. lia.
Qed.

Lemma IndexByte_app_none (s t : string) (c : ascii) :
  IndexByte s c = -1 -> IndexByte t c = -1 -> IndexByte (s +:+ t) c = -1.
Proof.
  induction s as [|a s IH]; intros Hs Ht; [exact Ht|].
  apply IndexByte_none_cons in Hs as [Ha Hs]. rewrite str_app_cons.
  apply IndexByte_none_cons. auto.
Qed.

Lemma HasSuffix_app_false (p v : string) (c : ascii) :
  HasSuffix p (String c "") = false ->
  HasSuffix v (String c "") = false ->
  HasSuffix (p +:+ v) (String c "") = false.
Proof.
  intros Hp Hv. apply not_true_iff_false. intros H.
  apply HasSuffix_spec in H as [q Hq].
  destruct v as [|a v].
  - rewrite str_app_nil_r in Hq. apply not_true_iff_false in Hp. apply Hp.
    apply HasSuffix_spec. eauto.
  - destruct (str_snoc (String a v) ltac:(discriminate)) as (v' & d & Hd).
    rewrite Hd in *. rewrite <- str_app_assoc in Hq.
    apply str_snoc_inj in Hq as [_ ->].
    apply not_true_iff_false in Hv. apply Hv. apply HasSuffix_spec. eauto.
Qed.

(** The scanner yields the line of a field. *)
Lemma scanLines_field (f v rest : string) :
  IndexByte (f +:+ ": ") LF = -1 ->
  HasSuffix (f +:+ ": ") (String CR "") = false ->
  len f <= 5 ->
  lineSafe v ->
  scanLines (fieldLine f v +:+ rest) "" 0
  = ((f +:+ ": " +:+ v) :: (scanLines rest "" 0).1, (scanLines rest "" 0).2).
Proof.
  intros Hf Hcr Hlen (Hv & Hvcr & Hvlen).
  unfold fieldLine.
  replace ((f +:+ ": " +:+ v +:+ String LF "") +:+ rest)
    with (((f +:+ ": ") +:+ v) +:+ String LF rest)
    by (rewrite !str_app_assoc; reflexivity).
  rewrite scanLines_line.
  - fold (String.rev ((f +:+ ": ") +:+ v)).
    rewrite dropCR_rev by (apply HasSuffix_app_false; assumption).
    now rewrite str_app_assoc.
  - now apply IndexByte_app_none.
  - lia.
  - unfold len in *. rewrite !str_length_app. simpl String.length. lia.
Qed.

Lemma scanLines_empty_line (rest : string) :
  scanLines (String LF rest) "" 0
  = ("" :: (scanLines rest "" 0).1, (scanLines rest "" 0).2).
Proof.
  change (String LF rest) with ("" +:+ String LF rest).
  rewrite scanLines_line; [reflexivity | reflexivity | lia | reflexivity].
Qed.

Lemma scanLines_dataLines (lines : list string) (rest : string) :
  Forall lineSafe lines ->
  scanLines (dataLines lines +:+ rest) "" 0
  = (List.map dataLine lines ++ (scanLines rest "" 0).1,
     (scanLines rest "" 0).2).
Proof.
  induction 1 as [|l lines Hl _ IH]; cbn [dataLines List.map app].
  - rewrite str_app_nil_l. now destruct (scanLines rest "" 0).
  - rewrite str_app_assoc, scanLines_field;
      [|reflexivity|reflexivity|unfold len; simpl; lia|exact Hl].
    rewrite IH. reflexivity.
Qed.

(** The scanner yields the lines of an encoded event. *)
Lemma scanLines_encodeEvent (e : Event) (rest : string) :
  safeFields e ->
  scanLines (encodeEvent e +:+ rest) "" 0
  = (eventLines e ++ (scanLines rest "" 0).1, (scanLines rest "" 0).2).
Proof.
  intros (Hid & Hev & Hdata).
  unfold encodeEvent, eventLines. rewrite !str_app_assoc.
  assert (scanLines (String LF "" +:+ rest) "" 0
          = ([""] ++ (scanLines rest "" 0).1, (scanLines rest "" 0).2)) as Hend.
  { apply scanLines_empty_line. }
  assert (forall tail tailLines flag,
             scanLines tail "" 0 = (tailLines, flag) ->
             scanLines ((if isEmptyString (Data e) then ""
                         else dataLines (SplitByte (Data e) LF)) +:+ tail) "" 0
             = ((if isEmptyString (Data e) then []
                 else List.map dataLine (SplitByte (Data e) LF)) ++ tailLines,
                flag)) as Hd.
  { intros tail tailLines flag Htail. destruct (isEmptyString (Data e)).
    - rewrite str_app_nil_l. exact Htail.
    - rewrite scanLines_dataLines by exact Hdata. now rewrite Htail. }
  assert (forall tail tailLines flag,
             scanLines tail "" 0 = (tailLines, flag) ->
             scanLines ((if isEmptyString (Event_ e) then ""
                         else fieldLine "event" (Event_ e)) +:+ tail) "" 0
             = ((if isEmptyString (Event_ e) then []
                 else ["event: " +:+ Event_ e]) ++ tailLines, flag)) as Hevent.
  { intros tail tailLines flag Htail. destruct (isEmptyString (Event_ e)).
    - rewrite str_app_nil_l. exact Htail.
    - rewrite scanLines_field;
        [|reflexivity|reflexivity|unfold len; simpl; lia|exact Hev].
      now rewrite Htail. }
  assert (forall tail tailLines flag,
             scanLines tail "" 0 = (tailLines, flag) ->
             scanLines ((if isEmptyString (ID e) then ""
                         else fieldLine "id" (ID e)) +:+ tail) "" 0
             = ((if isEmptyString (ID e) then []
                 else ["id: " +:+ ID e]) ++ tailLines, flag)) as Hident.
  { intros tail tailLines flag Htail. destruct (isEmptyString (ID e)).
    - rewrite str_app_nil_l. exact Htail.
    - rewrite scanLines_field;
        [|reflexivity|reflexivity|unfold len; simpl; lia|exact Hid].
      now rewrite Htail. }
  rewrite <- !app_assoc.
  apply Hident, Hevent, Hd, Hend.
Qed.

Lemma scanLines_encodeEvents (events : list Event) :
  Forall safeFields events ->
  scanLines (encodeEvents events) "" 0
  = (concat (List.map eventLines events), false).
Proof.
  induction 1 as [|e events He _ IH]; [reflexivity|].
  cbn [encodeEvents List.map concat].
  rewrite scanLines_encodeEvent by exact He. now rewrite IH.
Qed.

Lemma processLine_id (v : string) (event : Event) (dataBuilder : string) :
  processLine ("id: " +:+ v) event dataBuilder
  = ([], {| ID := v; Event_ := Event_ event; Data := Data event;
            Retry := Retry event |}, dataBuilder).
Proof. reflexivity. Qed.

Lemma processLine_event (v : string) (event : Event) (dataBuilder : string) :
  processLine ("event: " +:+ v) event dataBuilder
  = ([], {| ID := ID event; Event_ := v; Data := Data event;
            Retry := Retry event |}, dataBuilder).
Proof. reflexivity. Qed.

Lemma processLine_data (l : string) (event : Event) (dataBuilder : string) :
  processLine (dataLine l) event dataBuilder
  = ([], event,
     (if 0 <? len dataBuilder then dataBuilder +:+ String LF "" else dataBuilder)
     +:+ l).
Proof. reflexivity. Qed.

Lemma processLines_index (i j : nat) (lines : list string) (event : Event)
    (dataBuilder : string) :
  processLines neverDone i lines event dataBuilder
  = processLines neverDone j lines event dataBuilder.
Proof.
  revert i j event dataBuilder; induction lines as [|line lines IH];
    intros i j event dataBuilder; [reflexivity|].
  cbn [processLines]. unfold neverDone at 1 3.
  destruct (processLine line event dataBuilder) as [[calls ev] b].
  now rewrite (IH (S i) (S j)).
Qed.

Lemma processLines_step (line : string) (lines : list string) (event : Event)
    (dataBuilder : string) (event' : Event) (dataBuilder' : string)
    (calls : list Callback) :
  processLine line event dataBuilder = (calls, event', dataBuilder') ->
  processLines neverDone 0 (line :: lines) event dataBuilder
  = (calls ++ (processLines neverDone 0 lines event' dataBuilder').1,
     (processLines neverDone 0 lines event' dataBuilder').2).
Proof.
  intros H. cbn [processLines]. unfold neverDone at 1. rewrite H.
  rewrite (processLines_index 1 0).
  now destruct (processLines neverDone 0 lines event' dataBuilder').
Qed.

(** The data lines are appended to the builder, separated by LF. *)
Lemma processLines_dataLines (ls lines : list string) (event : Event)
    (dataBuilder : string) :
  processLines neverDone 0 (List.map dataLine ls ++ lines) event dataBuilder
  = processLines neverDone 0 lines event
      (fold_left
         (fun b l => (if 0 <? len b then b +:+ String LF "" else b) +:+ l)
         ls dataBuilder).
Proof.
  revert dataBuilder; induction ls as [|l ls IH]; intros dataBuilder;
    [reflexivity|].
  cbn [List.map app fold_left].
  rewrite (processLines_step _ _ _ _ _ _ _ (processLine_data l event dataBuilder)).
  rewrite IH. now destruct (processLines neverDone 0 lines event _).
Qed.

Lemma Join_cons (e : string) (rest : list string) (sep : string) :
  rest <> [] -> Join (e :: rest) sep = e +:+ sep +:+ Join rest sep.
Proof. destruct rest; [congruence | reflexivity]. Qed.

Lemma Join_cons_char (a : ascii) (p : string) (ps : list string)
    (sep : string) :
  Join (String a p :: ps) sep = String a (Join (p :: ps) sep).
Proof. destruct ps; reflexivity. Qed.

(** Joining the pieces with the separator undoes the splitting. *)
Lemma Join_SplitByte (d : string) (sep : ascii) :
  Join (SplitByte d sep) (String sep "") = d.
Proof.
  induction d as [|a d IH]; [reflexivity|]. simpl.
  destruct (Ascii.eqb_spec a sep) as [->|_].
  - rewrite Join_cons by apply SplitByte_nonempty. now rewrite IH.
  - destruct (SplitByte d sep) as [|p ps] eqn:Hs.
    + now apply SplitByte_nonempty in Hs.
    + rewrite Join_cons_char. now rewrite IH.
Qed.

Lemma builder_fold (ls : list string) (b : string) :
  b <> "" ->
  fold_left (fun b l => (if 0 <? len b then b +:+ String LF "" else b) +:+ l)
    ls b
  = Join (b :: ls) (String LF "").
Proof.
  revert b; induction ls as [|l ls IH]; intros b Hb; [reflexivity|].
  cbn [fold_left].
  assert ((0 <? len b) = true) as ->.
  { apply Z.ltb_lt. destruct b; [congruence|]. unfold len. simpl. lia. }
  rewrite IH.
  - destruct ls as [|l' ls].
    + simpl. now rewrite str_app_assoc.
    + rewrite (Join_cons _ (l' :: ls)) by discriminate.
      rewrite (Join_cons b) by discriminate.
      rewrite (Join_cons l) by discriminate.
      now rewrite !str_app_assoc.
  - destruct b; [congruence | discriminate].
Qed.

(** The builder holds the data of the event after its data lines. *)
Lemma builder_data (d : string) :
  d <> "" ->
  HasPrefix d (String LF "") = false ->
  fold_left (fun b l => (if 0 <? len b then b +:+ String LF "" else b) +:+ l)
    (SplitByte d LF) ""
  = d.
Proof.
  intros Hd Hfirst. rewrite <- (Join_SplitByte d LF) at 2.
  destruct d as [|a d]; [congruence|].
  assert (a <> LF) as Ha.
  { intros ->. apply not_true_iff_false in Hfirst. apply Hfirst.
    apply HasPrefix_spec. now exists d. }
  simpl SplitByte. destruct (Ascii.eqb_spec a LF) as [|_]; [contradiction|].
  destruct (SplitByte d LF) as [|p ps] eqn:Hs.
  - now apply SplitByte_nonempty in Hs.
  - cbn [fold_left]. simpl (0 <? len ""). cbv iota. rewrite str_app_nil_l.
    apply builder_fold. discriminate.
Qed.

(** The reader classifies an encoded event that has an [event] field. *)
Lemma processLines_eventLines (e : Event) (lines : list string) :
  framed e ->
  processLines neverDone 0 (eventLines e ++ lines) zeroEvent ""
  = (classified e :: (processLines neverDone 0 lines zeroEvent "").1,
     (processLines neverDone 0 lines zeroEvent "").2).
Proof.
  intros (He & Hretry & (Hid & Hev & Hdata) & Hfirst).
  destruct e as [id ev d retry]. cbn [ID Event_ Data Retry] in *. subst retry.
  unfold eventLines. cbn [ID Event_ Data Retry].
  unfold isEmptyString at 2.
  destruct (String.eqb_spec ev "") as [|_]; [contradiction|].
  rewrite <- !app_assoc.
  set (tail := (if isEmptyString d then [] else List.map dataLine (SplitByte d LF))
               ++ [""] ++ lines).
  assert (processLines neverDone 0 (["event: " +:+ ev] ++ tail)
            {| ID := id; Event_ := ""; Data := ""; Retry := 0 |} ""
          = (classified {| ID := id; Event_ := ev; Data := d; Retry := 0 |}
             :: (processLines neverDone 0 lines zeroEvent "").1,
             (processLines neverDone 0 lines zeroEvent "").2)) as Hrest.
  { cbn [app].
    rewrite (processLines_step _ _ _ _ _ _ _ (processLine_event ev _ "")).
    cbn [ID Data Retry app]. subst tail.
    assert (processLines neverDone 0
              ((if isEmptyString d then []
                else List.map dataLine (SplitByte d LF)) ++ [""] ++ lines)
              {| ID := id; Event_ := ev; Data := ""; Retry := 0 |} ""
            = processLines neverDone 0 ([""] ++ lines)
                {| ID := id; Event_ := ev; Data := ""; Retry := 0 |} d) as ->.
    { unfold isEmptyString. destruct (String.eqb_spec d "") as [->|Hd].
      - reflexivity.
      - rewrite processLines_dataLines. now rewrite builder_data. }
    cbn [app].
    rewrite (processLines_step _ _ _ _ _ _ _
               (processLine_dispatch
                  {| ID := id; Event_ := ev; Data := ""; Retry := 0 |} d
                  eq_refl He)).
    reflexivity. }
  unfold isEmptyString at 1. destruct (String.eqb_spec id "") as [->|_].
  - exact Hrest.
  - cbn [app].
    rewrite (processLines_step _ _ _ _ _ _ _ (processLine_id id zeroEvent "")).
    cbn [app Event_ Data Retry zeroEvent]. cbn [app] in Hrest.
    rewrite Hrest. reflexivity.
Qed.

Lemma processLines_events (events : list Event) :
  Forall framed events ->
  processLines neverDone 0 (concat (List.map eventLines events)) zeroEvent ""
  = (List.map classified events, false).
Proof.
  induction 1 as [|e events He _ IH]; [reflexivity|].
  cbn [List.map concat]. rewrite processLines_eventLines by exact He.
  now rewrite IH.
Qed.

Lemma dispatched_classified (events : list Event) :
  dispatched (List.map classified events)
  = List.filter (fun e => negb (isPingEvent e)) events.
Proof.
  induction events as [|e events IH]; [reflexivity|].
  cbn [List.map List.filter]. unfold classified at 1.
  destruct (isPingEvent e); simpl; now rewrite IH.
Qed.

Lemma pingUpdates_classified (events : list Event) :
  pingUpdates (List.map classified events)
  = List.length (List.filter isPingEvent events).
Proof.
  induction events as [|e events IH]; [reflexivity|].
  cbn [List.map List.filter]. unfold classified at 1.
  destruct (isPingEvent e); simpl; now rewrite IH.
Qed.

(** The round trip of the events that have an [event] field: the reader
    classifies each of them in order; it hands those that are not pings to
    [onEvent] and updates [lastPingAt] once for each ping. *)
Lemma processStream_round_trip (events : list Event) :
  Forall framed events ->
  let calls := processStream neverDone (mkBody (encodeEvents events) None) in
  calls = List.map classified events
  /\ dispatched calls = List.filter (fun e => negb (isPingEvent e)) events
  /\ pingUpdates calls = List.length (List.filter isPingEvent events).
Proof.
  intros Hf calls.
  assert (calls = List.map classified events) as ->.
  { subst calls. unfold processStream. cbn [bytes readError].
    rewrite scanLines_encodeEvents
      by (eapply Forall_impl; [exact Hf | intros e He; apply He]).
    now rewrite processLines_events by exact Hf. }
  split; [reflexivity|]. split.
  - apply dispatched_classified.
  - apply pingUpdates_classified.
Qed.

(** The lines of an event without [event] field leave the reader without
    [event] field and without data in [currentEvent]: nothing is
    classified. *)
Lemma processLines_eventless (e : Event) (lines : list string)
    (currentEvent : Event) (dataBuilder : string) :
  Event_ e = "" ->
  Event_ currentEvent = "" ->
  Data currentEvent = "" ->
  exists currentEvent' dataBuilder',
    processLines neverDone 0 (eventLines e ++ lines) currentEvent dataBuilder
    = processLines neverDone 0 lines currentEvent' dataBuilder'
    /\ Event_ currentEvent' = "" /\ Data currentEvent' = "".
Proof.
  intros He Hev Hd. unfold eventLines. rewrite He.
  change (isEmptyString "") with true. cbv iota. rewrite <- !app_assoc.
  cbn [app].
  assert (forall ev b,
             Event_ ev = "" -> Data ev = "" ->
             exists ev' b',
               processLines neverDone 0
                 ((if isEmptyString (Data e) then []
                   else List.map dataLine (SplitByte (Data e) LF))
                  ++ "" :: lines) ev b
               = processLines neverDone 0 lines ev' b'
               /\ Event_ ev' = "" /\ Data ev' = "") as Hdata.
  { intros ev b Hev' Hd'.
    assert (forall b0,
               processLines neverDone 0 ("" :: lines) ev b0
               = processLines neverDone 0 lines ev b0) as Hblank.
    { intros b0.
      rewrite (processLines_step _ _ _ _ _ _ _
                 (processLine_data_only ev b0 Hd' Hev')).
      now destruct (processLines neverDone 0 lines ev b0). }
    destruct (isEmptyString (Data e)).
    - exists ev, b. cbn [app]. rewrite Hblank. auto.
    - rewrite processLines_dataLines, Hblank. eauto. }
  destruct (isEmptyString (ID e)).
  - cbn [app]. apply Hdata; assumption.
  - cbn [app].
    rewrite (processLines_step _ _ _ _ _ _ _
               (processLine_id (ID e) currentEvent dataBuilder)).
    cbn [app].
    destruct (Hdata {| ID := ID e; Event_ := Event_ currentEvent;
                       Data := Data currentEvent;
                       Retry := Retry currentEvent |} dataBuilder Hev Hd)
      as (ev' & b' & Heq & Hev' & Hd').
    exists ev', b'. rewrite Heq.
    split; [now destruct (processLines neverDone 0 lines ev' b') | auto].
Qed.

Lemma processLines_eventless_all (events : list Event) (currentEvent : Event)
    (dataBuilder : string) :
  Forall (fun e => Event_ e = "") events ->
  Event_ currentEvent = "" ->
  Data currentEvent = "" ->
  processLines neverDone 0 (concat (List.map eventLines events)) currentEvent
    dataBuilder = ([], false).
Proof.
  intros H. revert currentEvent dataBuilder.
  induction H as [|e events He _ IH]; intros currentEvent dataBuilder Hev Hd;
    [reflexivity|].
  cbn [List.map concat].
  destruct (processLines_eventless e (concat (List.map eventLines events))
              currentEvent dataBuilder He Hev Hd)
    as (ev' & b' & -> & Hev' & Hd').
  now apply IH.
Qed.

(** A stream of events without [event] field: the reader makes no call. *)
Lemma processStream_eventless (events : list Event) :
  Forall eventless events ->
  processStream neverDone (mkBody (encodeEvents events) None) = [].
Proof.
  intros H. unfold processStream. cbn [bytes readError].
  rewrite scanLines_encodeEvents
    by (eapply Forall_impl; [exact H | intros e He; apply He]).
  rewrite processLines_eventless_all; [reflexivity | | reflexivity | reflexivity].
  eapply Forall_impl; [exact H | intros e He; apply He].
Qed.

End roundtrip_facts.

(** The round trip on a stream of three events, one of them a ping. *)
Example processStream_round_trip_example :
  let update := {| ID := "7"; Event_ := "secret:update";
                   Data := "a" +:+ String LF "b"; Retry := 0 |} in
  let ping := {| ID := ""; Event_ := "ping"; Data := ""; Retry := 0 |} in
  let delete := {| ID := ""; Event_ := "secret:delete"; Data := " x";
                   Retry := 0 |} in
  dispatched (processStream neverDone
                (mkBody (encodeEvents [update; ping; delete]) None))
  = [update; delete].
Proof.
  intros update ping delete.
  assert (forall v, IndexByte v LF = -1 ->
                    HasSuffix v (String CR "") = false ->
                    (String.length v < 100)%nat -> lineSafe v) as Hsafe.
  { intros v H1 H2 H3. repeat split; try assumption.
    unfold len, MaxScanTokenSize. lia. }
  assert (Forall framed [update; ping; delete]) as Hf.
  { repeat constructor; try discriminate; try reflexivity;
      apply Hsafe; try reflexivity; simpl; lia. }
  destruct (processStream_round_trip _ Hf) as (_ & -> & _). reflexivity.
Qed.

Section data_only_events.

Context {tables : CaseTables}.

(** C1 -- a stream that encodes events without [event] field, as a server
    writes them: the reader hands none of them to [onEvent], although every
    one of them that is not a ping belongs to the sequence that the round
    trip has to yield.  The test at the empty line reads
    [currentEvent.Data], which is assigned after the test only. *)
Theorem processStream_drops_data_only_events (events : list Event) :
  Forall eventless events ->
  let calls := processStream neverDone (mkBody (encodeEvents events) None) in
  dispatched calls = []
  /\ (forall e,
        e ∈ events -> isPingEvent e = false ->
        dispatched calls
        <> List.filter (fun e => negb (isPingEvent e)) events).
Proof.
  intros H calls. subst calls. rewrite (processStream_eventless events H).
  split; [reflexivity|]. intros e He Hping Heq.
  assert (In e (List.filter (fun e => negb (isPingEvent e)) events)) as Hin.
  { apply List.filter_In. split; [now apply list_elem_of_In|].
    now rewrite Hping. }
  rewrite <- Heq in Hin. exact Hin.
Qed.

End data_only_events.

Lemma processStream_drops_data_only_events_witness :
  let hello := {| ID := ""; Event_ := ""; Data := "hello"; Retry := 0 |} in
  encodeEvents [hello] = "data: hello" +:+ String LF (String LF "")
  /\ isPingEvent hello = false
  /\ dispatched (processStream neverDone (mkBody (encodeEvents [hello]) None))
     = []
  /\ dispatched (processStream neverDone (mkBody (encodeEvents [hello]) None))
     <> [hello].
Proof.
  intros hello.
  assert (Forall eventless [hello]) as Hf.
  { repeat constructor; try reflexivity; unfold len, MaxScanTokenSize;
      simpl; lia. }
  destruct (processStream_drops_data_only_events [hello] Hf) as [Hnone Hne].
  split; [reflexivity|]. split; [reflexivity|]. split; [exact Hnone|].
  apply (Hne hello); [apply list_elem_of_here | reflexivity].
Defined.

(** The data that were not dispatched stay in the builder: the next event
    that has an [event] field carries them in front of its own. *)
Example processStream_merges_data :
  let hello := {| ID := ""; Event_ := ""; Data := "hello"; Retry := 0 |} in
  let update := {| ID := ""; Event_ := "secret:update"; Data := "bar";
                   Retry := 0 |} in
  dispatched (processStream neverDone
                (mkBody (encodeEvents [hello; update]) None))
  = [{| ID := ""; Event_ := "secret:update";
        Data := "hello" +:+ String LF "bar"; Retry := 0 |}].
Proof. vm_compute. reflexivity. Qed.

Section heartbeat_events.

Context {tables : CaseTables}.

(** C3 -- [isPingEvent] classifies as the specification says; but when the
    reader receives events without [event] field, among them the keepalive
    whose data are ["1"], it neither updates [lastPingAt] nor calls
    [onEvent]: they never reach the classification. *)
Theorem processStream_heartbeat_not_consumed (events : list Event) :
  Forall eventless events ->
  let calls := processStream neverDone (mkBody (encodeEvents events) None) in
  (forall event : Event,
      isPingEvent event = true
      <-> Event_ event = "ping"
          \/ (Event_ event = "" /\ TrimSpace (Data event) = "1"))
  /\ pingUpdates calls = O
  /\ dispatched calls = [].
Proof.
  intros H calls. subst calls. rewrite (processStream_eventless events H).
  split; [exact isPingEvent_spec|]. split; reflexivity.
Qed.

End heartbeat_events.

Lemma processStream_heartbeat_not_consumed_witness :
  let heartbeat := {| ID := ""; Event_ := ""; Data := "1"; Retry := 0 |} in
  let hello := {| ID := ""; Event_ := ""; Data := "hello"; Retry := 0 |} in
  encodeEvents [heartbeat] = "data: 1" +:+ String LF (String LF "")
  /\ isPingEvent heartbeat = true
  /\ isPingEvent hello = false
  /\ pingUpdates (processStream neverDone
                    (mkBody (encodeEvents [heartbeat; hello]) None)) = O
  /\ dispatched (processStream neverDone
                   (mkBody (encodeEvents [heartbeat; hello]) None)) = [].
Proof.
  intros heartbeat hello.
  assert (Forall eventless [heartbeat; hello]) as Hf.
  { repeat constructor; try reflexivity; unfold len, MaxScanTokenSize;
      simpl; lia. }
  destruct (processStream_heartbeat_not_consumed [heartbeat; hello] Hf)
    as (_ & Hping & Hevents).
  repeat split; try reflexivity; assumption.
Defined.

(** ** Package [sse]: the reconnect loop *)

Section reconnect_facts.

Context {tables : CaseTables}.

Local Opaque isPermanentError establishError itoa.

Lemma emit_emit (a b : list Effect) (r : ConnectionRegistry) :
  emit b (emit a r) = emit (a ++ b) r.
Proof. unfold emit; simpl. now rewrite <- app_assoc. Qed.

Lemma emit_nil (r : ConnectionRegistry) : emit [] r = r.
Proof. destruct r; unfold emit; simpl. now rewrite app_nil_r. Qed.

(** A failure that is not permanent is reported and retried with the next
    backoff. *)
Lemma reconnectIteration_transient (r : ConnectionRegistry) (st : LoopState)
    (res : RequestResult) (now : Z) :
  done r = false ->
  isTransientFailure res = true ->
  reconnectIteration r st res now
  = (emit [TimeAfter (backoff st); Request (loopFn st);
           CallOnError ("reconnect attempt " +:+ itoa (attempt st + 1)
                        +:+ " failed: " +:+ errorOf res)] r,
     Some {| loopParams := loopParams st; loopFn := loopFn st;
             remaining := Nat.pred (remaining st);
             attempt := attempt st + 1;
             backoff := Z.min (scaleBackoff (reconnectConfig r) (backoff st))
                          (MaxBackoff (reconnectConfig r)) |}).
Proof.
  intros Hd Ht. destruct res as [|err]; [discriminate|].
  simpl in Ht. apply negb_true_iff in Ht.
  unfold reconnectIteration, createConnectionLocked. rewrite Hd. simpl.
  rewrite Hd, Ht. rewrite !emit_emit. reflexivity.
Qed.

(** A permanent failure is reported and ends the loop. *)
Lemma reconnectIteration_permanent (r : ConnectionRegistry) (st : LoopState)
    (res : RequestResult) (now : Z) :
  done r = false ->
  isPermanentFailure res = true ->
  reconnectIteration r st res now
  = (emit [TimeAfter (backoff st); Request (loopFn st);
           CallOnError ("permanent error, stopping reconnection: "
                        +:+ errorOf res)] r, None).
Proof.
  intros Hd Ht. destruct res as [|err]; [discriminate|]. simpl in Ht.
  unfold reconnectIteration, createConnectionLocked. rewrite Hd. simpl.
  rewrite Hd, Ht. rewrite !emit_emit. reflexivity.
Qed.

(** A response installs the new connection, starts its reader and ends the
    loop. *)
Lemma reconnectIteration_success (r : ConnectionRegistry) (st : LoopState)
    (now : Z) :
  done r = false ->
  reconnectIteration r st Response now
  = ({| conn := Some (List.length (heap r));
        heap := heap r ++ [{| params := loopParams st; cancelled := false;
                               bodyClosed := false; lastPingAt := now;
                               readerRunning := true |}];
        done := false;
        reconnectConfig := reconnectConfig r;
        requestFn := requestFn r;
        trace := trace r ++ [TimeAfter (backoff st); Request (loopFn st);
                             GoProcessStream (List.length (heap r))] |}, None).
Proof.
  intros Hd. unfold reconnectIteration, createConnectionLocked.
  rewrite Hd. simpl. rewrite Hd. simpl. rewrite <- app_assoc. reflexivity.
Qed.

(** After [k] failures that are retried, the loop has left
    [failedAttempts k] in the trace, changed nothing else, and is about to
    start iteration [k]. *)
Lemma reconnectIterations_failed (results : nat -> RequestResult)
    (clock : nat -> Z) (r : ConnectionRegistry) (p : SubscriptionParams)
    (fn : nat) (n k : nat) :
  done r = false ->
  (k <= n)%nat ->
  (forall i, (i < k)%nat -> isTransientFailure (results i) = true) ->
  reconnectIterations n results clock r
    (loopStateAt (reconnectConfig r) p fn n 0)
  = reconnectIterations (n - k) results clock
      (emit (failedAttempts (reconnectConfig r) fn results k) r)
      (loopStateAt (reconnectConfig r) p fn n k).
Proof.
  intros Hd. induction k as [|k IH]; intros Hk Ht.
  - simpl. rewrite emit_nil, Nat.sub_0_r. reflexivity.
  - rewrite IH by (try lia; intros i Hi; apply Ht; lia).
    replace (n - k)%nat with (S (n - S k)) by lia.
    cbn [reconnectIterations].
    replace (Z.to_nat (attempt (loopStateAt (reconnectConfig r) p fn n k)))
      with k by (simpl; lia).
    rewrite reconnectIteration_transient; [|exact Hd|apply Ht; lia].
    rewrite emit_emit. cbn [failedAttempts]. unfold failedAttempt.
    unfold loopStateAt. cbn [backoff attempt loopFn loopParams remaining].
    cbn [reconnectConfig emit]. cbn [backoffAt].
    replace (Z.of_nat (S k)) with (Z.of_nat k + 1) by lia.
    replace (Nat.pred (n - k)) with (n - S k)%nat by lia.
    reflexivity.
Qed.

Lemma startLoop_loopStateAt (r : ConnectionRegistry) (p : SubscriptionParams)
    (fn : nat) :
  startLoop r p fn
  = loopStateAt (reconnectConfig r) p fn
      (Z.to_nat (MaxRetries (reconnectConfig r))) 0.
Proof.
  unfold startLoop, loopStateAt. now rewrite Nat.sub_0_r.
Qed.

Lemma countRequests_app (a b : list Effect) :
  countRequests (a ++ b) = (countRequests a + countRequests b)%nat.
Proof.
  induction a as [|e a IH]; [reflexivity|]. destruct e; simpl; lia.
Qed.

Lemma countOnReconnect_app (a b : list Effect) :
  countOnReconnect (a ++ b) = (countOnReconnect a + countOnReconnect b)%nat.
Proof.
  induction a as [|e a IH]; [reflexivity|]. destruct e; simpl; lia.
Qed.

Lemma failedAttempts_counts (cfg : ReconnectConfig) (fn : nat)
    (results : nat -> RequestResult) (k : nat) :
  countRequests (failedAttempts cfg fn results k) = k
  /\ countOnReconnect (failedAttempts cfg fn results k) = O.
Proof.
  induction k as [|k [IH1 IH2]]; [split; reflexivity|].
  cbn [failedAttempts]. rewrite countRequests_app, countOnReconnect_app.
  rewrite IH1, IH2. simpl. split; lia.
Qed.

End reconnect_facts.

Section default_conformance.

Context {tables : CaseTables}.

(** C6 -- a run of [reconnectLoop] with the default configuration on a
    registry that is not closed, whose first [k] attempts fail with errors
    that are not permanent.  The backoffs before the five attempts are 1, 2,
    4, 8 and 16 seconds.  If all five attempts fail ([k = 5]), the request
    function has been called five times, each time after its backoff, then
    [onReconnect] is called once and nothing follows.  If attempt [k] gets a
    response, the new connection is installed, its reader is started and the
    loop ends.  If attempt [k] fails with a permanent error, the error is
    reported and the loop ends without a call of [onReconnect]. *)
Theorem reconnectLoop_default_conformance
    (r : ConnectionRegistry) (p : SubscriptionParams) (fn : nat)
    (results : nat -> RequestResult) (clock : nat -> Z) (k : nat) :
  done r = false ->
  reconnectConfig r = DefaultReconnectConfig ->
  (k <= 5)%nat ->
  (forall i, (i < k)%nat -> isTransientFailure (results i) = true) ->
  let r' := reconnectLoop r p fn results clock in
  let failed := failedAttempts DefaultReconnectConfig fn results k in
  map (backoffAt DefaultReconnectConfig) (seq 0 5)
  = [1 * Second; 2 * Second; 4 * Second; 8 * Second; 16 * Second]
  /\ (k = 5%nat ->
      trace r' = trace r ++ failed ++ [CallOnReconnect]
      /\ countRequests (failed ++ [CallOnReconnect]) = 5%nat
      /\ countOnReconnect (failed ++ [CallOnReconnect]) = 1%nat
      /\ conn r' = conn r /\ heap r' = heap r)
  /\ ((k < 5)%nat -> results k = Response ->
      trace r'
      = trace r ++ failed
        ++ [TimeAfter (backoffAt DefaultReconnectConfig k); Request fn;
            GoProcessStream (List.length (heap r))]
      /\ conn r' = Some (List.length (heap r))
      /\ heap r'
         = heap r ++ [{| params := p; cancelled := false; bodyClosed := false;
                         lastPingAt := clock k; readerRunning := true |}])
  /\ ((k < 5)%nat -> isPermanentFailure (results k) = true ->
      trace r'
      = trace r ++ failed
        ++ [TimeAfter (backoffAt DefaultReconnectConfig k); Request fn;
            CallOnError ("permanent error, stopping reconnection: "
                         +:+ errorOf (results k))]
      /\ countOnReconnect
           (failed
            ++ [TimeAfter (backoffAt DefaultReconnectConfig k); Request fn;
                CallOnError ("permanent error, stopping reconnection: "
                             +:+ errorOf (results k))]) = O
      /\ conn r' = conn r /\ heap r' = heap r).
Proof.
  intros Hd Hcfg Hk Ht r' failed.
  split; [reflexivity|].
  pose proof (reconnectIterations_failed results clock r p fn 5 k Hd Hk Ht)
    as Hrun.
  assert (r' = reconnectIterations (5 - k) results clock
                 (emit failed r)
                 (loopStateAt DefaultReconnectConfig p fn 5 k)) as Hr'.
  { subst r' failed. unfold reconnectLoop. rewrite startLoop_loopStateAt.
    rewrite Hcfg in *. exact Hrun. }
  clear Hrun.
  destruct (failedAttempts_counts DefaultReconnectConfig fn results k)
    as [Hreq Hrec]. fold failed in Hreq, Hrec.
  assert (Z.to_nat (attempt (loopStateAt DefaultReconnectConfig p fn 5 k)) = k)
    as Hatt by (simpl; lia).
  split; [|split].
  - intros ->. rewrite Hr'. simpl (5 - 5)%nat. cbn [reconnectIterations].
    rewrite emit_emit. cbn [emit trace conn heap].
    rewrite countRequests_app, countOnReconnect_app, Hreq, Hrec.
    repeat split; reflexivity.
  - intros Hlt Hres. rewrite Hr'.
    replace (5 - k)%nat with (S (5 - S k)) by lia.
    cbn [reconnectIterations]. rewrite Hatt, Hres.
    rewrite reconnectIteration_success by exact Hd.
    cbn [emit trace conn heap loopStateAt loopParams loopFn backoff].
    rewrite <- app_assoc. repeat split; reflexivity.
  - intros Hlt Hperm. rewrite Hr'.
    replace (5 - k)%nat with (S (5 - S k)) by lia.
    cbn [reconnectIterations]. rewrite Hatt.
    rewrite reconnectIteration_permanent by (try exact Hd; exact Hperm).
    rewrite emit_emit.
    cbn [emit trace conn heap loopStateAt loopParams loopFn backoff].
    rewrite countOnReconnect_app, Hrec.
    repeat split; reflexivity.
Qed.

End default_conformance.

Lemma reconnectLoop_default_conformance_witness :
  let serverError := fun _ : nat => RequestError "500 Internal Server Error" in
  let failure (n : string) :=
    CallOnError ("reconnect attempt " +:+ n +:+ " failed: failed to establish SSE connection: 500 Internal Server Error") in
  trace (reconnectLoop NewConnectionRegistry (mkParams "p1" "e1" "/a") 0
           serverError (fun _ => 0))
  = [TimeAfter (1 * Second); Request 0; failure "1";
     TimeAfter (2 * Second); Request 0; failure "2";
     TimeAfter (4 * Second); Request 0; failure "3";
     TimeAfter (8 * Second); Request 0; failure "4";
     TimeAfter (16 * Second); Request 0; failure "5";
     CallOnReconnect].
Proof.
  intros serverError failure.
  destruct (reconnectLoop_default_conformance NewConnectionRegistry
              (mkParams "p1" "e1" "/a") 0 serverError (fun _ => 0) 5
              eq_refl eq_refl (le_n 5) (fun i _ => eq_refl))
    as (_ & Hexhausted & _).
  destruct (Hexhausted eq_refl) as (Htrace & _).
  rewrite Htrace. reflexivity.
Defined.

(** ** Package [sse]: one stream per registry *)

Section registry_facts.

Context {tables : CaseTables}.

Local Opaque isPermanentError establishError itoa.

Lemma filter_all_false {A : Type} (P : A -> bool) (l : list A) :
  (forall c m, l !! c = Some m -> P m = false) -> List.filter P l = [].
Proof.
  induction l as [|x l IH]; intros H; [reflexivity|]. simpl.
  rewrite (H O x eq_refl). apply IH. intros c m Hc. exact (H (S c) m Hc).
Qed.

Lemma filter_one_exception {A : Type} (P : A -> bool) (l : list A) (c0 : nat) :
  (forall c m, l !! c = Some m -> c <> c0 -> P m = false) ->
  (List.length (List.filter P l) <= 1)%nat.
Proof.
  revert c0; induction l as [|x l IH]; intros c0 H; simpl; [lia|].
  destruct c0 as [|c0].
  - rewrite (filter_all_false P l).
    + destruct (P x); simpl; lia.
    + intros c m Hc. apply (H (S c) m Hc). lia.
  - rewrite (H O x eq_refl) by lia.
    apply (IH c0). intros c m Hc Hne. apply (H (S c) m Hc). lia.
Qed.

Lemma openCount_closedExceptCurrent (r : ConnectionRegistry) :
  closedExceptCurrent r -> (openCount r <= 1)%nat.
Proof.
  intros H. unfold openCount. destruct (conn r) as [c0|] eqn:Hc.
  - apply (filter_one_exception _ _ c0). intros c m Hm Hne.
    unfold isOpen. rewrite (H c m Hm); [reflexivity|]. rewrite Hc. congruence.
  - rewrite filter_all_false; [simpl; lia|]. intros c m Hm.
    unfold isOpen. rewrite (H c m Hm); [reflexivity|]. rewrite Hc. congruence.
Qed.

Lemma closeConnectionLocked_conn (r : ConnectionRegistry) :
  conn (closeConnectionLocked r) = None.
Proof. unfold closeConnectionLocked. destruct (conn r) eqn:H; auto. Qed.

Lemma closeConnectionLocked_closed (r : ConnectionRegistry) :
  closedExceptCurrent r -> closedExceptCurrent (closeConnectionLocked r).
Proof.
  intros H c m Hm _. unfold closeConnectionLocked in Hm.
  destruct (conn r) as [c0|] eqn:Hc; simpl in Hm.
  - destruct (decide (c = c0)) as [->|Hne].
    + rewrite list_lookup_alter_eq in Hm.
      destruct (heap r !! c0) as [m0|]; simplify_eq/=. reflexivity.
    + rewrite list_lookup_alter_ne in Hm by congruence.
      apply (H c m Hm). rewrite Hc. congruence.
  - apply (H c m Hm). rewrite Hc. congruence.
Qed.

(** [createConnectionLocked] keeps the invariant when it is called on a
    registry whose [conn] is nil, as [SubscribeWithParams] does. *)
Lemma createConnectionLocked_closed (r : ConnectionRegistry)
    (p : SubscriptionParams) (fn : nat) (res : RequestResult) (now : Z) :
  conn r = None ->
  closedExceptCurrent r ->
  closedExceptCurrent (fst (createConnectionLocked r p fn res now)).
Proof.
  intros Hc H. unfold createConnectionLocked.
  destruct (done r); [exact H|]. destruct res as [|err]; simpl.
  - intros c m Hm Hne. simpl in *.
    destruct (decide (c < List.length (heap r))%nat) as [Hlt|Hge].
    + rewrite lookup_app_l in Hm by exact Hlt.
      apply (H c m Hm). rewrite Hc. congruence.
    + apply lookup_lt_Some in Hm. rewrite length_app in Hm. simpl in Hm.
      exfalso. apply Hne. f_equal. lia.
  - exact H.
Qed.

Lemma setRequestFn_closed (fn : nat) (r : ConnectionRegistry) :
  closedExceptCurrent r -> closedExceptCurrent (setRequestFn fn r).
Proof. intros H. exact H. Qed.

Lemma emit_closed (es : list Effect) (r : ConnectionRegistry) :
  closedExceptCurrent r -> closedExceptCurrent (emit es r).
Proof. intros H. exact H. Qed.

Lemma SubscribeWithParams_closed (r : ConnectionRegistry)
    (p : SubscriptionParams) (fn : nat) (res : RequestResult) (now : Z) :
  closedExceptCurrent r ->
  closedExceptCurrent (fst (SubscribeWithParams r p fn res now)).
Proof.
  intros H. unfold SubscribeWithParams. destruct (conn r) as [c|] eqn:Hc.
  - cbv zeta.
    destruct (match heap r !! c with
              | Some m => Equals (params m) p && negb (ctxIsDone r m)
              | None => false
              end); [exact H|].
    apply createConnectionLocked_closed.
    + apply closeConnectionLocked_conn.
    + apply setRequestFn_closed, closeConnectionLocked_closed, H.
  - apply createConnectionLocked_closed; [exact Hc | exact H].
Qed.

Lemma setHeap_alter_closed (f : ConnectionMeta -> ConnectionMeta) (c : nat)
    (r : ConnectionRegistry) :
  (forall m, bodyClosed (f m) = bodyClosed m) ->
  closedExceptCurrent r ->
  closedExceptCurrent (setHeap (alter f c (heap r)) r).
Proof.
  intros Hf H c' m' Hm' Hne. simpl in *.
  destruct (decide (c' = c)) as [->|Hc].
  - rewrite list_lookup_alter_eq in Hm'.
    destruct (heap r !! c) as [m|] eqn:Hm; simplify_eq/=.
    rewrite Hf. apply (H c m Hm Hne).
  - rewrite list_lookup_alter_ne in Hm' by congruence.
    apply (H c' m' Hm' Hne).
Qed.

Lemma triggerReconnect_closed (r : ConnectionRegistry) :
  closedExceptCurrent r -> closedExceptCurrent (fst (triggerReconnect r)).
Proof.
  intros H. unfold triggerReconnect. destruct (done r); [exact H|].
  destruct (requestFn r); exact H.
Qed.

Lemma perform_closed (calls : list Callback) (s : System) :
  closedExceptCurrent (registry s) ->
  closedExceptCurrent (registry (perform calls s)).
Proof.
  revert s; induction calls as [|call calls IH]; intros s H; [exact H|].
  destruct call; simpl; try (apply IH; exact H).
  pose proof (triggerReconnect_closed (registry s) H) as Ht.
  destruct (triggerReconnect (registry s)) as [r l]. apply IH. exact Ht.
Qed.

Lemma checkConnectionHealth_closed (r : ConnectionRegistry) (timeout now : Z) :
  closedExceptCurrent r ->
  closedExceptCurrent (fst (checkConnectionHealth r timeout now)).
Proof.
  intros H. unfold checkConnectionHealth. destruct (done r); [exact H|].
  destruct (currentMeta r) as [m|]; [|exact H].
  destruct (timeout <? now - lastPingAt m); [|exact H].
  pose proof (closeConnectionLocked_closed r H) as Hc.
  destruct (requestFn r); exact Hc.
Qed.

Lemma reconnectStep_failure_closed (r : ConnectionRegistry) (st : LoopState)
    (err : string) (now : Z) :
  closedExceptCurrent r ->
  closedExceptCurrent (fst (reconnectStep r st (RequestError err) now)).
Proof.
  intros H. unfold reconnectStep. destruct (remaining st); [exact H|].
  unfold reconnectIteration. destruct (done r) eqn:Hd; [exact H|].
  unfold createConnectionLocked. cbn [emit done]. rewrite Hd.
  destruct (isPermanentError (establishError err)); exact H.
Qed.

Lemma Close_closed (r : ConnectionRegistry) :
  closedExceptCurrent r -> closedExceptCurrent (Close r).
Proof.
  intros H. pose proof (closeConnectionLocked_closed r H) as Hc. exact Hc.
Qed.

(** Every action other than a reconnect that obtains a response keeps the
    invariant. *)
Lemma step_closed (s : System) (a : Action) :
  isReconnectSuccess a = false ->
  closedExceptCurrent (registry s) ->
  closedExceptCurrent (registry (step s a)).
Proof.
  intros Ha H. destruct a as [p fn res now|c err|c|c now|now|i res now| |];
    cbn [step].
  - apply SubscribeWithParams_closed, H.
  - destruct (heap (registry s) !! c) as [m|]; [|exact H].
    destruct (readerRunning m); [|exact H].
    apply perform_closed. apply setHeap_alter_closed; [reflexivity | exact H].
  - apply setHeap_alter_closed; [reflexivity | exact H].
  - destruct (heap (registry s) !! c) as [m|]; [|exact H].
    destruct (readerRunning m && negb (bodyClosed m)); [|exact H].
    apply setHeap_alter_closed; [reflexivity | exact H].
  - pose proof (checkConnectionHealth_closed (registry s) PingTimeout now H)
      as Hh.
    destruct (checkConnectionHealth (registry s) PingTimeout now). exact Hh.
  - destruct (loops s !! i) as [st|]; [|exact H].
    destruct res as [|err]; [discriminate Ha|].
    pose proof (reconnectStep_failure_closed (registry s) st err now H) as Hr.
    destruct (reconnectStep (registry s) st (RequestError err) now)
      as [r' [st'|]]; exact Hr.
  - apply closeConnectionLocked_closed, H.
  - exact H.
Qed.

(** X1 -- from a new registry, whatever the calls of [SubscribeWithParams],
    the reader events, the health checks, the failed reconnect attempts and
    the calls of [Close], in any order: as long as no reconnect attempt
    obtains a response, at most one connection has its body open and its
    context alive. *)
Lemma single_open_stream_without_reconnect (actions : list Action) :
  Forall (fun a => isReconnectSuccess a = false) actions ->
  (openCount (registry (run initial actions)) <= 1)%nat.
Proof.
  intros H. apply openCount_closedExceptCurrent.
  assert (closedExceptCurrent (registry initial)) as Hinit.
  { intros c m Hm. simpl in Hm. rewrite lookup_nil in Hm. discriminate. }
  unfold run. revert Hinit. generalize initial as s.
  induction H as [|a actions Ha _ IH]; intros s Hs; [exact Hs|].
  simpl. apply IH. apply step_closed; assumption.
Qed.

(** A call with the parameters of the current connection, whose context is
    alive, changes nothing. *)
Lemma SubscribeWithParams_same (r : ConnectionRegistry) (m : ConnectionMeta)
    (p : SubscriptionParams) (fn : nat) (res : RequestResult) (now : Z) :
  currentMeta r = Some m ->
  Equals (params m) p = true ->
  ctxIsDone r m = false ->
  SubscribeWithParams r p fn res now = (r, None).
Proof.
  intros Hm He Hd. unfold SubscribeWithParams. unfold currentMeta in Hm.
  destruct (conn r) as [c|]; [|discriminate]. now rewrite Hm, He, Hd.
Qed.

(** X2 -- [SubscribeWithParams] with other parameters than those of the
    current connection, when the request succeeds: the body of the current
    connection is closed and its context cancelled before the request
    function is called, then the new connection is installed and its reader
    started. *)
Lemma SubscribeWithParams_swap (r : ConnectionRegistry) (c : nat)
    (m : ConnectionMeta) (p : SubscriptionParams) (fn : nat) (now : Z) :
  conn r = Some c ->
  heap r !! c = Some m ->
  Equals (params m) p = false ->
  done r = false ->
  let r' := fst (SubscribeWithParams r p fn Response now) in
  trace r' = trace r ++ [BodyClose c; Cancel c; Request fn;
                         GoProcessStream (List.length (heap r))]
  /\ conn r' = Some (List.length (heap r))
  /\ heap r' !! c = Some (closeMeta m)
  /\ heap r' !! List.length (heap r)
     = Some {| params := p; cancelled := false; bodyClosed := false;
               lastPingAt := now; readerRunning := true |}.
Proof.
  intros Hc Hm He Hd r'. subst r'. unfold SubscribeWithParams.
  rewrite Hc, Hm, He. cbn [andb].
  unfold closeConnectionLocked. rewrite Hc.
  unfold createConnectionLocked, setRequestFn. cbn [done]. rewrite Hd.
  cbn [fst trace conn heap]. rewrite length_alter.
  split; [now rewrite <- app_assoc|]. split; [reflexivity|]. split.
  - rewrite lookup_app_l by (rewrite length_alter; eapply lookup_lt_Some; eauto).
    rewrite list_lookup_alter_eq, Hm. reflexivity.
  - rewrite lookup_app_r by (rewrite length_alter; lia).
    rewrite length_alter, Nat.sub_diag. reflexivity.
Qed.

End registry_facts.

Section second_stream.

Context {tables : CaseTables}.

(** C2 -- an attempt of a reconnect loop that obtains a response, on a
    registry whose current connection is streaming (its body is open, its
    context alive, its reader running): [createConnectionLocked] installs
    the new meta and starts its reader without closing the current one.
    Both metas stream from then on, and the registry points to the new one
    only. *)
Theorem reconnect_installs_second_stream (r : ConnectionRegistry)
    (st : LoopState) (c : nat) (m : ConnectionMeta) (now : Z) :
  done r = false ->
  conn r = Some c ->
  heap r !! c = Some m ->
  isStreaming r m = true ->
  remaining st <> O ->
  let r' := (reconnectStep r st Response now).1 in
  let c' := List.length (heap r) in
  conn r' = Some c'
  /\ c <> c'
  /\ heap r' !! c = Some m
  /\ isStreaming r' m = true
  /\ (exists m', heap r' !! c' = Some m' /\ isStreaming r' m' = true
                 /\ params m' = loopParams st)
  /\ trace r' = trace r ++ [TimeAfter (backoff st); Request (loopFn st);
                            GoProcessStream c']
  /\ (2 <= streamingCount r')%nat.
Proof.
  intros Hd Hc Hm Hs Hrem r' c'.
  assert (r' = {| conn := Some c';
                  heap := heap r ++ [{| params := loopParams st;
                                        cancelled := false;
                                        bodyClosed := false;
                                        lastPingAt := now;
                                        readerRunning := true |}];
                  done := false;
                  reconnectConfig := reconnectConfig r;
                  requestFn := requestFn r;
                  trace := trace r ++ [TimeAfter (backoff st);
                                       Request (loopFn st);
                                       GoProcessStream c'] |}) as ->.
  { subst r'. unfold reconnectStep. destruct (remaining st); [congruence|].
    now rewrite reconnectIteration_success. }
  cbn [conn heap trace].
  assert (c < c')%nat as Hlt by (eapply lookup_lt_Some; eauto).
  assert (forall x, isStreaming
                      {| conn := Some c';
                         heap := heap r ++ [{| params := loopParams st;
                                               cancelled := false;
                                               bodyClosed := false;
                                               lastPingAt := now;
                                               readerRunning := true |}];
                         done := false;
                         reconnectConfig := reconnectConfig r;
                         requestFn := requestFn r;
                         trace := trace r ++ [TimeAfter (backoff st);
                                              Request (loopFn st);
                                              GoProcessStream c'] |} x
                    = isStreaming r x) as Hsame.
  { intros x. unfold isStreaming, isOpen, ctxIsDone. cbn [done].
    now rewrite Hd. }
  split; [reflexivity|]. split; [lia|]. split.
  { now rewrite lookup_app_l by exact Hlt. }
  split; [now rewrite Hsame|]. split.
  { eexists. split; [|split].
    - rewrite lookup_app_r by (subst c'; lia).
      subst c'. rewrite Nat.sub_diag. reflexivity.
    - rewrite Hsame. unfold isStreaming, isOpen, ctxIsDone. cbn.
      now rewrite Hd.
    - reflexivity. }
  split; [reflexivity|].
  unfold streamingCount. cbn [heap].
  rewrite (List.filter_ext _ _ Hsame), List.filter_app, length_app.
  assert (1 <= List.length (List.filter (isStreaming r) (heap r)))%nat.
  { assert (In m (List.filter (isStreaming r) (heap r))) as Hin.
    { apply List.filter_In. split; [|exact Hs].
      apply list_elem_of_In. eapply list_elem_of_lookup_2; eauto. }
    destruct (List.filter (isStreaming r) (heap r)); [inversion Hin|].
    simpl. lia. }
  assert (List.length
            (List.filter (isStreaming r)
               [{| params := loopParams st; cancelled := false;
                   bodyClosed := false; lastPingAt := now;
                   readerRunning := true |}]) = 1%nat) as ->.
  { unfold isStreaming, isOpen, ctxIsDone. cbn. now rewrite Hd. }
  lia.
Qed.

End second_stream.

(** The health monitor closes a stale connection and starts a reconnect
    loop; while the loop waits for its first backoff, a reconcile subscribes
    again and opens connection 1; then the attempt of the loop obtains a
    response and installs connection 2. *)
Lemma reconnect_installs_second_stream_witness :
  let p := {| ProjectID := "p1"; EnvSlug := "e1"; SecretsPath := "/a" |} in
  let s := run initial
             [DoSubscribe p 0 Response 0;
              DoHealthCheck (3 * Minute);
              DoSubscribe p 0 Response (3 * Minute);
              DoReconnect 0 Response (3 * Minute + Second)] in
  (2 <= streamingCount (registry s))%nat
  /\ conn (registry s) = Some 2%nat
  /\ heap (registry s) !! 1%nat
     = Some {| params := p; cancelled := false; bodyClosed := false;
               lastPingAt := 3 * Minute; readerRunning := true |}
  /\ trace (registry s)
     = [Request 0; GoProcessStream 0;
        BodyClose 0; Cancel 0; GoReconnectLoop p 0;
        Request 0; GoProcessStream 1;
        TimeAfter (1 * Second); Request 0; GoProcessStream 2].
Proof.
  intros p s.
  pose (before := run initial
                    [DoSubscribe p 0 Response 0;
                     DoHealthCheck (3 * Minute);
                     DoSubscribe p 0 Response (3 * Minute)]).
  destruct (reconnect_installs_second_stream (registry before)
              (startLoop NewConnectionRegistry p 0) 1
              {| params := p; cancelled := false; bodyClosed := false;
                 lastPingAt := 3 * Minute; readerRunning := true |}
              (3 * Minute + Second)
              eq_refl eq_refl eq_refl eq_refl ltac:(discriminate))
    as (Hconn & _ & Hold & _ & _ & Htrace & Hcount).
  split; [exact Hcount|]. split; [exact Hconn|].
  split; [exact Hold | exact Htrace].
Defined.

(** ** Package [infisicalsecret]: labels, annotations and tracking *)

Import Infisicalsecret.

Section writer_facts.

(** What a [range] loop that assigns under a condition leaves in the
    destination map, whatever the order of the iteration. *)
Lemma lookup_rangeInsert {A B : Type} (keep : string -> A -> bool)
    (val : string -> A -> B) (src : gmap string A) (dst : gmap string B)
    (k : string) :
  rangeInsert keep val src dst !! k
  = match src !! k with
    | Some v => if keep k v then Some (val k v) else dst !! k
    | None => dst !! k
    end.
Proof.
  unfold rangeInsert.
  apply (map_fold_weak_ind
           (fun (r : gmap string B) (m : gmap string A) =>
              r !! k = match m !! k with
                       | Some v => if keep k v then Some (val k v) else dst !! k
                       | None => dst !! k
                       end)).
  - now rewrite lookup_empty.
  - intros i x m r Hi IH. destruct (decide (i = k)) as [->|Hne].
    + rewrite lookup_insert_eq. rewrite Hi in IH.
      destruct (keep k x); [apply lookup_insert_eq | exact IH].
    + rewrite lookup_insert_ne by exact Hne.
      destruct (keep i x); [rewrite lookup_insert_ne by exact Hne|]; exact IH.
Qed.

Lemma rangeInsert_copy (m : gmap string string) :
  rangeInsert always itself m ∅ = m.
Proof.
  apply map_eq. intros k. rewrite lookup_rangeInsert, lookup_empty.
  destruct (m !! k); reflexivity.
Qed.

(** The keys of a key set built by a loop. *)
Lemma lookup_keySet {A : Type} (keep : string -> A -> bool)
    (m : gmap string A) (k : string) :
  is_Some (rangeInsert keep managed m ∅ !! k)
  <-> exists v, m !! k = Some v /\ keep k v = true.
Proof.
  rewrite lookup_rangeInsert, lookup_empty. destruct (m !! k) as [v|].
  - destruct (keep k v) eqn:Hk.
    + split; [intros _; eauto | intros _; eauto].
    + split; [intros [? [=]] | intros (v' & [= <-] & ?); congruence].
  - split; [intros [? [=]] | intros (v' & [=] & ?)].
Qed.

Lemma elem_of_rangeKeys {A : Type} (m : gmap string A) (k : string) :
  k ∈ rangeKeys m <-> is_Some (m !! k).
Proof.
  unfold rangeKeys. rewrite list_elem_of_fmap. split.
  - intros ([k' v] & -> & Hin). apply elem_of_map_to_list in Hin. eauto.
  - intros [v Hv]. exists (k, v). split; [reflexivity|].
    now apply elem_of_map_to_list.
Qed.

Lemma NoDup_rangeKeys {A : Type} (m : gmap string A) : NoDup (rangeKeys m).
Proof. apply NoDup_fst_map_to_list. Qed.

(** [sort.Strings] makes the result independent of the order in which
    [range] yields the keys. *)
Lemma joinSorted_Permutation (l1 l2 : list string) :
  l1 ≡ₚ l2 -> joinSorted l1 = joinSorted l2.
Proof.
  intros Hp. unfold joinSorted. f_equal.
  apply (Sorted_unique String.le).
  - apply Sorted_merge_sort; apply _.
  - apply Sorted_merge_sort; apply _.
  - now rewrite !merge_sort_Permutation.
Qed.

(** [formatManagedKeys] joins the sorted list of the keys of the set. *)
Lemma formatManagedKeys_sorted (keys : gmap string bool) :
  exists ks : list string,
    Sorted String.le ks /\ NoDup ks
    /\ (forall k, k ∈ ks <-> is_Some (keys !! k))
    /\ formatManagedKeys keys = Join ks ",".
Proof.
  unfold formatManagedKeys. destruct (Nat.eqb_spec (size keys) 0) as [Hz|Hnz].
  - exists []. apply map_size_empty_iff in Hz. subst keys.
    repeat split; try constructor.
    + intros Hin. inversion Hin.
    + rewrite lookup_empty. intros [? [=]].
  - exists (merge_sort String.le (rangeKeys keys)). repeat split.
    + apply Sorted_merge_sort; apply _.
    + rewrite merge_sort_Permutation. apply NoDup_rangeKeys.
    + rewrite merge_sort_Permutation. apply elem_of_rangeKeys.
    + rewrite merge_sort_Permutation. apply elem_of_rangeKeys.
Qed.

Lemma lookup_newLabels (infisicalSecret : InfisicalSecret)
    (existingAnnotations existingLabels : gmap string string) (k : string) :
  (syncLabelsAndAnnotations infisicalSecret existingAnnotations
     existingLabels).2 !! k
  = match Labels infisicalSecret !! k with
    | Some v => Some v
    | None =>
        match existingLabels !! k with
        | Some v =>
            if boolAt (parseManagedKeys
                         (stringAt existingAnnotations
                            MANAGED_LABELS_ANNOTATION)) k
            then None else Some v
        | None => None
        end
    end.
Proof.
  unfold syncLabelsAndAnnotations. cbn [snd].
  rewrite !lookup_rangeInsert, lookup_empty.
  destruct (Labels infisicalSecret !! k); [reflexivity|].
  destruct (existingLabels !! k); [|reflexivity].
  now destruct (boolAt _ k).
Qed.

Lemma tracking_annotations_distinct :
  MANAGED_LABELS_ANNOTATION <> MANAGED_ANNOTATIONS_ANNOTATION
  /\ MANAGED_LABELS_ANNOTATION <> SECRET_VERSION_ANNOTATION
  /\ MANAGED_ANNOTATIONS_ANNOTATION <> SECRET_VERSION_ANNOTATION.
Proof. repeat split; discriminate. Qed.

Lemma lookup_sync_managed_labels (infisicalSecret : InfisicalSecret)
    (existingAnnotations existingLabels : gmap string string) :
  (syncLabelsAndAnnotations infisicalSecret existingAnnotations
     existingLabels).1 !! MANAGED_LABELS_ANNOTATION
  = Some (formatManagedKeys
            (rangeInsert always managed (Labels infisicalSecret) ∅)).
Proof.
  unfold syncLabelsAndAnnotations. cbn [fst].
  rewrite lookup_insert_ne by discriminate. apply lookup_insert_eq.
Qed.

Lemma lookup_sync_managed_annotations (infisicalSecret : InfisicalSecret)
    (existingAnnotations existingLabels : gmap string string) :
  (syncLabelsAndAnnotations infisicalSecret existingAnnotations
     existingLabels).1 !! MANAGED_ANNOTATIONS_ANNOTATION
  = Some (formatManagedKeys
            (rangeInsert notSystem managed (Annotations infisicalSecret) ∅)).
Proof.
  unfold syncLabelsAndAnnotations. cbn [fst]. apply lookup_insert_eq.
Qed.

End writer_facts.

(** C5 -- with the labels [E] of the existing object, the keys [P] parsed
    from its [managed-labels] annotation and the labels [Lc] of the
    resource, [syncLabelsAndAnnotations] returns the labels of [E] whose key
    is not in [P], overlaid with [Lc], and sets the [managed-labels]
    annotation to the keys of [Lc], sorted and joined by commas.  A key of
    [P] that is not in [Lc] is removed; a label of [E] whose key is neither
    in [P] nor in [Lc] is kept. *)
Theorem syncLabelsAndAnnotations_three_way
    (infisicalSecret : InfisicalSecret)
    (existingAnnotations E : gmap string string) :
  let P := parseManagedKeys
             (stringAt existingAnnotations MANAGED_LABELS_ANNOTATION) in
  let Lc := Labels infisicalSecret in
  let newAnnotations :=
    (syncLabelsAndAnnotations infisicalSecret existingAnnotations E).1 in
  let newLabels :=
    (syncLabelsAndAnnotations infisicalSecret existingAnnotations E).2 in
  newLabels = Lc ∪ filter (fun kv => boolAt P kv.1 = false) E
  /\ (exists keys : list string,
        Sorted String.le keys /\ NoDup keys
        /\ (forall k, k ∈ keys <-> is_Some (Lc !! k))
        /\ newAnnotations !! MANAGED_LABELS_ANNOTATION = Some (Join keys ","))
  /\ (forall k, boolAt P k = true -> Lc !! k = None -> newLabels !! k = None)
  /\ (forall k v,
        E !! k = Some v -> boolAt P k = false -> Lc !! k = None ->
        newLabels !! k = Some v).
Proof.
  intros P Lc newAnnotations newLabels.
  assert (forall k, newLabels !! k
                    = match Lc !! k with
                      | Some v => Some v
                      | None => match E !! k with
                                | Some v => if boolAt P k then None else Some v
                                | None => None
                                end
                      end) as Hlookup.
  { intros k. apply lookup_newLabels. }
  split; [|split; [|split]].
  - apply map_eq. intros k. rewrite Hlookup.
    destruct (Lc !! k) as [v|] eqn:HLc.
    + symmetry. now apply lookup_union_Some_l.
    + rewrite lookup_union_r by exact HLc.
      destruct (E !! k) as [v|] eqn:HE.
      * destruct (boolAt P k) eqn:HP; symmetry.
        -- apply map_lookup_filter_None. right. intros x _. simpl. congruence.
        -- apply map_lookup_filter_Some. split; [exact HE | exact HP].
      * symmetry. apply map_lookup_filter_None. now left.
  - subst newAnnotations. rewrite lookup_sync_managed_labels.
    destruct (formatManagedKeys_sorted
                (rangeInsert always managed (Labels infisicalSecret) ∅))
      as (ks & Hsorted & Hnodup & Hin & Hfmt).
    exists ks. repeat split; try assumption.
    + intros Hk. apply Hin, lookup_keySet in Hk as (v & Hv & _). eauto.
    + intros [v Hv]. apply Hin, lookup_keySet. eauto.
    + now rewrite Hfmt.
  - intros k HP HLc. rewrite Hlookup, HLc, HP. now destruct (E !! k).
  - intros k v HE HP HLc. now rewrite Hlookup, HLc, HE, HP.
Qed.

Lemma syncLabelsAndAnnotations_three_way_witness :
  let cr := {| Labels := <["team" := "a"]> (<["tier" := "gold"]> ∅);
               Annotations := ∅ |} in
  let annotations : gmap string string :=
    <[MANAGED_LABELS_ANNOTATION := "team,zone"]> ∅ in
  let labels : gmap string string :=
    <["team" := "a"]> (<["zone" := "eu"]> (<["owner" := "ops"]> ∅)) in
  (syncLabelsAndAnnotations cr annotations labels).2 !! "zone" = None
  /\ (syncLabelsAndAnnotations cr annotations labels).2 !! "owner" = Some "ops".
Proof.
  intros cr annotations labels.
  destruct (syncLabelsAndAnnotations_three_way cr annotations labels)
    as (_ & _ & Hremoved & Hkept).
  split.
  - apply Hremoved; vm_compute; reflexivity.
  - apply Hkept; vm_compute; reflexivity.
Defined.

(** ** Package [infisicalsecret]: the markers of a managed object *)

Section marker_facts.

Variable executeTemplate :
  string -> gmap string SecretTemplateOptions -> TemplateFailure + string.

Lemma lookup_notSystem_copy (m : gmap string string) (k : string) :
  rangeInsert notSystem itself m ∅ !! k
  = if isSystem k then None else m !! k.
Proof.
  rewrite lookup_rangeInsert, lookup_empty. unfold notSystem, itself.
  destruct (m !! k); destruct (isSystem k); reflexivity.
Qed.

(** The three annotations of an object that is created. *)
Lemma create_markers (infisicalSecret : InfisicalSecret)
    (reference : ManagedReference)
    (secretsFromAPI : list SingleEnvironmentVariable) (ETag : string)
    (resourceType : ManagedKubeResourceType) (obj : ManagedObject) :
  createInfisicalManagedKubeResource executeTemplate infisicalSecret reference
    secretsFromAPI ETag resourceType = inr obj ->
  ObjAnnotations obj !! MANAGED_LABELS_ANNOTATION
  = Some (formatManagedKeys
            (rangeInsert always managed (Labels infisicalSecret) ∅))
  /\ ObjAnnotations obj !! MANAGED_ANNOTATIONS_ANNOTATION
     = Some (formatManagedKeys
               (rangeInsert notSystem managed (Annotations infisicalSecret) ∅))
  /\ ObjAnnotations obj !! SECRET_VERSION_ANNOTATION
     = match resourceType with
       | MANAGED_KUBE_RESOURCE_TYPE_SECRET => Some ETag
       | MANAGED_KUBE_RESOURCE_TYPE_CONFIG_MAP =>
           Annotations infisicalSecret !! SECRET_VERSION_ANNOTATION
       end.
Proof.
  unfold createInfisicalManagedKubeResource.
  destruct (processSecrets executeTemplate (Template reference) secretsFromAPI)
    as [err|data]; [discriminate|].
  destruct resourceType; intros [= <-]; cbn [ObjAnnotations].
  - split; [|split].
    + rewrite lookup_insert_ne by discriminate.
      rewrite lookup_insert_ne by discriminate. apply lookup_insert_eq.
    + rewrite lookup_insert_ne by discriminate. apply lookup_insert_eq.
    + apply lookup_insert_eq.
  - split; [|split].
    + rewrite lookup_insert_ne by discriminate. apply lookup_insert_eq.
    + apply lookup_insert_eq.
    + rewrite lookup_insert_ne by discriminate.
      rewrite lookup_insert_ne by discriminate.
      apply lookup_notSystem_copy.
Qed.

(** The three annotations of an object that is updated. *)
Lemma update_markers (infisicalSecret : InfisicalSecret)
    (reference : ManagedReference) (existing : ManagedObject)
    (secretsFromAPI : list SingleEnvironmentVariable) (ETag : string)
    (obj : ManagedObject) :
  updateInfisicalManaged executeTemplate infisicalSecret reference existing
    secretsFromAPI ETag = inr obj ->
  ObjAnnotations obj !! MANAGED_LABELS_ANNOTATION
  = Some (formatManagedKeys
            (rangeInsert always managed (Labels infisicalSecret) ∅))
  /\ ObjAnnotations obj !! MANAGED_ANNOTATIONS_ANNOTATION
     = Some (formatManagedKeys
               (rangeInsert notSystem managed (Annotations infisicalSecret) ∅))
  /\ ObjAnnotations obj !! SECRET_VERSION_ANNOTATION = Some ETag.
Proof.
  unfold updateInfisicalManaged.
  destruct (processSecrets executeTemplate (Template reference) secretsFromAPI)
    as [err|data]; [discriminate|].
  pose proof (lookup_sync_managed_labels infisicalSecret
                (ObjAnnotations existing) (ObjLabels existing)) as Hl.
  pose proof (lookup_sync_managed_annotations infisicalSecret
                (ObjAnnotations existing) (ObjLabels existing)) as Ha.
  destruct (syncLabelsAndAnnotations infisicalSecret (ObjAnnotations existing)
              (ObjLabels existing)) as [newAnnotations newLabels].
  cbn [fst] in Hl, Ha. intros [= <-]; cbn [ObjAnnotations].
  split; [|split].
  - rewrite lookup_insert_ne by discriminate. exact Hl.
  - rewrite lookup_insert_ne by discriminate. exact Ha.
  - apply lookup_insert_eq.
Qed.

(** A secret that is created, and a secret or a config map that is updated,
    carry the three markers, the version being the etag. *)
Lemma written_markers_complete (infisicalSecret : InfisicalSecret)
    (reference : ManagedReference) (resourceType : ManagedKubeResourceType)
    (existing : option ManagedObject)
    (secretsFromAPI : list SingleEnvironmentVariable) (ETag : string)
    (obj : ManagedObject) :
  match existing with
  | Some found =>
      updateInfisicalManaged executeTemplate infisicalSecret reference found
        secretsFromAPI ETag
  | None =>
      createInfisicalManagedKubeResource executeTemplate infisicalSecret
        reference secretsFromAPI ETag resourceType
  end = inr obj ->
  existing <> None \/ resourceType = MANAGED_KUBE_RESOURCE_TYPE_SECRET ->
  is_Some (ObjAnnotations obj !! MANAGED_LABELS_ANNOTATION)
  /\ is_Some (ObjAnnotations obj !! MANAGED_ANNOTATIONS_ANNOTATION)
  /\ ObjAnnotations obj !! SECRET_VERSION_ANNOTATION = Some ETag.
Proof.
  intros H Hpath. destruct existing as [found|].
  - apply update_markers in H as (-> & -> & ->). eauto.
  - destruct Hpath as [Hex | ->]; [congruence|].
    apply create_markers in H as (-> & -> & ->). eauto.
Qed.

End marker_facts.

(** C7 -- a config map that is created carries the two tracking
    annotations, but [infisical.secret-version] is not set to the etag: the
    assignment is in the branch of the secret only.  The config map has the
    version annotation of the resource itself, that is none when the
    resource has none. *)
Theorem created_config_map_lacks_secret_version
    (executeTemplate :
       string -> gmap string SecretTemplateOptions -> TemplateFailure + string)
    (infisicalSecret : InfisicalSecret) (reference : ManagedReference)
    (secretsFromAPI : list SingleEnvironmentVariable) (ETag : string)
    (obj : ManagedObject) :
  createInfisicalManagedKubeResource executeTemplate infisicalSecret reference
    secretsFromAPI ETag MANAGED_KUBE_RESOURCE_TYPE_CONFIG_MAP = inr obj ->
  Annotations infisicalSecret !! SECRET_VERSION_ANNOTATION = None ->
  is_Some (ObjAnnotations obj !! MANAGED_LABELS_ANNOTATION)
  /\ is_Some (ObjAnnotations obj !! MANAGED_ANNOTATIONS_ANNOTATION)
  /\ ObjAnnotations obj !! SECRET_VERSION_ANNOTATION = None.
Proof.
  intros H Hnone. apply create_markers in H as (-> & -> & ->). eauto.
Qed.

Lemma created_config_map_lacks_secret_version_witness :
  let noTemplate := fun (_ : string) (_ : gmap string SecretTemplateOptions) =>
                      inr "" : TemplateFailure + string in
  let cr := {| Labels := <["team" := "a"]> ∅; Annotations := ∅ |} in
  let reference := {| RefName := "app-config"; RefNamespace := "default";
                      RefType := ""; CreationPolicy := "Owner";
                      Template := None |} in
  let secrets := [{| Key := "FOO"; Value := "1"; SecretPath := "/" |};
                  {| Key := "BAR"; Value := "2"; SecretPath := "/" |}] in
  exists obj,
    createInfisicalManagedKubeResource noTemplate cr reference secrets
      "W/secrets-etag" MANAGED_KUBE_RESOURCE_TYPE_CONFIG_MAP = inr obj
    /\ ObjAnnotations obj !! SECRET_VERSION_ANNOTATION = None
    /\ ObjAnnotations obj !! MANAGED_LABELS_ANNOTATION = Some "team".
Proof.
  intros noTemplate cr reference secrets.
  eexists. split; [vm_compute; reflexivity|].
  split.
  - refine (proj2 (proj2 (created_config_map_lacks_secret_version noTemplate cr
                            reference secrets "W/secrets-etag" _ _ _))).
    + vm_compute. reflexivity.
    + vm_compute. reflexivity.
  - vm_compute. reflexivity.
Defined.

(** ** Package [infisicalsecret]: reading a tracking annotation back *)

Section tracking_facts.

(** The keys that the loop of [parseManagedKeys] has set after the pieces
    [pieces]. *)
Lemma parse_fold_spec (pieces : list string) (acc : gmap string bool)
    (k : string) :
  boolAt
    (fold_left
       (fun managedKeys key =>
          let key := TrimSpace key in
          if negb (String.eqb key "") then <[key := true]> managedKeys
          else managedKeys) pieces acc) k = true
  <-> boolAt acc k = true
      \/ (k <> "" /\ exists piece, piece ∈ pieces /\ TrimSpace piece = k).
Proof.
  revert acc; induction pieces as [|x pieces IH]; intros acc; simpl.
  - split; [auto | intros [H|(_ & p & Hp & _)]; [exact H | inversion Hp]].
  - rewrite IH. clear IH.
    assert ((exists piece, piece ∈ x :: pieces /\ TrimSpace piece = k)
            <-> TrimSpace x = k
                \/ exists piece, piece ∈ pieces /\ TrimSpace piece = k)
      as ->.
    { split.
      - intros (p & Hp & Ht). apply elem_of_cons in Hp as [->|Hp]; eauto.
      - intros [Ht|(p & Hp & Ht)].
        + exists x. split; [apply elem_of_cons; auto | exact Ht].
        + exists p. split; [apply elem_of_cons; auto | exact Ht]. }
    destruct (String.eqb_spec (TrimSpace x) "") as [Hx|Hx]; simpl.
    + split; [tauto|]. intros [H|(Hk & [Ht|H])]; [tauto | congruence | tauto].
    + unfold boolAt at 1. destruct (decide (TrimSpace x = k)) as [Hxk|Hxk].
      * rewrite Hxk, lookup_insert_eq. simpl. split; [|tauto].
        intros _. right. split; [congruence | tauto].
      * rewrite lookup_insert_ne by exact Hxk. fold (boolAt acc k). tauto.
Qed.

Lemma boolAt_empty (k : string) : boolAt ∅ k = false.
Proof. unfold boolAt. now rewrite lookup_empty. Qed.

(** [parseManagedKeys] finds the trimmed, non-empty pieces between the
    commas. *)
Lemma parseManagedKeys_spec (value k : string) :
  boolAt (parseManagedKeys value) k = true
  <-> k <> "" /\ exists piece,
                  piece ∈ SplitByte value "," /\ TrimSpace piece = k.
Proof.
  unfold parseManagedKeys. destruct (String.eqb_spec value "") as [->|Hv].
  - rewrite boolAt_empty. split; [discriminate|].
    intros (Hk & p & Hp & Ht). simpl in Hp.
    apply list_elem_of_singleton in Hp as ->. vm_compute in Ht. congruence.
  - rewrite parse_fold_spec, boolAt_empty. split.
    + intros [|H]; [discriminate | exact H].
    + intros H. right. exact H.
Qed.

(** On keys without comma and without outer white space, parsing reads back
    the keys that were joined. *)
Lemma parseManagedKeys_Join (ks : list string) (k : string) :
  Forall (fun k => cleanKey k = true) ks ->
  boolAt (parseManagedKeys (Join ks ",")) k = true <-> k ∈ ks.
Proof.
  intros Hclean. rewrite parseManagedKeys_spec.
  assert (Forall (fun k => IndexByte k "," = -1) ks) as Hcomma.
  { eapply Forall_impl; [exact Hclean|]. intros x Hx. unfold cleanKey in Hx.
    apply andb_true_iff in Hx as [Hx _]. apply andb_true_iff in Hx as [Hx _].
    now apply Z.eqb_eq in Hx. }
  destruct ks as [|e ks].
  - simpl. split.
    + intros (Hk & p & Hp & Ht). apply list_elem_of_singleton in Hp as ->.
      vm_compute in Ht. congruence.
    + intros Hin. inversion Hin.
  - rewrite SplitByte_Join by (try discriminate; exact Hcomma).
    rewrite Forall_forall in Hclean. split.
    + intros (Hk & p & Hp & Ht). specialize (Hclean p Hp).
      unfold cleanKey in Hclean. apply andb_true_iff in Hclean as [Hc _].
      apply andb_true_iff in Hc as [_ Hc]. apply String.eqb_eq in Hc.
      congruence.
    + intros Hin. specialize (Hclean k Hin). unfold cleanKey in Hclean.
      apply andb_true_iff in Hclean as [Hc Hne].
      apply andb_true_iff in Hc as [_ Hc]. apply String.eqb_eq in Hc.
      apply negb_true_iff, String.eqb_neq in Hne.
      split; [exact Hne|]. now exists k.
Qed.

(** The keys tracked in an annotation, read back. *)
Lemma parse_tracking {A : Type} (keep : string -> A -> bool)
    (m : gmap string A) (k : string) :
  cleanKeys m = true ->
  boolAt (parseManagedKeys (formatManagedKeys (rangeInsert keep managed m ∅)))
    k = true
  <-> exists v, m !! k = Some v /\ keep k v = true.
Proof.
  intros Hclean.
  destruct (formatManagedKeys_sorted (rangeInsert keep managed m ∅))
    as (ks & _ & _ & Hin & ->).
  rewrite parseManagedKeys_Join.
  - rewrite Hin. apply lookup_keySet.
  - apply Forall_forall. intros x Hx. apply Hin, lookup_keySet in Hx
      as (v & Hv & _).
    unfold cleanKeys in Hclean. rewrite forallb_forall in Hclean.
    apply Hclean. apply list_elem_of_In, elem_of_rangeKeys. eauto.
Qed.

Lemma stringAt_Some (m : gmap string string) (k v : string) :
  m !! k = Some v -> stringAt m k = v.
Proof. unfold stringAt. now intros ->. Qed.

End tracking_facts.

(** C8 (as amended) -- for a resource whose annotation keys have no comma
    and no outer white space, a key that begins with a system prefix is
    never among the keys that the [managed-annotations] annotation of a
    created or updated object lists: that annotation lists the annotation
    keys of the resource without a system prefix.  Label keys are not
    filtered: when they have no comma and no outer white space either, the
    [managed-labels] annotation lists every label key of the resource. *)
Theorem managed_annotations_exclude_system_keys
    (executeTemplate :
       string -> gmap string SecretTemplateOptions -> TemplateFailure + string)
    (infisicalSecret : InfisicalSecret) (reference : ManagedReference)
    (existing : option ManagedObject)
    (secretsFromAPI : list SingleEnvironmentVariable) (ETag : string)
    (resourceType : ManagedKubeResourceType) (obj : ManagedObject) :
  match existing with
  | Some found =>
      updateInfisicalManaged executeTemplate infisicalSecret reference found
        secretsFromAPI ETag
  | None =>
      createInfisicalManagedKubeResource executeTemplate infisicalSecret
        reference secretsFromAPI ETag resourceType
  end = inr obj ->
  let listed (annotation k : string) :=
    boolAt (parseManagedKeys (stringAt (ObjAnnotations obj) annotation)) k in
  (cleanKeys (Annotations infisicalSecret) = true ->
   forall k,
     listed MANAGED_ANNOTATIONS_ANNOTATION k = true
     <-> is_Some (Annotations infisicalSecret !! k) /\ isSystem k = false)
  /\ (cleanKeys (Annotations infisicalSecret) = true ->
      forall k,
        isSystem k = true -> listed MANAGED_ANNOTATIONS_ANNOTATION k = false)
  /\ (cleanKeys (Labels infisicalSecret) = true ->
      forall k,
        listed MANAGED_LABELS_ANNOTATION k = true
        <-> is_Some (Labels infisicalSecret !! k)).
Proof.
  intros H listed.
  assert (ObjAnnotations obj !! MANAGED_LABELS_ANNOTATION
          = Some (formatManagedKeys
                    (rangeInsert always managed (Labels infisicalSecret) ∅))
          /\ ObjAnnotations obj !! MANAGED_ANNOTATIONS_ANNOTATION
             = Some (formatManagedKeys
                       (rangeInsert notSystem managed
                          (Annotations infisicalSecret) ∅))) as [Hl Ha].
  { destruct existing as [found|].
    - apply update_markers in H as (? & ? & _). auto.
    - apply create_markers in H as (? & ? & _). auto. }
  apply stringAt_Some in Hl, Ha. subst listed. cbv beta.
  assert (cleanKeys (Annotations infisicalSecret) = true ->
          forall k,
            boolAt (parseManagedKeys
                      (stringAt (ObjAnnotations obj)
                         MANAGED_ANNOTATIONS_ANNOTATION)) k = true
            <-> is_Some (Annotations infisicalSecret !! k)
                /\ isSystem k = false) as Hlisted.
  { intros Hclean k. rewrite Ha, parse_tracking by exact Hclean.
    unfold notSystem. split.
    - intros (v & Hv & Hs). apply negb_true_iff in Hs. eauto.
    - intros ([v Hv] & Hs). exists v. now rewrite Hs. }
  split; [exact Hlisted|]. split.
  - intros Hclean k Hs. apply not_true_is_false. intros Hk.
    apply (Hlisted Hclean) in Hk as [_ Hk]. congruence.
  - intros Hclean k. rewrite Hl, parse_tracking by exact Hclean.
    unfold always. split.
    + intros (v & Hv & _). eauto.
    + intros [v Hv]. eauto.
Qed.

Lemma managed_annotations_exclude_system_keys_witness :
  let noTemplate := fun (_ : string) (_ : gmap string SecretTemplateOptions) =>
                      inr "" : TemplateFailure + string in
  let cr := {| Labels := <["team" := "a"]> ∅;
               Annotations := <["helm.sh/hook" := "pre-install"]>
                                (<["note" := "n"]> ∅) |} in
  let reference := {| RefName := "app-secret"; RefNamespace := "default";
                      RefType := "Opaque"; CreationPolicy := "Owner";
                      Template := None |} in
  exists obj,
    createInfisicalManagedKubeResource noTemplate cr reference [] "etag"
      MANAGED_KUBE_RESOURCE_TYPE_SECRET = inr obj
    /\ boolAt (parseManagedKeys
                 (stringAt (ObjAnnotations obj) MANAGED_ANNOTATIONS_ANNOTATION))
         "helm.sh/hook" = false
    /\ boolAt (parseManagedKeys
                 (stringAt (ObjAnnotations obj) MANAGED_ANNOTATIONS_ANNOTATION))
         "note" = true.
Proof.
  intros noTemplate cr reference.
  eexists. split; [vm_compute; reflexivity|].
  destruct (managed_annotations_exclude_system_keys noTemplate cr reference
              None [] "etag" MANAGED_KUBE_RESOURCE_TYPE_SECRET _ eq_refl)
    as (Hlisted & Hsystem & _).
  split.
  - apply Hsystem; vm_compute; reflexivity.
  - apply Hlisted; [vm_compute; reflexivity|].
    split; [eexists; vm_compute; reflexivity | vm_compute; reflexivity].
Defined.

(** C8, as the specification words it, fails for labels: the label key
    ["kubernetes.io/name"] begins with a system prefix and is listed in the
    [managed-labels] annotation of the object that is created, and of the
    object that is updated. *)
Lemma managed_labels_list_system_key :
  let noTemplate := fun (_ : string) (_ : gmap string SecretTemplateOptions) =>
                      inr "" : TemplateFailure + string in
  let cr := {| Labels := <["kubernetes.io/name" := "app"]> ∅;
               Annotations := ∅ |} in
  let reference := {| RefName := "app-secret"; RefNamespace := "default";
                      RefType := "Opaque"; CreationPolicy := "Owner";
                      Template := None |} in
  isSystem "kubernetes.io/name" = true
  /\ (exists obj,
        createInfisicalManagedKubeResource noTemplate cr reference [] "etag"
          MANAGED_KUBE_RESOURCE_TYPE_SECRET = inr obj
        /\ ObjAnnotations obj !! MANAGED_LABELS_ANNOTATION
           = Some "kubernetes.io/name")
  /\ (syncLabelsAndAnnotations cr ∅ ∅).1 !! MANAGED_LABELS_ANNOTATION
     = Some "kubernetes.io/name"
  /\ boolAt (parseManagedKeys "kubernetes.io/name") "kubernetes.io/name" = true.
Proof.
  intros noTemplate cr reference. split; [reflexivity|]. split; [|split].
  - eexists. split; vm_compute; reflexivity.
  - vm_compute. reflexivity.
  - vm_compute. reflexivity.
Qed.

(** ** Package [sse]: further properties of the reader *)

Section reader_facts.

Context {tables : CaseTables}.

Lemma processLine_ignored (line : string) (event : Event)
    (dataBuilder : string) :
  isIgnoredLine line = true ->
  processLine line event dataBuilder = ([], event, dataBuilder).
Proof.
  unfold isIgnoredLine, processLine, parseLine.
  intros H. apply andb_true_iff in H as [Hlen H].
  apply negb_true_iff in Hlen. rewrite Hlen. cbv zeta in *.
  destruct (IndexByte line ":" =? -1); [reflexivity|]. simpl in H.
  apply negb_true_iff in H. apply orb_false_iff in H as [H Hid].
  apply orb_false_iff in H as [Hdata Hevent].
  now rewrite Hdata, Hevent, Hid.
Qed.

End reader_facts.

Section named_events.

Context {tables : CaseTables}.

(** X3 -- the round trip of the [framed] events: the events that have an
    [event] field and no [retry] value, whose id, event and lines of data
    have no LF, do not end in CR and fit in the buffer of the scanner, and
    whose data do not begin with an empty line.  For every sequence of such
    events, the reader of their encoding hands to [onEvent] exactly the
    events that are not pings, in order, and updates [lastPingAt] once for
    each ping.  (The reader drops an empty first line of the data, and it
    reads no [retry] value.) *)
Theorem named_events_round_trip (events : list Event) :
  Forall framed events ->
  let calls := processStream neverDone (mkBody (encodeEvents events) None) in
  dispatched calls = List.filter (fun e => negb (isPingEvent e)) events
  /\ pingUpdates calls = List.length (List.filter isPingEvent events).
Proof.
  intros H calls. destruct (processStream_round_trip events H) as (_ & Hd & Hp).
  split; [exact Hd | exact Hp].
Qed.

End named_events.

Lemma named_events_round_trip_witness :
  let create := {| ID := "41"; Event_ := "secret:create";
                   Data := "{" +:+ String LF "}"; Retry := 0 |} in
  let ping := {| ID := ""; Event_ := "ping"; Data := "1"; Retry := 0 |} in
  dispatched (processStream neverDone
                (mkBody (encodeEvents [create; ping; create]) None))
  = [create; create]
  /\ pingUpdates (processStream neverDone
                    (mkBody (encodeEvents [create; ping; create]) None)) = 1%nat.
Proof.
  intros create ping.
  assert (forall v, IndexByte v LF = -1 ->
                    HasSuffix v (String CR "") = false ->
                    (String.length v < 100)%nat -> lineSafe v) as Hsafe.
  { intros v H1 H2 H3. repeat split; try assumption.
    unfold len, MaxScanTokenSize. lia. }
  assert (Forall framed [create; ping; create]) as Hf.
  { repeat constructor; try discriminate; try reflexivity;
      apply Hsafe; try reflexivity; simpl; lia. }
  destruct (named_events_round_trip _ Hf) as [Hd Hp].
  split; [exact Hd | exact Hp].
Defined.

Section ignored_lines.

Context {tables : CaseTables}.

(** X4 -- the lines that [parseLine] ignores (comments, [retry], unknown
    fields, lines without colon) have no effect on the reader: it makes the
    same calls, in the same order, as on the lines without them. *)
Theorem ignored_lines_have_no_effect (lines : list string) (event : Event)
    (dataBuilder : string) :
  processLines neverDone 0 lines event dataBuilder
  = processLines neverDone 0
      (List.filter (fun line => negb (isIgnoredLine line)) lines)
      event dataBuilder.
Proof.
  revert event dataBuilder; induction lines as [|line lines IH];
    intros event dataBuilder; [reflexivity|].
  cbn [List.filter]. destruct (isIgnoredLine line) eqn:Hi; cbn [negb].
  - rewrite (processLines_step _ _ _ _ _ _ _
               (processLine_ignored line event dataBuilder Hi)).
    rewrite <- IH. now destruct (processLines neverDone 0 lines event dataBuilder).
  - destruct (processLine line event dataBuilder) as [[calls ev] b] eqn:Hp.
    rewrite !(processLines_step _ _ _ _ _ _ _ Hp). now rewrite IH.
Qed.

End ignored_lines.

(** ** Package [sse]: the classification of errors *)

Section permanent_facts.

Context {tables : CaseTables}.












End permanent_facts.

Section stop_criterion.

Context {tables : CaseTables}.


End stop_criterion.


(** ** Package [sse]: the life of a connection *)

Section connection_facts.

Context {tables : CaseTables}.

Local Opaque isPermanentError establishError itoa.

Lemma Equals_eq (p q : SubscriptionParams) : Equals p q = true <-> p = q.
Proof.
  unfold Equals. rewrite !andb_true_iff, !String.eqb_eq.
  destruct p, q; simpl. split.
  - intros [[-> ->] ->]. reflexivity.
  - intros [= -> -> ->]. auto.
Qed.

Lemma Equals_refl (p : SubscriptionParams) : Equals p p = true.
Proof. now apply Equals_eq. Qed.

Lemma quiet_refl (s : System) : done (registry s) = true -> quiet s s.
Proof. intros H. repeat split; auto. Qed.

Lemma quiet_trans (s1 s2 s3 : System) : quiet s1 s2 -> quiet s2 s3 -> quiet s1 s3.
Proof.
  intros (_ & H1 & H2 & H3) (Hd & H4 & H5 & H6).
  repeat split; [exact Hd | congruence | congruence | lia].
Qed.

Lemma closeConnectionLocked_quiet (r : ConnectionRegistry) :
  done (closeConnectionLocked r) = done r
  /\ List.length (heap (closeConnectionLocked r)) = List.length (heap r)
  /\ countRequests (trace (closeConnectionLocked r)) = countRequests (trace r)
  /\ requestFn (closeConnectionLocked r) = requestFn r
  /\ reconnectConfig (closeConnectionLocked r) = reconnectConfig r.
Proof.
  unfold closeConnectionLocked. destruct (conn r); cbn; [|auto].
  rewrite length_alter, countRequests_app. cbn. repeat split; lia.
Qed.

Lemma step_quiet (s : System) (a : Action) :
  done (registry s) = true -> quiet s (step s a).
Proof.
  intros Hd. destruct s as [r ls]. cbn [registry] in Hd.
  destruct a as [p fn res now|c err|c|c now|now|i res now| |];
    cbn [step registry loops].
  - destruct (closeConnectionLocked_quiet r) as (H1 & H2 & H3 & _).
    unfold SubscribeWithParams. destruct (conn r) as [c|] eqn:Hc.
    + cbv zeta.
      destruct (match heap r !! c with
                | Some m => Equals (params m) p && negb (ctxIsDone r m)
                | None => false
                end); [now apply quiet_refl|].
      unfold createConnectionLocked. cbn [setRequestFn done].
      rewrite H1, Hd. cbn [fst].
      repeat split; cbn; [congruence | exact H2 | exact H3 | lia].
    + unfold createConnectionLocked. cbn [setRequestFn done]. rewrite Hd.
      repeat split; cbn; [exact Hd | lia].
  - destruct (heap r !! c) as [m|]; [|now apply quiet_refl].
    destruct (readerRunning m); [|now apply quiet_refl].
    unfold ctxIsDone. rewrite Hd, orb_true_r. cbn.
    repeat split; cbn; [exact Hd | now rewrite length_alter | lia].
  - repeat split; cbn; [exact Hd | now rewrite length_alter | lia].
  - destruct (heap r !! c) as [m|]; [|now apply quiet_refl].
    destruct (readerRunning m && negb (bodyClosed m)); [|now apply quiet_refl].
    repeat split; cbn; [exact Hd | now rewrite length_alter | lia].
  - unfold checkConnectionHealth. rewrite Hd. now apply quiet_refl.
  - destruct (ls !! i) as [st|] eqn:Hi; [|now apply quiet_refl].
    assert (i < List.length ls)%nat as Hlt by (eapply lookup_lt_Some; eauto).
    unfold reconnectStep. destruct (remaining st).
    + repeat split; cbn; [exact Hd | | ].
      * rewrite countRequests_app. cbn. lia.
      * rewrite length_delete by eauto. lia.
    + unfold reconnectIteration. rewrite Hd.
      repeat split; cbn; [exact Hd | ].
      rewrite length_delete by eauto. lia.
  - destruct (closeConnectionLocked_quiet r) as (H1 & H2 & H3 & _).
    repeat split; cbn [registry loops];
      [rewrite H1; exact Hd | exact H2 | exact H3 | lia].
  - repeat split; cbn; lia.
Qed.

Lemma run_quiet (actions : list Action) (s : System) :
  done (registry s) = true -> quiet s (run s actions).
Proof.
  revert s; induction actions as [|a actions IH]; intros s Hd;
    [now apply quiet_refl|].
  cbn [run fold_left]. pose proof (step_quiet s a Hd) as H.
  eapply quiet_trans; [exact H|]. apply IH. apply H.
Qed.

Lemma IsConnected_done (r : ConnectionRegistry) :
  done r = true -> IsConnected r = false.
Proof.
  intros Hd. unfold IsConnected, ctxIsDone. rewrite Hd.
  destruct (conn r) as [c|]; [|reflexivity].
  destruct (heap r !! c); [|reflexivity]. now rewrite orb_true_r.
Qed.

End connection_facts.

Section closed_registry.

Context {tables : CaseTables}.

(** X6 -- the calls that begin when the context of the registry is done
    (calls of [SubscribeWithParams], the handling of a read error, health
    checks, steps of reconnect loops, [Close] again), in any number and
    order: the context stays done, [IsConnected] answers false, no
    connection is created, the request function is not called and no
    reconnect loop is started.  A call that is in progress when
    [r.cancel()] is called is not one of them. *)
Theorem closed_registry_stays_quiet (s : System) (actions : list Action) :
  done (registry s) = true ->
  let s' := run s actions in
  done (registry s') = true
  /\ IsConnected (registry s') = false
  /\ List.length (heap (registry s')) = List.length (heap (registry s))
  /\ countRequests (trace (registry s')) = countRequests (trace (registry s))
  /\ (List.length (loops s') <= List.length (loops s))%nat.
Proof.
  intros Hd s'. destruct (run_quiet actions s Hd) as (H1 & H2 & H3 & H4).
  split; [exact H1|]. split; [now apply IsConnected_done|].
  split; [exact H2|]. split; [exact H3 | exact H4].
Qed.

End closed_registry.

(** X7 -- on a registry that is not closed, a call of
    [SubscribeWithParams] whose request succeeds (or that finds a live
    connection with the same parameters) returns no error and leaves the
    registry connected with the parameters asked for.  A further call with
    the same parameters changes nothing, whatever its request function: it
    makes no request and does not store the new request function. *)
Theorem SubscribeWithParams_connects (r : ConnectionRegistry)
    (p : SubscriptionParams) (fn : nat) (now : Z) :
  done r = false ->
  let r' := fst (SubscribeWithParams r p fn Response now) in
  snd (SubscribeWithParams r p fn Response now) = None
  /\ GetParams r' = (p, true)
  /\ IsConnected r' = true
  /\ (forall fn' res now', SubscribeWithParams r' p fn' res now' = (r', None)).
Proof.
  intros Hd r'.
  assert (forall r0 : ConnectionRegistry, done r0 = false -> conn r0 = None ->
            let r1 := fst (createConnectionLocked r0 p fn Response now) in
            snd (createConnectionLocked r0 p fn Response now) = None
            /\ GetParams r1 = (p, true)
            /\ IsConnected r1 = true
            /\ (forall fn' res now',
                  SubscribeWithParams r1 p fn' res now' = (r1, None))) as Hnew.
  { intros r0 Hd0 Hc0 r1. subst r1. unfold createConnectionLocked.
    rewrite Hd0. cbn [fst snd].
    assert (forall A (l : list A) x, (l ++ [x]) !! List.length l = Some x) as Hl.
    { intros A l x. rewrite lookup_app_r by lia. now rewrite Nat.sub_diag. }
    split; [reflexivity|]. split.
    { unfold GetParams, currentMeta. cbn [conn heap]. now rewrite Hl. }
    split.
    { unfold IsConnected, ctxIsDone. cbn [conn heap done cancelled].
      now rewrite Hl. }
    intros fn' res now'. unfold SubscribeWithParams. cbn [conn heap].
    rewrite Hl. unfold ctxIsDone. cbn [params cancelled done].
    now rewrite Equals_refl. }
  subst r'. unfold SubscribeWithParams. destruct (conn r) as [c|] eqn:Hc.
  - cbv zeta. destruct (heap r !! c) as [m|] eqn:Hm.
    + destruct (Equals (params m) p && negb (ctxIsDone r m)) eqn:Halive.
      * apply andb_true_iff in Halive as [He Hctx].
        apply negb_true_iff in Hctx. apply Equals_eq in He.
        cbn [fst snd]. split; [reflexivity|]. split.
        { unfold GetParams, currentMeta. now rewrite Hc, Hm, He. }
        split.
        { unfold IsConnected. now rewrite Hc, Hm, Hctx. }
        intros fn' res now'. unfold SubscribeWithParams.
        rewrite Hc, Hm, Hctx. subst p. now rewrite Equals_refl.
      * apply Hnew.
        -- cbn [setRequestFn done].
           now destruct (closeConnectionLocked_quiet r) as (-> & _).
        -- cbn [setRequestFn conn]. apply closeConnectionLocked_conn.
    + apply Hnew.
      * cbn [setRequestFn done].
        now destruct (closeConnectionLocked_quiet r) as (-> & _).
      * cbn [setRequestFn conn]. apply closeConnectionLocked_conn.
  - apply Hnew; [exact Hd | exact Hc].
Qed.

Lemma SubscribeWithParams_connects_witness :
  let p := {| ProjectID := "p1"; EnvSlug := "dev"; SecretsPath := "/" |} in
  let r := fst (SubscribeWithParams NewConnectionRegistry p 0 Response 0) in
  GetParams r = (p, true)
  /\ IsConnected r = true
  /\ SubscribeWithParams r p 1 (RequestError "refused") 5 = (r, None).
Proof.
  intros p r.
  destruct (SubscribeWithParams_connects NewConnectionRegistry p 0 0 eq_refl)
    as (_ & Hp & Hc & Hsame).
  split; [exact Hp|]. split; [exact Hc | exact (Hsame 1%nat (RequestError "refused") 5)].
Defined.

(** X8 -- [SubscribeWithParams] with other parameters than those of the
    current connection, when the request fails: the current connection has
    been closed before the request, so the registry is left without
    connection ([Get], [IsConnected] and [GetParams] say so), the new request
    function is stored and the error is the wrapped error of the request. *)
Theorem SubscribeWithParams_failed_swap (r : ConnectionRegistry) (c : nat)
    (m : ConnectionMeta) (p : SubscriptionParams) (fn : nat) (err : string)
    (now : Z) :
  conn r = Some c ->
  heap r !! c = Some m ->
  Equals (params m) p = false ->
  done r = false ->
  let r' := fst (SubscribeWithParams r p fn (RequestError err) now) in
  snd (SubscribeWithParams r p fn (RequestError err) now)
  = Some ("failed to establish SSE connection: " +:+ err)
  /\ Get r' = None
  /\ IsConnected r' = false
  /\ GetParams r' = (zeroParams, false)
  /\ heap r' = alter closeMeta c (heap r)
  /\ requestFn r' = Some fn
  /\ trace r' = trace r ++ [BodyClose c; Cancel c; Request fn].
Proof.
  intros Hc Hm He Hd r'. subst r'. unfold SubscribeWithParams.
  rewrite Hc, Hm, He. cbn [andb].
  unfold closeConnectionLocked. rewrite Hc.
  unfold createConnectionLocked, setRequestFn. cbn [done]. rewrite Hd.
  unfold emit, Get, IsConnected, GetParams, currentMeta.
  cbn [fst snd conn heap requestFn trace].
  repeat split. now rewrite <- app_assoc.
Qed.

Lemma SubscribeWithParams_failed_swap_witness :
  let p := {| ProjectID := "p1"; EnvSlug := "dev"; SecretsPath := "/" |} in
  let q := {| ProjectID := "p1"; EnvSlug := "prod"; SecretsPath := "/" |} in
  let r := fst (SubscribeWithParams NewConnectionRegistry p 0 Response 0) in
  let r' := fst (SubscribeWithParams r q 1 (RequestError "refused") 5) in
  IsConnected r = true
  /\ IsConnected r' = false
  /\ trace r' = [Request 0; GoProcessStream 0; BodyClose 0; Cancel 0; Request 1].
Proof.
  intros p q r r'.
  destruct (SubscribeWithParams_failed_swap r 0
              {| params := p; cancelled := false; bodyClosed := false;
                 lastPingAt := 0; readerRunning := true |}
              q 1 "refused" 5 eq_refl eq_refl eq_refl eq_refl)
    as (_ & _ & Hc & _ & _ & _ & Ht).
  split; [reflexivity|]. split; [exact Hc | exact Ht].
Defined.

Section recovery_facts.

Context {tables : CaseTables}.

Local Opaque isPermanentError establishError itoa.

Lemma lookup_snoc_length {A : Type} (l : list A) (x : A) :
  (l ++ [x]) !! List.length l = Some x.
Proof. rewrite lookup_app_r by lia. now rewrite Nat.sub_diag. Qed.

Lemma reconnectIterations_bounds (results : nat -> RequestResult)
    (clock : nat -> Z) (n : nat) (r : ConnectionRegistry) (st : LoopState) :
  isWaitWithin (reconnectConfig r) (TimeAfter (backoff st)) = true ->
  let r' := reconnectIterations n results clock r st in
  exists es,
    trace r' = trace r ++ es
    /\ reconnectConfig r' = reconnectConfig r
    /\ (countRequests es <= n)%nat
    /\ (countOnReconnect es <= 1)%nat
    /\ (countOnReconnect es = 1%nat ->
        countRequests es = n /\ conn r' = conn r /\ heap r' = heap r)
    /\ forallb (isWaitWithin (reconnectConfig r)) es = true.
Proof.
  revert r st; induction n as [|n IH]; intros r st Hb r'; subst r'.
  - exists [CallOnReconnect]. cbn. repeat split; lia.
  - cbn [reconnectIterations].
    set (res := results (Z.to_nat (attempt st))).
    set (now := clock (Z.to_nat (attempt st))).
    destruct (done r) eqn:Hd.
    { unfold reconnectIteration. rewrite Hd. exists []. cbn.
      rewrite app_nil_r. repeat split; try lia; try discriminate. }
    destruct res as [|err] eqn:Hres.
    + rewrite reconnectIteration_success by exact Hd.
      eexists. cbn [trace reconnectConfig]. split; [reflexivity|].
      cbn [countRequests countOnReconnect forallb].
      rewrite Hb. cbn. repeat split; try lia; try discriminate.
    + destruct (isPermanentError (establishError err)) eqn:Hp.
      * rewrite (reconnectIteration_permanent r st (RequestError err) now Hd)
          by exact Hp.
        eexists. unfold emit. cbn [trace reconnectConfig].
        split; [reflexivity|].
        cbn [countRequests countOnReconnect forallb].
        rewrite Hb. cbn. repeat split; try lia; try discriminate.
      * rewrite (reconnectIteration_transient r st (RequestError err) now Hd)
          by (cbn [isTransientFailure]; now rewrite Hp).
        match goal with
        | |- context [reconnectIterations n results clock ?r1 ?st1] =>
            destruct (IH r1 st1) as (es & Ht & Hcfg & Hreq & Hon & Hex & Hw)
        end.
        { unfold emit. cbn [reconnectConfig backoff isWaitWithin].
          apply orb_true_iff. right. apply Z.leb_le. apply Z.le_min_r. }
        eexists. rewrite Ht. unfold emit at 1. cbn [trace].
        rewrite <- app_assoc. split; [reflexivity|].
        rewrite Hcfg. unfold emit in Hw, Hex |- *.
        cbn [reconnectConfig conn heap] in *.
        split; [reflexivity|].
        rewrite countRequests_app, countOnReconnect_app, forallb_app.
        cbn [countRequests countOnReconnect forallb app].
        rewrite Hb, Hw. cbn [andb Nat.add].
        split; [lia|]. split; [lia|]. split; [|reflexivity].
        intros H1. destruct (Hex H1) as (Hn & Hconn & Hheap).
        split; [lia|]. split; assumption.
Qed.

Lemma delete_snoc_length {A : Type} (l : list A) (x : A) :
  delete (List.length l) (l ++ [x]) = l.
Proof.
  rewrite delete_middle. apply app_nil_r.
Qed.

End recovery_facts.

Section loop_bounds.

Context {tables : CaseTables}.

(** X9 -- a run of [reconnectLoop], for every configuration, every
    registry and every sequence of outcomes: it calls the request function at
    most [MaxRetries] times, it calls [onReconnect] at most once, and only
    after exactly [MaxRetries] requests that left the connection as it was;
    every wait is the initial backoff or is at most [MaxBackoff]. *)
Theorem reconnectLoop_bounds (r : ConnectionRegistry) (p : SubscriptionParams)
    (fn : nat) (results : nat -> RequestResult) (clock : nat -> Z) :
  let r' := reconnectLoop r p fn results clock in
  let n := Z.to_nat (MaxRetries (reconnectConfig r)) in
  exists es,
    trace r' = trace r ++ es
    /\ (countRequests es <= n)%nat
    /\ (countOnReconnect es <= 1)%nat
    /\ (countOnReconnect es = 1%nat ->
        countRequests es = n /\ conn r' = conn r /\ heap r' = heap r)
    /\ forallb (isWaitWithin (reconnectConfig r)) es = true.
Proof.
  intros r' n. subst r' n. unfold reconnectLoop.
  destruct (reconnectIterations_bounds results clock
              (Z.to_nat (MaxRetries (reconnectConfig r))) r
              (startLoop r p fn))
    as (es & Ht & _ & Hreq & Hon & Hex & Hw).
  { cbn [startLoop backoff isWaitWithin]. now rewrite Z.eqb_refl. }
  exists es. repeat split; try assumption; now apply Hex.
Qed.

End loop_bounds.

Section stale_connection.

Context {tables : CaseTables}.

(** X10 -- a health check that finds the last ping older than the timeout,
    followed by the first attempt of the reconnect loop it starts, when that
    attempt obtains a response and no other goroutine comes in between: the
    stale connection is closed before the request, the new connection has
    the parameters of the stale one and is the current one, and every other
    connection is left as it was.  Exactly one connection is open afterwards
    when, before the check, every connection other than the current one had
    its body closed; the check closes no connection but the current one. *)
Theorem stale_connection_is_replaced (s : System) (c : nat)
    (m : ConnectionMeta) (fn : nat) (now now' : Z) :
  done (registry s) = false ->
  conn (registry s) = Some c ->
  heap (registry s) !! c = Some m ->
  requestFn (registry s) = Some fn ->
  0 < MaxRetries (reconnectConfig (registry s)) ->
  PingTimeout < now - lastPingAt m ->
  let s' := run s [DoHealthCheck now;
                   DoReconnect (List.length (loops s)) Response now'] in
  GetParams (registry s') = (params m, true)
  /\ IsConnected (registry s') = true
  /\ conn (registry s') = Some (List.length (heap (registry s)))
  /\ heap (registry s')
     = alter closeMeta c (heap (registry s))
       ++ [{| params := params m; cancelled := false; bodyClosed := false;
              lastPingAt := now'; readerRunning := true |}]
  /\ (closedExceptCurrent (registry s) -> openCount (registry s') = 1%nat)
  /\ loops s' = loops s
  /\ trace (registry s')
     = trace (registry s)
       ++ [BodyClose c; Cancel c; GoReconnectLoop (params m) fn;
           TimeAfter (InitialBackoff (reconnectConfig (registry s)));
           Request fn; GoProcessStream (List.length (heap (registry s)))].
Proof.
  destruct s as [r ls]. cbn [registry loops].
  intros Hd Hc Hm Hfn Hmax Hstale. cbv zeta.
  assert (c < List.length (heap r))%nat as Hlt by (eapply lookup_lt_Some; eauto).
  set (meta := {| params := params m; cancelled := false; bodyClosed := false;
                  lastPingAt := now'; readerRunning := true |}).
  assert (run {| registry := r; loops := ls |}
            [DoHealthCheck now; DoReconnect (List.length ls) Response now']
          = {| registry :=
                 {| conn := Some (List.length (heap r));
                    heap := alter closeMeta c (heap r) ++ [meta];
                    done := false;
                    reconnectConfig := reconnectConfig r;
                    requestFn := requestFn r;
                    trace := trace r
                      ++ [BodyClose c; Cancel c; GoReconnectLoop (params m) fn;
                          TimeAfter (InitialBackoff (reconnectConfig r));
                          Request fn; GoProcessStream (List.length (heap r))] |};
               loops := ls |}) as ->.
  { cbn [run fold_left step registry loops].
    unfold checkConnectionHealth, currentMeta. rewrite Hd, Hc, Hm, Hfn.
    apply Z.ltb_lt in Hstale. rewrite Hstale.
    cbn [registry loops spawn]. rewrite lookup_snoc_length.
    unfold reconnectStep. cbn [startLoop remaining].
    destruct (Z.to_nat (MaxRetries (reconnectConfig r))) as [|k] eqn:Hk; [lia|].
    rewrite reconnectIteration_success
      by (unfold emit, closeConnectionLocked; rewrite Hc; cbn; exact Hd).
    rewrite delete_snoc_length.
    unfold emit, closeConnectionLocked, startLoop. rewrite Hc.
    cbn [conn heap done reconnectConfig requestFn trace loopParams loopFn
         backoff].
    rewrite length_alter, <- !app_assoc, Hfn. reflexivity. }
  cbn [registry loops].
  split.
  { unfold GetParams, currentMeta. cbn [conn heap].
    now rewrite <- (length_alter closeMeta (heap r) c), lookup_snoc_length. }
  split.
  { unfold IsConnected, ctxIsDone. cbn [conn heap done].
    now rewrite <- (length_alter closeMeta (heap r) c), lookup_snoc_length. }
  split; [reflexivity|]. split; [reflexivity|].
  split.
  { intros Hclosed.
    unfold openCount. cbn [heap]. rewrite List.filter_app, length_app.
    rewrite filter_all_false.
    - reflexivity.
    - intros c' m' Hm'. unfold isOpen.
      destruct (decide (c' = c)) as [->|Hne].
      + rewrite list_lookup_alter_eq, Hm in Hm'. now simplify_eq/=.
      + rewrite list_lookup_alter_ne in Hm' by congruence.
        rewrite (Hclosed c' m' Hm'); [reflexivity|]. rewrite Hc. congruence. }
  split; reflexivity.
Qed.

End stale_connection.

Lemma stale_connection_is_replaced_witness :
  let p := {| ProjectID := "p1"; EnvSlug := "dev"; SecretsPath := "/" |} in
  let s := run initial [DoSubscribe p 0 Response 0] in
  let s' := run s [DoHealthCheck (3 * Minute);
                   DoReconnect 0 Response (3 * Minute + Second)] in
  GetParams (registry s') = (p, true)
  /\ openCount (registry s') = 1%nat
  /\ trace (registry s')
     = [Request 0; GoProcessStream 0; BodyClose 0; Cancel 0;
        GoReconnectLoop p 0; TimeAfter Second; Request 0; GoProcessStream 1].
Proof.
  intros p s s'.
  assert (closedExceptCurrent (registry s)) as Hclosed.
  { intros c m Hm Hne. destruct c as [|c]; [now elim Hne|].
    destruct c; discriminate Hm. }
  destruct (stale_connection_is_replaced s 0
              {| params := p; cancelled := false; bodyClosed := false;
                 lastPingAt := 0; readerRunning := true |}
              0 (3 * Minute) (3 * Minute + Second)
              eq_refl eq_refl eq_refl eq_refl eq_refl eq_refl)
    as (Hp & _ & _ & _ & Ho & _ & Ht).
  split; [exact Hp|]. split; [exact (Ho Hclosed) | exact Ht].
Defined.

Lemma closed_registry_stays_quiet_witness :
  let p := {| ProjectID := "p1"; EnvSlug := "dev"; SecretsPath := "/" |} in
  let s := run initial [DoSubscribe p 0 Response 0; DoClose; DoCancel] in
  let s' := run s [DoSubscribe p 1 Response 7; DoHealthCheck (3 * Minute);
                   DoReaderError 0 "connection reset"] in
  IsConnected (registry s') = false
  /\ countRequests (trace (registry s')) = 1%nat
  /\ List.length (heap (registry s')) = 1%nat.
Proof.
  intros p s s'.
  destruct (closed_registry_stays_quiet s
              [DoSubscribe p 1 Response 7; DoHealthCheck (3 * Minute);
               DoReaderError 0 "connection reset"] eq_refl)
    as (_ & Hc & Hh & Hr & _).
  split; [exact Hc|]. split; [exact Hr | exact Hh].
Defined.

Section reader_end.

Context {tables : CaseTables}.

(** X11 -- when the reader of the current connection ends at the end of
    the body, or with a read error whose text contains [closed] or [eof] in
    any letter case, nothing is reported and no reconnect loop is started:
    the registry keeps the connection, [IsConnected] still answers true, and
    no reader streams from it. *)
Theorem reader_end_goes_unnoticed (s : System) (c : nat) (m : ConnectionMeta)
    (a : Action) :
  conn (registry s) = Some c ->
  heap (registry s) !! c = Some m ->
  readerRunning m = true ->
  ctxIsDone (registry s) m = false ->
  a = DoReaderExit c
  \/ (exists err, a = DoReaderError c err
                  /\ Contains (ToLower err) "closed"
                     || Contains (ToLower err) "eof" = true) ->
  let s' := step s a in
  IsConnected (registry s') = true
  /\ GetParams (registry s') = (params m, true)
  /\ heap (registry s') !! c = Some (stopReader m)
  /\ isStreaming (registry s') (stopReader m) = false
  /\ loops s' = loops s
  /\ trace (registry s') = trace (registry s).
Proof.
  destruct s as [r ls]. cbn [registry loops].
  intros Hc Hm Hrun Hctx Ha. cbv zeta.
  assert (step {| registry := r; loops := ls |} a
          = {| registry := setHeap (alter stopReader c (heap r)) r;
               loops := ls |}) as ->.
  { destruct Ha as [->|(err & -> & Hsilent)]; cbn [step registry loops];
      [reflexivity|].
    rewrite Hm, Hrun, Hctx. unfold scannerError. now rewrite Hsilent. }
  cbn [registry loops].
  unfold IsConnected, GetParams, currentMeta, isStreaming, setHeap.
  cbn [conn heap trace]. rewrite Hc, list_lookup_alter_eq, Hm.
  cbn [fmap option_fmap option_map]. unfold ctxIsDone in *.
  cbn [stopReader cancelled params done readerRunning]. rewrite Hctx.
  repeat split. apply andb_false_r.
Qed.

End reader_end.

Lemma reader_end_goes_unnoticed_witness :
  let p := {| ProjectID := "p1"; EnvSlug := "dev"; SecretsPath := "/" |} in
  let s := run initial [DoSubscribe p 0 Response 0] in
  let s' := step s (DoReaderError 0 "unexpected EOF") in
  IsConnected (registry s') = true
  /\ streamingCount (registry s') = 0%nat
  /\ loops s' = []
  /\ trace (registry s') = [Request 0; GoProcessStream 0].
Proof.
  intros p s s'.
  destruct (reader_end_goes_unnoticed s 0
              {| params := p; cancelled := false; bodyClosed := false;
                 lastPingAt := 0; readerRunning := true |}
              (DoReaderError 0 "unexpected EOF")
              eq_refl eq_refl eq_refl eq_refl
              (or_intror (ex_intro _ "unexpected EOF" (conj eq_refl eq_refl))))
    as (Hc & _ & _ & _ & Hl & Ht).
  split; [exact Hc|]. split; [reflexivity|]. split; [exact Hl | exact Ht].
Defined.

Lemma SubscribeWithParams_swap_witness :
  let p := {| ProjectID := "p1"; EnvSlug := "dev"; SecretsPath := "/" |} in
  let q := {| ProjectID := "p1"; EnvSlug := "prod"; SecretsPath := "/" |} in
  let r := fst (SubscribeWithParams NewConnectionRegistry p 0 Response 0) in
  let r' := fst (SubscribeWithParams r q 1 Response 5) in
  trace r' = [Request 0; GoProcessStream 0; BodyClose 0; Cancel 0;
              Request 1; GoProcessStream 1]
  /\ conn r' = Some 1%nat
  /\ heap r' !! 0%nat
     = Some {| params := p; cancelled := true; bodyClosed := true;
               lastPingAt := 0; readerRunning := true |}.
Proof.
  intros p q r r'.
  destruct (SubscribeWithParams_swap r 0
              {| params := p; cancelled := false; bodyClosed := false;
                 lastPingAt := 0; readerRunning := true |}
              q 1 5 eq_refl eq_refl eq_refl eq_refl)
    as (Ht & Hc & Hold & _).
  split; [exact Ht|]. split; [exact Hc | exact Hold].
Defined.

Lemma single_open_stream_without_reconnect_witness :
  let p := {| ProjectID := "p1"; EnvSlug := "dev"; SecretsPath := "/" |} in
  let q := {| ProjectID := "p1"; EnvSlug := "prod"; SecretsPath := "/" |} in
  (openCount
     (registry
        (run initial
           [DoSubscribe p 0 Response 0; DoReaderPing 0 Second;
            DoSubscribe q 1 Response 5; DoHealthCheck (3 * Minute);
            DoReconnect 0 (RequestError "refused") (3 * Minute + Second);
            DoSubscribe p 0 Response (4 * Minute)])) <= 1)%nat.
Proof.
  intros p q.
  apply single_open_stream_without_reconnect.
  repeat constructor.
Defined.

(** ** Package [util]: the API endpoint *)

Section endpoint_facts.

Import Util.

Lemma AppendAPIEndpoint_returns (address : string) :
  address <> "" ->
  exists url, AppendAPIEndpoint address = Returns url
              /\ HasSuffix url "/api" = true
              /\ HasPrefix url address = true.
Proof.
  intros Hne. destruct (str_snoc address Hne) as (p & c & ->).
  unfold AppendAPIEndpoint. rewrite index_last.
  destruct (HasSuffix (p +:+ String c "") "/api") eqn:Hs.
  - eexists. split; [reflexivity|]. split; [exact Hs|].
    apply HasPrefix_spec. exists "". now rewrite str_app_nil_r.
  - destruct (Ascii.eqb_spec c "/") as [->|Hc].
    + eexists. split; [reflexivity|]. split.
      * apply HasSuffix_spec. exists p. now rewrite str_app_assoc.
      * apply HasPrefix_spec. now exists "api".
    + eexists. split; [reflexivity|]. split.
      * apply HasSuffix_spec. now exists (p +:+ String c "").
      * apply HasPrefix_spec. now exists "/api".
Qed.

End endpoint_facts.

(** X12 -- on every address that is not empty, [AppendAPIEndpoint] returns
    an address that ends in ["/api"] and begins with the address given, and
    on its own result it changes nothing. *)
Theorem AppendAPIEndpoint_normalises (address : string) :
  address <> "" ->
  exists url,
    Util.AppendAPIEndpoint address = Util.Returns url
    /\ HasSuffix url "/api" = true
    /\ HasPrefix url address = true
    /\ Util.AppendAPIEndpoint url = Util.Returns url.
Proof.
  intros Hne. destruct (AppendAPIEndpoint_returns address Hne)
    as (url & Hr & Hs & Hp).
  exists url. split; [exact Hr|]. split; [exact Hs|]. split; [exact Hp|].
  unfold Util.AppendAPIEndpoint. now rewrite Hs.
Qed.

Lemma AppendAPIEndpoint_normalises_witness :
  exists url,
    Util.AppendAPIEndpoint "https://eu.infisical.com/api/" = Util.Returns url
    /\ url = "https://eu.infisical.com/api/api"
    /\ Util.AppendAPIEndpoint url = Util.Returns url.
Proof.
  destruct (AppendAPIEndpoint_normalises "https://eu.infisical.com/api/")
    as (url & Hr & _ & _ & Hi); [discriminate|].
  exists url. split; [exact Hr|]. split; [|exact Hi].
  vm_compute in Hr. now injection Hr as <-.
Defined.

(** ** Package [config] *)

Section config_facts.

Import Config.

Lemma isEmpty_spec (s : string) : isEmpty s = true <-> s = "".
Proof. apply String.eqb_eq. Qed.

End config_facts.

(** X13 -- [ParseInfisicalGlobalConfig]: the host is the value of
    [hostAPI], the empty string when the key is missing, also when an error
    is returned.  An error is returned exactly when one or two of the three
    [tls.caRef] values are empty; [TLS] is set exactly when none is, to these
    three values.  The result depends on the map only through the values of
    the four keys, a missing key counting as the empty string. *)
Theorem ParseInfisicalGlobalConfig_spec (rawMap : gmap string string) :
  let name := Config.mapIndex rawMap "tls.caRef.secretName" in
  let namespace := Config.mapIndex rawMap "tls.caRef.secretNamespace" in
  let key := Config.mapIndex rawMap "tls.caRef.key" in
  let result := Config.ParseInfisicalGlobalConfig rawMap in
  Config.HostAPI (fst result) = Config.mapIndex rawMap "hostAPI"
  /\ (snd result <> None <->
      (name <> "" \/ namespace <> "" \/ key <> "")
      /\ (name = "" \/ namespace = "" \/ key = ""))
  /\ (forall tls, Config.TLS (fst result) = Some tls <->
        name <> "" /\ namespace <> "" /\ key <> ""
        /\ tls = Config.mkTLSConfig (Config.mkCaReference name namespace key))
  /\ (forall other : gmap string string,
        (forall k, k ∈ Config.configKeys ->
                   Config.mapIndex other k = Config.mapIndex rawMap k) ->
        Config.ParseInfisicalGlobalConfig other = result).
Proof.
  cbv zeta. split; [|split; [|split]].
  - unfold Config.ParseInfisicalGlobalConfig, Config.mapIndex. cbv zeta.
    destruct (rawMap !! "hostAPI");
      repeat match goal with |- context [if ?b then _ else _] => destruct b end;
      reflexivity.
  - unfold Config.ParseInfisicalGlobalConfig. cbv zeta.
    destruct (Config.isEmpty (Config.mapIndex rawMap "tls.caRef.secretName"))
      eqn:H1;
    destruct (Config.isEmpty (Config.mapIndex rawMap "tls.caRef.secretNamespace"))
      eqn:H2;
    destruct (Config.isEmpty (Config.mapIndex rawMap "tls.caRef.key")) eqn:H3;
    cbn [negb orb fst snd];
    repeat match goal with
      | H : Config.isEmpty _ = true |- _ => apply isEmpty_spec in H
      | H : Config.isEmpty ?s = false |- _ =>
          assert (s <> "") by (intros E; apply isEmpty_spec in E; congruence);
          clear H
      end;
    split; try congruence; try tauto; intros _; tauto.
  - intros tls. unfold Config.ParseInfisicalGlobalConfig. cbv zeta.
    destruct (Config.isEmpty (Config.mapIndex rawMap "tls.caRef.secretName"))
      eqn:H1;
    destruct (Config.isEmpty (Config.mapIndex rawMap "tls.caRef.secretNamespace"))
      eqn:H2;
    destruct (Config.isEmpty (Config.mapIndex rawMap "tls.caRef.key")) eqn:H3;
    cbn [negb orb fst snd Config.TLS];
    repeat match goal with
      | H : Config.isEmpty _ = true |- _ => apply isEmpty_spec in H
      | H : Config.isEmpty ?s = false |- _ =>
          assert (s <> "") by (intros E; apply isEmpty_spec in E; congruence);
          clear H
      end;
    split; try (intros [= <-]); try tauto; try (intros (? & ? & ? & ->));
      try tauto; try congruence; auto.
  - intros other Hsame.
    pose proof (Hsame "hostAPI" ltac:(repeat constructor)) as Hh.
    pose proof (Hsame "tls.caRef.secretName"
                  ltac:(unfold Config.configKeys; set_solver)) as H1.
    pose proof (Hsame "tls.caRef.secretNamespace"
                  ltac:(unfold Config.configKeys; set_solver)) as H2.
    pose proof (Hsame "tls.caRef.key"
                  ltac:(unfold Config.configKeys; set_solver)) as H3.
    unfold Config.ParseInfisicalGlobalConfig. cbv zeta.
    rewrite H1, H2, H3.
    replace (match other !! "hostAPI" with
             | Some hostAPI => hostAPI
             | None => ""
             end)
      with (match rawMap !! "hostAPI" with
            | Some hostAPI => hostAPI
            | None => ""
            end) by (symmetry; exact Hh).
    reflexivity.
Qed.

(** ** Package [infisicalpushsecret] *)

(** X14 -- [SetupAPIConfig] panics only when the host of the resource is
    empty and the pointer to the global configuration is nil; the slice index
    of [AppendAPIEndpoint] is never out of range here.  Otherwise it returns
    no error, leaves the certificate as it is, and sets the URL: to the host
    of the global configuration as it stands when the host of the resource is
    empty, and otherwise to the host of the resource brought to end in
    ["/api"]. *)
Theorem SetupAPIConfig_outcome (g : Config.Globals)
    (spec : Infisicalpushsecret.InfisicalPushSecretSpec)
    (infisicalGlobalConfig : option Config.InfisicalGlobalConfig) :
  (Infisicalpushsecret.Spec_HostAPI spec = ""
   /\ infisicalGlobalConfig = None
   /\ Infisicalpushsecret.SetupAPIConfig g spec infisicalGlobalConfig
      = Infisicalpushsecret.Panics Infisicalpushsecret.NilPointerDereference)
  \/ (exists url,
        Infisicalpushsecret.SetupAPIConfig g spec infisicalGlobalConfig
        = Infisicalpushsecret.Ok
            ({| Config.API_HOST_URL := url;
                Config.API_CA_CERTIFICATE := Config.API_CA_CERTIFICATE g |},
             None)
        /\ (Infisicalpushsecret.Spec_HostAPI spec = "" ->
            exists c, infisicalGlobalConfig = Some c
                      /\ url = Config.HostAPI c)
        /\ (Infisicalpushsecret.Spec_HostAPI spec <> "" ->
            HasSuffix url "/api" = true
            /\ HasPrefix url (Infisicalpushsecret.Spec_HostAPI spec) = true
            /\ Util.AppendAPIEndpoint url = Util.Returns url)).
Proof.
  unfold Infisicalpushsecret.SetupAPIConfig.
  destruct (Config.isEmpty (Infisicalpushsecret.Spec_HostAPI spec)) eqn:He.
  - apply isEmpty_spec in He.
    destruct infisicalGlobalConfig as [c|].
    + right. eexists. split; [reflexivity|]. split; [|congruence].
      intros _. now exists c.
    + left. auto.
  - assert (Infisicalpushsecret.Spec_HostAPI spec <> "") as Hne.
    { intros E. apply isEmpty_spec in E. congruence. }
    destruct (AppendAPIEndpoint_returns _ Hne) as (url & Hr & Hs & Hp).
    right. exists url. rewrite Hr. split; [reflexivity|].
    split; [congruence|]. intros _. split; [exact Hs|]. split; [exact Hp|].
    unfold Util.AppendAPIEndpoint. now rewrite Hs.
Qed.

(** X15 -- [HandleCACertificate] with a global configuration: the URL is
    never changed; when an error is returned both variables are as before;
    when the global configuration has a [TLS] entry the outcome does not
    depend on the resource; when the secret referred to is found, there is no
    error and the certificate is the value under the key, the empty string
    when the key is missing; when neither names a secret, the certificate is
    set to the empty string. *)
Theorem HandleCACertificate_outcome (IsNamespaceScoped : bool)
    (cluster : string -> string -> Infisicalpushsecret.Lookup)
    (g : Config.Globals) (spec : Infisicalpushsecret.InfisicalPushSecretSpec)
    (c : Config.InfisicalGlobalConfig) :
  exists g' err,
    Infisicalpushsecret.HandleCACertificate IsNamespaceScoped cluster g spec
      (Some c) = Infisicalpushsecret.Ok (g', err)
    /\ Config.API_HOST_URL g' = Config.API_HOST_URL g
    /\ (err <> None -> g' = g)
    /\ (Config.TLS c <> None ->
        forall spec',
          Infisicalpushsecret.HandleCACertificate IsNamespaceScoped cluster g
            spec' (Some c) = Infisicalpushsecret.Ok (g', err))
    /\ (forall tls Data,
          Config.TLS c = Some tls
          \/ (Config.TLS c = None
              /\ Config.SecretName (Config.CaRef tls) <> ""
              /\ tls = Infisicalpushsecret.Spec_TLS spec) ->
          cluster (Config.SecretNamespace (Config.CaRef tls))
            (Config.SecretName (Config.CaRef tls))
          = Infisicalpushsecret.Found Data ->
          err = None
          /\ Config.API_CA_CERTIFICATE g'
             = Config.mapIndex Data (Config.SecretKey (Config.CaRef tls)))
    /\ (Config.TLS c = None ->
        Config.SecretName
          (Config.CaRef (Infisicalpushsecret.Spec_TLS spec)) = "" ->
        err = None /\ Config.API_CA_CERTIFICATE g' = "").
Proof.
  unfold Infisicalpushsecret.HandleCACertificate. cbv zeta.
  assert (forall tls,
            exists caCert err,
              Infisicalpushsecret.getInfisicalCaCertificateFromKubeSecret
                IsNamespaceScoped cluster tls = (caCert, err)
              /\ forall Data,
                   cluster (Config.SecretNamespace (Config.CaRef tls))
                     (Config.SecretName (Config.CaRef tls))
                   = Infisicalpushsecret.Found Data ->
                   err = None
                   /\ caCert = Config.mapIndex Data
                                 (Config.SecretKey (Config.CaRef tls)))
    as Hget.
  { intros tls.
    unfold Infisicalpushsecret.getInfisicalCaCertificateFromKubeSecret.
    destruct (cluster (Config.SecretNamespace (Config.CaRef tls))
                (Config.SecretName (Config.CaRef tls))) as [Data|e].
    - eexists _, _. split; [reflexivity|]. intros D [= <-]. auto.
    - destruct (Infisicalpushsecret.IsNotFound e);
        [|destruct (Infisicalpushsecret.IsNamespaceScopedError e
                      IsNamespaceScoped)];
        (eexists _, _; split; [reflexivity | intros D HD; discriminate HD]). }
  destruct (Config.TLS c) as [tls|] eqn:Htls.
  - destruct (Hget tls) as (caCert & err & -> & Hfound).
    destruct err as [e|].
    + eexists _, _. split; [reflexivity|]. split; [reflexivity|].
      split; [reflexivity|]. split; [reflexivity|]. split; [|discriminate].
      intros tls' D [[= <-]|(Hn & _)] HD; [|discriminate].
      destruct (Hfound D HD) as [? _]. discriminate.
    + eexists _, _. split; [reflexivity|]. split; [reflexivity|].
      split; [congruence|]. split; [reflexivity|]. split; [|discriminate].
      intros tls' D [[= <-]|(Hn & _)] HD; [|discriminate].
      destruct (Hfound D HD) as [_ ->]. auto.
  - destruct (Config.isEmpty
                (Config.SecretName
                   (Config.CaRef (Infisicalpushsecret.Spec_TLS spec))))
      eqn:He; cbn [negb].
    + apply isEmpty_spec in He.
      eexists _, _. split; [reflexivity|]. split; [reflexivity|].
      split; [congruence|]. split; [congruence|]. split; [|auto].
      intros tls' D [Hs|(_ & Hn & ->)] HD; [discriminate|]. congruence.
    + assert (Config.SecretName
                (Config.CaRef (Infisicalpushsecret.Spec_TLS spec)) <> "")
        as Hne.
      { intros E. apply isEmpty_spec in E. congruence. }
      destruct (Hget (Infisicalpushsecret.Spec_TLS spec))
        as (caCert & err & -> & Hfound).
      destruct err as [e|].
      * eexists _, _. split; [reflexivity|]. split; [reflexivity|].
        split; [reflexivity|]. split; [congruence|]. split; [|congruence].
        intros tls' D [Hs|(_ & Hn & ->)] HD; [discriminate|].
        destruct (Hfound D HD) as [? _]. discriminate.
      * eexists _, _. split; [reflexivity|]. split; [reflexivity|].
        split; [congruence|]. split; [congruence|]. split; [|congruence].
        intros tls' D [Hs|(_ & Hn & ->)] HD; [discriminate|].
        destruct (Hfound D HD) as [_ ->]. auto.
Qed.

(** ** Package [infisicalsecret]: the data, the annotations and the orphans *)

Section data_facts.

Variable executeTemplate :
  string -> gmap string SecretTemplateOptions -> TemplateFailure + string.

(** A map keyed by [secret.Key] holds, after the loop over the secrets,
    what the last secret with each key gave. *)
Lemma lookup_fold_insert {B : Type} (f : SingleEnvironmentVariable -> B)
    (secrets : list SingleEnvironmentVariable) (m0 : gmap string B)
    (k : string) :
  fold_left (fun m secret => <[Key secret := f secret]> m) secrets m0 !! k
  = match lastWithKey k secrets with
    | Some secret => Some (f secret)
    | None => m0 !! k
    end.
Proof.
  unfold lastWithKey. induction secrets as [|x l IH] using rev_ind;
    [reflexivity|].
  rewrite fold_left_app, rev_app_distr. cbn [fold_left rev app List.find].
  destruct (String.eqb_spec (Key x) k) as [->|Hne].
  - apply lookup_insert_eq.
  - rewrite lookup_insert_ne by exact Hne. exact IH.
Qed.

Lemma renderTemplates_inr (templates : list (string * string))
    (secretKeyValue : gmap string SecretTemplateOptions)
    (acc data : gmap string string) :
  NoDup templates.*1 ->
  renderTemplates executeTemplate templates secretKeyValue acc = inr data ->
  (forall key userTemplate,
     (key, userTemplate) ∈ templates ->
     exists out, executeTemplate userTemplate secretKeyValue = inr out
                 /\ data !! key = Some out)
  /\ (forall k, k ∉ templates.*1 -> data !! k = acc !! k).
Proof.
  revert acc; induction templates as [|[key0 tmpl0] rest IH]; intros acc Hnd H.
  - injection H as <-. split; [intros ? ? Hin; inversion Hin | reflexivity].
  - cbn [renderTemplates] in H. rewrite fmap_cons in Hnd.
    apply NoDup_cons in Hnd as [Hfresh Hnd].
    destruct (executeTemplate tmpl0 secretKeyValue) as [[e|e]|out] eqn:Hx;
      try discriminate.
    destruct (IH _ Hnd H) as [Hin Hout]. split.
    + intros key tmpl Hel. apply elem_of_cons in Hel as [[= -> ->]|Hel].
      * exists out. split; [exact Hx|].
        rewrite (Hout key0 Hfresh). apply lookup_insert_eq.
      * now apply Hin.
    + intros k Hk. rewrite fmap_cons in Hk. cbn [fst] in Hk.
      apply not_elem_of_cons in Hk as [Hne Hk].
      rewrite (Hout k Hk). now apply lookup_insert_ne.
Qed.

Lemma renderTemplates_inl (templates : list (string * string))
    (secretKeyValue : gmap string SecretTemplateOptions)
    (acc : gmap string string) (err : string) :
  renderTemplates executeTemplate templates secretKeyValue acc = inl err ->
  exists key userTemplate failure,
    (key, userTemplate) ∈ templates
    /\ executeTemplate userTemplate secretKeyValue = inl failure.
Proof.
  revert acc; induction templates as [|[key0 tmpl0] rest IH]; intros acc H.
  - discriminate.
  - cbn [renderTemplates] in H.
    destruct (executeTemplate tmpl0 secretKeyValue) as [f|out] eqn:Hx.
    + exists key0, tmpl0, f. split; [apply list_elem_of_here | exact Hx].
    + destruct (IH _ H) as (key & tmpl & f & Hin & Hf).
      exists key, tmpl, f. split; [now apply list_elem_of_further | exact Hf].
Qed.

Lemma renderTemplates_Permutation (l1 l2 : list (string * string))
    (secretKeyValue : gmap string SecretTemplateOptions)
    (acc : gmap string string) :
  NoDup l1.*1 -> l1 ≡ₚ l2 ->
  match renderTemplates executeTemplate l1 secretKeyValue acc,
        renderTemplates executeTemplate l2 secretKeyValue acc with
  | inr data1, inr data2 => data1 = data2
  | inl _, inl _ => True
  | _, _ => False
  end.
Proof.
  intros Hnd Hp.
  assert (NoDup l2.*1) as Hnd2 by (now rewrite <- Hp).
  destruct (renderTemplates executeTemplate l1 secretKeyValue acc)
    as [e1|d1] eqn:H1;
    destruct (renderTemplates executeTemplate l2 secretKeyValue acc)
      as [e2|d2] eqn:H2.
  - exact I.
  - apply renderTemplates_inl in H1 as (key & tmpl & f & Hin & Hf).
    destruct (renderTemplates_inr _ _ _ _ Hnd2 H2) as [Hall _].
    rewrite Hp in Hin. destruct (Hall key tmpl Hin) as (out & Hout & _).
    congruence.
  - apply renderTemplates_inl in H2 as (key & tmpl & f & Hin & Hf).
    destruct (renderTemplates_inr _ _ _ _ Hnd H1) as [Hall _].
    rewrite <- Hp in Hin. destruct (Hall key tmpl Hin) as (out & Hout & _).
    congruence.
  - destruct (renderTemplates_inr _ _ _ _ Hnd H1) as [Hin1 Hout1].
    destruct (renderTemplates_inr _ _ _ _ Hnd2 H2) as [Hin2 Hout2].
    apply map_eq. intros k.
    destruct (decide (k ∈ l1.*1)) as [Hk|Hk].
    + apply list_elem_of_fmap in Hk as ([key tmpl] & -> & Hel). cbn [fst].
      destruct (Hin1 key tmpl Hel) as (o1 & Ho1 & ->).
      rewrite Hp in Hel. destruct (Hin2 key tmpl Hel) as (o2 & Ho2 & ->).
      congruence.
    + rewrite (Hout1 k Hk). symmetry. apply Hout2. now rewrite <- Hp.
Qed.

End data_facts.

(** X16 -- the data written to a managed secret or config map.  Without
    template, each key holds the value of the last fetched secret with that
    key.  With a template, each template key holds the output of its
    template, which overrides a fetched secret of the same name; the fetched
    secrets are present besides only when [IncludeAllSecrets] is set.  The
    computation fails exactly when one of the templates fails; the templates
    see, for each key, the value and the path of the last fetched secret. *)
Theorem processSecrets_data
    (executeTemplate :
       string -> gmap string SecretTemplateOptions -> TemplateFailure + string)
    (managedTemplateData : option SecretTemplate)
    (secretsFromAPI : list SingleEnvironmentVariable) :
  let secretKeyValue :=
    fold_left
      (fun m secret =>
         <[Key secret := {| OptValue := Value secret;
                            OptSecretPath := SecretPath secret |}]> m)
      secretsFromAPI (∅ : gmap string SecretTemplateOptions) in
  let fetched k := option_map Value (lastWithKey k secretsFromAPI) in
  (forall k,
     secretKeyValue !! k
     = option_map (fun secret => {| OptValue := Value secret;
                                    OptSecretPath := SecretPath secret |})
         (lastWithKey k secretsFromAPI))
  /\ match processSecrets executeTemplate managedTemplateData secretsFromAPI with
     | inr data =>
         forall k,
           data !! k
           = match managedTemplateData with
             | None => fetched k
             | Some t =>
                 match TemplateData t !! k with
                 | Some userTemplate =>
                     match executeTemplate userTemplate secretKeyValue with
                     | inr out => Some out
                     | inl _ => None
                     end
                 | None => if IncludeAllSecrets t then fetched k else None
                 end
             end
     | inl _ =>
         exists t key userTemplate failure,
           managedTemplateData = Some t
           /\ TemplateData t !! key = Some userTemplate
           /\ executeTemplate userTemplate secretKeyValue = inl failure
     end
  /\ (forall t,
        managedTemplateData = Some t ->
        (exists data,
           processSecrets executeTemplate managedTemplateData secretsFromAPI
           = inr data)
        <-> forall key userTemplate,
              TemplateData t !! key = Some userTemplate ->
              exists out, executeTemplate userTemplate secretKeyValue = inr out).
Proof.
  intros secretKeyValue fetched.
  assert (forall k,
            fold_left (fun m secret => <[Key secret := Value secret]> m)
              secretsFromAPI (∅ : gmap string string) !! k = fetched k)
    as Hplain.
  { intros k. rewrite lookup_fold_insert, lookup_empty. subst fetched.
    cbv beta. now destruct (lastWithKey k secretsFromAPI). }
  split; [|split].
  - intros k. subst secretKeyValue. rewrite lookup_fold_insert, lookup_empty.
    now destruct (lastWithKey k secretsFromAPI).
  - unfold processSecrets. destruct managedTemplateData as [t|]; [|exact Hplain].
    cbv zeta. fold secretKeyValue.
    destruct (renderTemplates executeTemplate (map_to_list (TemplateData t))
                secretKeyValue _) as [err|data] eqn:Hr.
    + apply renderTemplates_inl in Hr as (key & tmpl & f & Hin & Hf).
      exists t, key, tmpl, f. split; [reflexivity|].
      split; [now apply elem_of_map_to_list | exact Hf].
    + apply renderTemplates_inr in Hr as [Hin Hout];
        [|apply NoDup_fst_map_to_list].
      intros k. destruct (TemplateData t !! k) as [tmpl|] eqn:Hk.
      * apply elem_of_map_to_list in Hk.
        destruct (Hin k tmpl Hk) as (out & -> & ->). reflexivity.
      * rewrite Hout.
        -- destruct (IncludeAllSecrets t); [apply Hplain | apply lookup_empty].
        -- intros Hel. apply list_elem_of_fmap in Hel as ([k' v] & -> & Hel).
           apply elem_of_map_to_list in Hel. cbn [fst] in Hk. congruence.
  - intros t ->. unfold processSecrets. cbv zeta. fold secretKeyValue. split.
    + intros [data Hr] key tmpl Hk.
      apply renderTemplates_inr in Hr as [Hin _];
        [|apply NoDup_fst_map_to_list].
      apply elem_of_map_to_list in Hk.
      destruct (Hin key tmpl Hk) as (out & Hx & _). eauto.
    + intros Hall.
      destruct (renderTemplates executeTemplate (map_to_list (TemplateData t))
                  secretKeyValue _) as [err|data] eqn:Hr; [|eauto].
      apply renderTemplates_inl in Hr as (key & tmpl & f & Hin & Hf).
      apply elem_of_map_to_list in Hin.
      destruct (Hall key tmpl Hin) as (out & Hx). congruence.
Qed.

(** X17 -- the loop over the templates, in whatever order [range] yields
    them: it succeeds in one order exactly when it succeeds in the other, and
    then with the same data; only the template named in the error may
    differ. *)
Theorem renderTemplates_order_irrelevant
    (executeTemplate :
       string -> gmap string SecretTemplateOptions -> TemplateFailure + string)
    (t : SecretTemplate) (order : list (string * string))
    (secretKeyValue : gmap string SecretTemplateOptions)
    (plainProcessedSecrets : gmap string string) :
  order ≡ₚ map_to_list (TemplateData t) ->
  match renderTemplates executeTemplate order secretKeyValue
          plainProcessedSecrets,
        renderTemplates executeTemplate (map_to_list (TemplateData t))
          secretKeyValue plainProcessedSecrets with
  | inr data1, inr data2 => data1 = data2
  | inl _, inl _ => True
  | _, _ => False
  end.
Proof.
  intros Hp. apply renderTemplates_Permutation; [|exact Hp].
  rewrite Hp. apply NoDup_fst_map_to_list.
Qed.

Lemma renderTemplates_order_irrelevant_witness :
  let executeTemplate :=
    fun (userTemplate : string) (_ : gmap string SecretTemplateOptions) =>
      if String.eqb userTemplate "{{"
      then inl (ParseFails "unclosed action") : TemplateFailure + string
      else inr userTemplate in
  let t := {| IncludeAllSecrets := false;
              TemplateData := <["a" := "x"]> (<["b" := "y"]> ∅) |} in
  renderTemplates executeTemplate [("b", "y"); ("a", "x")] ∅ ∅
  = renderTemplates executeTemplate (map_to_list (TemplateData t)) ∅ ∅.
Proof.
  intros executeTemplate t.
  assert (map_to_list (TemplateData t) = [("a", "x"); ("b", "y")]) as Hm
    by (vm_compute; reflexivity).
  assert ([("b", "y"); ("a", "x")] ≡ₚ map_to_list (TemplateData t)) as Hp
    by (rewrite Hm; apply perm_swap).
  pose proof (renderTemplates_order_irrelevant executeTemplate t
                [("b", "y"); ("a", "x")] ∅ ∅ Hp) as H.
  rewrite Hm in H |- *.
  destruct (renderTemplates executeTemplate [("b", "y"); ("a", "x")] ∅ ∅)
    as [e1|d1] eqn:E1;
    destruct (renderTemplates executeTemplate [("a", "x"); ("b", "y")] ∅ ∅)
      as [e2|d2] eqn:E2; try destruct H.
  - vm_compute in E1. discriminate E1.
  - reflexivity.
Defined.

Section range_facts.

Lemma lookup_rangeInsertIn {A B : Type} (keep : string -> A -> bool)
    (val : string -> A -> B) (entries : list (string * A))
    (dst : gmap string B) (k : string) :
  NoDup entries.*1 ->
  rangeInsertIn keep val entries dst !! k
  = match (list_to_map entries : gmap string A) !! k with
    | Some v => if keep k v then Some (val k v) else dst !! k
    | None => dst !! k
    end.
Proof.
  unfold rangeInsertIn.
  revert dst; induction entries as [|[k0 v0] rest IH]; intros dst Hnd.
  - cbn. now rewrite lookup_empty.
  - rewrite fmap_cons in Hnd. apply NoDup_cons in Hnd as [Hfresh Hnd].
    cbn [fold_left fst snd list_to_map foldr uncurry].
    rewrite IH by exact Hnd.
    destruct (decide (k0 = k)) as [->|Hne].
    + rewrite lookup_insert_eq.
      rewrite (not_elem_of_list_to_map_1 rest k Hfresh).
      destruct (keep k v0); [apply lookup_insert_eq | reflexivity].
    + rewrite (lookup_insert_ne _ k0 k) by exact Hne.
      destruct (keep k0 v0); [|reflexivity].
      now rewrite lookup_insert_ne by exact Hne.
Qed.

End range_facts.

(** X18 -- the copies made by loops over a map, and the tracking
    annotations, do not depend on the order in which [range] yields the
    entries: in every order the loop gives the map of [rangeInsert], and
    [formatManagedKeys] gives the same string. *)
Theorem range_order_irrelevant {A B : Type} (keep : string -> A -> bool)
    (val : string -> A -> B) (src : gmap string A) (dst : gmap string B)
    (keys : gmap string bool) (entries : list (string * A))
    (keyList : list string) :
  entries ≡ₚ map_to_list src ->
  keyList ≡ₚ rangeKeys keys ->
  rangeInsertIn keep val entries dst = rangeInsert keep val src dst
  /\ formatManagedKeysIn keys keyList = formatManagedKeys keys.
Proof.
  intros He Hk. split.
  - apply map_eq. intros k.
    rewrite lookup_rangeInsertIn
      by (rewrite He; apply NoDup_fst_map_to_list).
    rewrite lookup_rangeInsert.
    replace (list_to_map entries : gmap string A) with src; [reflexivity|].
    rewrite <- (list_to_map_to_list src). symmetry.
    apply list_to_map_proper; [|exact He].
    rewrite He. apply NoDup_fst_map_to_list.
  - unfold formatManagedKeysIn, formatManagedKeys.
    destruct (size keys =? 0)%nat; [reflexivity|].
    now apply joinSorted_Permutation.
Qed.

Lemma range_order_irrelevant_witness :
  let src : gmap string string := <["a" := "1"]> (<["b" := "2"]> ∅) in
  let keys : gmap string bool := <["a" := true]> (<["b" := true]> ∅) in
  rangeInsertIn always itself [("b", "2"); ("a", "1")] ∅
  = rangeInsert always itself src ∅
  /\ formatManagedKeysIn keys ["b"; "a"] = formatManagedKeys keys.
Proof.
  intros src keys.
  assert (map_to_list src = [("a", "1"); ("b", "2")]) as Hs
    by (vm_compute; reflexivity).
  assert (rangeKeys keys = ["a"; "b"]) as Hk by (vm_compute; reflexivity).
  apply range_order_irrelevant.
  - rewrite Hs. apply perm_swap.
  - rewrite Hk. apply perm_swap.
Defined.

Section annotation_facts.

Lemma lookup_newAnnotations (infisicalSecret : InfisicalSecret)
    (existingAnnotations existingLabels : gmap string string) (k : string) :
  k <> MANAGED_LABELS_ANNOTATION ->
  k <> MANAGED_ANNOTATIONS_ANNOTATION ->
  (syncLabelsAndAnnotations infisicalSecret existingAnnotations
     existingLabels).1 !! k
  = if isSystem k then existingAnnotations !! k
    else
      match Annotations infisicalSecret !! k with
      | Some v => Some v
      | None =>
          if String.eqb k SECRET_VERSION_ANNOTATION
             || negb (boolAt
                        (parseManagedKeys
                           (stringAt existingAnnotations
                              MANAGED_ANNOTATIONS_ANNOTATION)) k)
          then existingAnnotations !! k
          else None
      end.
Proof.
  intros Hl Ha. unfold syncLabelsAndAnnotations. cbn [fst].
  rewrite !lookup_insert_ne by congruence.
  rewrite !lookup_rangeInsert, lookup_empty. unfold notSystem, itself.
  apply String.eqb_neq in Hl, Ha. rewrite Hl, Ha, !orb_false_r.
  destruct (isSystem k); cbn [negb orb].
  - destruct (Annotations infisicalSecret !! k);
      destruct (existingAnnotations !! k); reflexivity.
  - destruct (Annotations infisicalSecret !! k); [reflexivity|].
    destruct (existingAnnotations !! k);
      destruct (String.eqb k SECRET_VERSION_ANNOTATION); cbn [orb];
      try reflexivity;
      destruct (boolAt _ k); reflexivity.
Qed.

End annotation_facts.

(** X19 -- the annotations that [syncLabelsAndAnnotations] returns, apart
    from the two tracking annotations.  An annotation with a system prefix
    is always the one of the existing object: the resource can neither set
    nor remove it.  Otherwise the annotation of the resource wins; without
    one, the annotation of the existing object is kept when it is the
    version annotation or is not listed as managed, and removed when it
    is. *)
Theorem syncLabelsAndAnnotations_annotations
    (infisicalSecret : InfisicalSecret)
    (existingAnnotations existingLabels : gmap string string) (k : string) :
  let P := parseManagedKeys
             (stringAt existingAnnotations MANAGED_ANNOTATIONS_ANNOTATION) in
  let newAnnotations :=
    (syncLabelsAndAnnotations infisicalSecret existingAnnotations
       existingLabels).1 in
  k <> MANAGED_LABELS_ANNOTATION ->
  k <> MANAGED_ANNOTATIONS_ANNOTATION ->
  (isSystem k = true -> newAnnotations !! k = existingAnnotations !! k)
  /\ (isSystem k = false ->
      forall v, Annotations infisicalSecret !! k = Some v ->
                newAnnotations !! k = Some v)
  /\ (isSystem k = false ->
      Annotations infisicalSecret !! k = None ->
      newAnnotations !! k
      = if String.eqb k SECRET_VERSION_ANNOTATION || negb (boolAt P k)
        then existingAnnotations !! k else None).
Proof.
  intros P newAnnotations Hl Ha. subst newAnnotations P.
  rewrite lookup_newAnnotations by assumption.
  split; [|split].
  - now intros ->.
  - now intros -> v ->.
  - now intros -> ->.
Qed.

Lemma syncLabelsAndAnnotations_annotations_witness :
  let cr := {| Labels := ∅;
               Annotations := <["helm.sh/hook" := "pre-install"]>
                                (<["team" := "a"]> ∅) |} in
  let existing : gmap string string :=
    <["helm.sh/hook" := "post-install"]>
      (<["owner" := "ops"]>
         (<["infisical.managed-annotations" := "owner,team"]> ∅)) in
  let newAnnotations := (syncLabelsAndAnnotations cr existing ∅).1 in
  newAnnotations !! "helm.sh/hook" = Some "post-install"
  /\ newAnnotations !! "team" = Some "a"
  /\ newAnnotations !! "owner" = None.
Proof.
  intros cr existing newAnnotations.
  split; [|split].
  - destruct (syncLabelsAndAnnotations_annotations cr existing ∅ "helm.sh/hook"
                ltac:(discriminate) ltac:(discriminate)) as (H & _ & _).
    exact (H eq_refl).
  - destruct (syncLabelsAndAnnotations_annotations cr existing ∅ "team"
                ltac:(discriminate) ltac:(discriminate)) as (_ & H & _).
    exact (H eq_refl "a" eq_refl).
  - destruct (syncLabelsAndAnnotations_annotations cr existing ∅ "owner"
                ltac:(discriminate) ltac:(discriminate)) as (_ & _ & H).
    exact (H eq_refl eq_refl).
Defined.

(** X20 -- [syncLabelsAndAnnotations] is idempotent: applied again to the
    annotations and labels it returned, for the same resource, it returns
    them unchanged, when the label and annotation keys of the resource have
    no comma and no outer white space. *)
Theorem syncLabelsAndAnnotations_idempotent
    (infisicalSecret : InfisicalSecret)
    (existingAnnotations existingLabels : gmap string string) :
  cleanKeys (Labels infisicalSecret) = true ->
  cleanKeys (Annotations infisicalSecret) = true ->
  let synced :=
    syncLabelsAndAnnotations infisicalSecret existingAnnotations
      existingLabels in
  syncLabelsAndAnnotations infisicalSecret synced.1 synced.2 = synced.
Proof.
  intros Hcl Hca synced.
  pose proof (lookup_sync_managed_labels infisicalSecret existingAnnotations
                existingLabels) as Hml.
  pose proof (lookup_sync_managed_annotations infisicalSecret
                existingAnnotations existingLabels) as Hma.
  fold synced in Hml, Hma.
  apply injective_projections.
  - apply map_eq. intros k.
    destruct (decide (k = MANAGED_LABELS_ANNOTATION)) as [->|Hl].
    { rewrite lookup_sync_managed_labels. symmetry. exact Hml. }
    destruct (decide (k = MANAGED_ANNOTATIONS_ANNOTATION)) as [->|Ha].
    { rewrite lookup_sync_managed_annotations. symmetry. exact Hma. }
    rewrite lookup_newAnnotations by assumption.
    destruct (isSystem k) eqn:Hs; [reflexivity|].
    destruct (Annotations infisicalSecret !! k) as [v|] eqn:Hk.
    + unfold synced. rewrite lookup_newAnnotations by assumption.
      now rewrite Hs, Hk.
    + rewrite (stringAt_Some _ _ _ Hma).
      assert (boolAt
                (parseManagedKeys
                   (formatManagedKeys
                      (rangeInsert notSystem managed
                         (Annotations infisicalSecret) ∅))) k = false) as ->.
      { apply not_true_is_false. intros Ht.
        apply parse_tracking in Ht as (v & Hv & _); [congruence | exact Hca]. }
      cbn [negb]. now rewrite orb_true_r.
  - apply map_eq. intros k. rewrite lookup_newLabels.
    destruct (Labels infisicalSecret !! k) as [v|] eqn:Hk.
    + unfold synced. now rewrite lookup_newLabels, Hk.
    + rewrite (stringAt_Some _ _ _ Hml).
      assert (boolAt
                (parseManagedKeys
                   (formatManagedKeys
                      (rangeInsert always managed (Labels infisicalSecret) ∅)))
                k = false) as ->.
      { apply not_true_is_false. intros Ht.
        apply parse_tracking in Ht as (v & Hv & _); [congruence | exact Hcl]. }
      now destruct (synced.2 !! k).
Qed.

Lemma syncLabelsAndAnnotations_idempotent_witness :
  let cr := {| Labels := <["team" := "a"]> ∅;
               Annotations := <["note" := "n"]> ∅ |} in
  let existingAnnotations : gmap string string :=
    <["infisical.managed-annotations" := "old"]> (<["old" := "o"]> ∅) in
  let existingLabels : gmap string string := <["tier" := "db"]> ∅ in
  let synced := syncLabelsAndAnnotations cr existingAnnotations existingLabels in
  syncLabelsAndAnnotations cr synced.1 synced.2 = synced.
Proof.
  intros cr existingAnnotations existingLabels synced.
  apply (syncLabelsAndAnnotations_idempotent cr existingAnnotations
           existingLabels); vm_compute; reflexivity.
Defined.

Section blank_facts.


End blank_facts.



Section collector_facts.

Lemma ownerReferences_spec (references : list ManagedReference) (key : string) :
  boolAt (ownerReferences references) key = true
  <-> exists reference,
        reference ∈ references
        /\ CreationPolicy reference = "Owner"
        /\ RefNamespace reference +:+ "/" +:+ RefName reference = key.
Proof.
  unfold ownerReferences.
  assert (forall acc,
            boolAt
              (fold_left
                 (fun m reference =>
                    if String.eqb (CreationPolicy reference) "Owner"
                    then <[RefNamespace reference +:+ "/" +:+ RefName reference
                           := true]> m
                    else m) references acc) key = true
            <-> boolAt acc key = true
                \/ exists reference,
                     reference ∈ references
                     /\ CreationPolicy reference = "Owner"
                     /\ RefNamespace reference +:+ "/" +:+ RefName reference
                        = key) as H.
  { induction references as [|x l IH]; intros acc; cbn [fold_left].
    - split; [auto | intros [H|(? & Hin & _)]; [exact H | inversion Hin]].
    - rewrite IH. clear IH. split.
      + intros [H|(r & Hin & Hp & Hk)].
        * destruct (String.eqb_spec (CreationPolicy x) "Owner") as [Hx|Hx];
            [|now left].
          unfold boolAt in H.
          destruct (decide (RefNamespace x +:+ "/" +:+ RefName x = key))
            as [He|Hne].
          -- right. exists x. split; [apply list_elem_of_here | auto].
          -- rewrite lookup_insert_ne in H by exact Hne. now left.
        * right. exists r. split; [now apply list_elem_of_further | auto].
      + intros [H|(r & Hin & Hp & Hk)].
        * left. destruct (String.eqb (CreationPolicy x) "Owner"); [|exact H].
          unfold boolAt in *.
          destruct (decide (RefNamespace x +:+ "/" +:+ RefName x = key))
            as [->|Hne].
          -- now rewrite lookup_insert_eq.
          -- now rewrite lookup_insert_ne by exact Hne.
        * apply elem_of_cons in Hin as [->|Hin].
          -- left. rewrite Hp. cbn. subst key. unfold boolAt.
             now rewrite lookup_insert_eq.
          -- right. exists r. auto. }
  rewrite H. unfold boolAt at 1. rewrite lookup_empty. cbn.
  split; [intros [|]; [discriminate | assumption] | auto].
Qed.

Lemma elem_of_orphaned (INFISICAL_SECRET_KIND uid : string)
    (items : list ListedObject) (references : list ManagedReference)
    (item : ListedObject) :
  item ∈ orphaned INFISICAL_SECRET_KIND uid items (ownerReferences references)
  <-> item ∈ items
      /\ isOwnedByInfisicalSecret INFISICAL_SECRET_KIND item uid = true
      /\ ~ exists reference,
             reference ∈ references
             /\ CreationPolicy reference = "Owner"
             /\ RefNamespace reference +:+ "/" +:+ RefName reference
                = ItemNamespace item +:+ "/" +:+ ItemName item.
Proof.
  unfold orphaned. rewrite list_elem_of_In, List.filter_In, <- list_elem_of_In.
  rewrite andb_true_iff, negb_true_iff, <- ownerReferences_spec.
  rewrite not_true_iff_false. tauto.
Qed.

End collector_facts.

(** X22 -- [deleteUnreferencedOwnedResources] deletes a secret exactly when
    the list of secrets is obtained, the secret is in it, it has an owner
    reference to this resource, and no managed reference with creation
    policy [Owner] has its namespace and name; so an owned secret that is
    still referenced, but with another policy, is deleted.  The same holds
    for config maps, which are examined only if the list of secrets was
    obtained. *)
Theorem deleteUnreferencedOwnedResources_spec
    (INFISICAL_SECRET_KIND uid : string)
    (secretList configMapList : option (list ListedObject))
    (secretReferences configMapReferences : list ManagedReference)
    (item : ListedObject) :
  let deletions :=
    deleteUnreferencedOwnedResources INFISICAL_SECRET_KIND uid secretList
      configMapList (ownerReferences secretReferences)
      (ownerReferences configMapReferences) in
  let unreferenced references :=
    ~ exists reference,
        reference ∈ references
        /\ CreationPolicy reference = "Owner"
        /\ RefNamespace reference +:+ "/" +:+ RefName reference
           = ItemNamespace item +:+ "/" +:+ ItemName item in
  (DeleteSecret item ∈ deletions
   <-> exists secrets,
         secretList = Some secrets /\ item ∈ secrets
         /\ isOwnedByInfisicalSecret INFISICAL_SECRET_KIND item uid = true
         /\ unreferenced secretReferences)
  /\ (DeleteConfigMap item ∈ deletions
      <-> exists secrets configMaps,
            secretList = Some secrets /\ configMapList = Some configMaps
            /\ item ∈ configMaps
            /\ isOwnedByInfisicalSecret INFISICAL_SECRET_KIND item uid = true
            /\ unreferenced configMapReferences).
Proof.
  intros deletions unreferenced. subst deletions unreferenced.
  unfold deleteUnreferencedOwnedResources.
  assert (forall (l : list ListedObject) x,
            DeleteSecret x ∈ List.map DeleteSecret l <-> x ∈ l) as Hs.
  { intros l x. rewrite !list_elem_of_In, in_map_iff. split.
    - intros (y & [= ->] & Hy). exact Hy.
    - intros Hx. eauto. }
  assert (forall (l : list ListedObject) x,
            DeleteConfigMap x ∈ List.map DeleteConfigMap l <-> x ∈ l) as Hc.
  { intros l x. rewrite !list_elem_of_In, in_map_iff. split.
    - intros (y & [= ->] & Hy). exact Hy.
    - intros Hx. eauto. }
  assert (forall (l : list ListedObject) x,
            DeleteSecret x ∉ List.map DeleteConfigMap l) as Hsc.
  { intros l x. rewrite list_elem_of_In, in_map_iff.
    intros (y & Hy & _). discriminate. }
  assert (forall (l : list ListedObject) x,
            DeleteConfigMap x ∉ List.map DeleteSecret l) as Hcs.
  { intros l x. rewrite list_elem_of_In, in_map_iff.
    intros (y & Hy & _). discriminate. }
  destruct secretList as [secrets|].
  - split.
    + rewrite elem_of_app, Hs, elem_of_orphaned. split.
      * intros [H|H]; [exists secrets; tauto|].
        destruct configMapList; [now apply Hsc in H | inversion H].
      * intros (l & [= <-] & H). now left.
    + rewrite elem_of_app. split.
      * intros [H|H]; [now apply Hcs in H|].
        destruct configMapList as [configMaps|]; [|inversion H].
        apply Hc, elem_of_orphaned in H. exists secrets, configMaps. tauto.
      * intros (l & l' & [= <-] & -> & H). right.
        apply Hc, elem_of_orphaned. exact H.
  - split; (split; [intros H; inversion H|]).
    + intros (l & Hl & _). discriminate.
    + intros (l & l' & Hl & _). discriminate.
Qed.

(** ** Package [sse]: errors that are wrapped *)

Section wrapping_facts.

Context {tables : CaseTables}.





End wrapping_facts.

Section wrapped_errors.

Context {tables : CaseTables}.


End wrapped_errors.


(** ** Package [sse]: the reader and the cancellation of its context *)

Section cancellation_facts.

Context {tables : CaseTables}.

Lemma processLines_cancelled (ctxDone : nat -> bool) (lines : list string) :
  forall (i k : nat) (event : Event) (dataBuilder : string),
    (k <= List.length lines)%nat ->
    (forall j, (j < k)%nat -> ctxDone (i + j)%nat = false) ->
    ctxDone (i + k)%nat = true ->
    processLines ctxDone i lines event dataBuilder
    = ((processLines neverDone 0 (firstn k lines) event dataBuilder).1,
       (k <? List.length lines)%nat).
Proof.
  induction lines as [|line rest IH]; intros i k event dataBuilder Hk Hlive Hdone.
  - cbn [List.length] in Hk. assert (k = 0%nat) as -> by lia. reflexivity.
  - destruct k as [|k].
    + cbn [processLines firstn]. rewrite Nat.add_0_r in Hdone.
      now rewrite Hdone.
    + cbn [processLines firstn].
      rewrite <- (Nat.add_0_r i) at 1. rewrite (Hlive 0%nat) by lia.
      unfold neverDone at 1.
      destruct (processLine line event dataBuilder) as [[calls ev] b].
      rewrite (IH (S i) k ev b).
      * rewrite (processLines_index 1 0).
        destruct (processLines neverDone 0 (firstn k rest) ev b).
        reflexivity.
      * cbn [List.length] in Hk. lia.
      * intros j Hj. replace (S i + j)%nat with (i + S j)%nat by lia.
        apply Hlive. lia.
      * now replace (S i + k)%nat with (i + S k)%nat by lia.
Qed.

End cancellation_facts.

Section cancelled_reader.

Context {tables : CaseTables}.

(** X24 -- when the context of the connection is found cancelled for the
    first time at the check before line [k] (or, for [k] the number of
    lines, at the check after the last line), the reader makes the
    callbacks of the first [k] lines and nothing more: no later event is
    handed over, and no error is reported and no reconnect triggered, also
    when the read ends with an error or a line is too long. *)
Theorem processStream_stops_at_cancellation (ctxDone : nat -> bool)
    (body : Body) (k : nat) :
  let lines := (scanLines (bytes body) EmptyString 0).1 in
  (k <= List.length lines)%nat ->
  (forall j, (j < k)%nat -> ctxDone j = false) ->
  ctxDone k = true ->
  processStream ctxDone body
  = (processLines neverDone 0 (firstn k lines) zeroEvent EmptyString).1.
Proof.
  intros lines Hk Hlive Hdone. subst lines. unfold processStream.
  destruct (scanLines (bytes body) "" 0) as [lines tooLong]. cbn [fst] in *.
  rewrite (processLines_cancelled ctxDone lines 0 k zeroEvent "" Hk Hlive Hdone).
  destruct (Nat.ltb_spec k (List.length lines)) as [Hlt|Hge]; [reflexivity|].
  assert (k = List.length lines) as -> by lia.
  unfold scannerError. rewrite Hdone.
  destruct (if tooLong then Some ErrTooLong else readError body);
    [apply app_nil_r | reflexivity].
Qed.

End cancelled_reader.

Lemma processStream_stops_at_cancellation_witness :
  let create := {| ID := "41"; Event_ := "secret:create"; Data := "{}";
                   Retry := 0 |} in
  let body := {| bytes := encodeEvents [create; create];
                 readError := Some "connection reset by peer" |} in
  processStream (fun i => (4 <=? i)%nat) body = [SafeCallOnEvent create].
Proof.
  intros create body.
  rewrite (processStream_stops_at_cancellation (fun i => (4 <=? i)%nat) body 4).
  - reflexivity.
  - vm_compute. lia.
  - intros j Hj. apply Nat.leb_gt. exact Hj.
  - reflexivity.
Defined.
